(** * Dreadmarch Campaign Manager: the dataset normaliser

    A shallow embedding of [dm4-dataset-core.js] (the cache-backed
    normaliser with its worker fallback), of [dm4-logger.js], and of
    [src/core/dm4-dataset-core.js] (the normaliser without cache), followed
    by the properties of the normaliser.

    JavaScript objects live in a heap of locations, because the properties
    below speak about object identity (the cached instance), about what a
    call allocates and about what it leaves untouched.  A value is a
    primitive or a reference into the heap.

    Boundaries of the model:
    - numbers are integers ([Z]); [0] is the only falsy number;
    - strings are byte strings, their [length] is the number of bytes;
    - property lookup is own-property lookup: members inherited from the
      built-in prototypes ([constructor], [toString], [__proto__], ...)
      are not modelled, except for the built-ins that the source calls
      ([Object.entries], [Object.assign], [Array.isArray], [forEach],
      [push], [JSON.stringify], the coercion of a value to a property key);
    - an own property is a data property or an accessor whose getter throws
      [new Error(msg)]; this is what makes "merging one system throws"
      possible;
    - functions as values, [toJSON] hooks and boxed primitives are absent. *)

From Stdlib Require Import ZArith String Ascii List Lia.
From stdpp Require Import base tactics option list strings pretty.

Local Open Scope string_scope.
Local Open Scope list_scope.

(** ** Values, objects, heap *)

Abbreviation loc := nat (only parsing).

Inductive JsVal : Type :=
| VUndef
| VNull
| VBool (b : bool)
| VNum (n : Z)
| VStr (s : string)
| VRef (l : loc).

Inductive Slot : Type :=
| Data (v : JsVal)
| Getter (msg : string).

Inductive Obj : Type :=
| OObj (props : list (string * Slot))
| OArr (elems : list JsVal).

#[global] Instance JsVal_eq_dec : EqDecision JsVal.
Proof. solve_decision. Defined.
#[global] Instance Slot_eq_dec : EqDecision Slot.
Proof. solve_decision. Defined.
#[global] Instance Obj_eq_dec : EqDecision Obj.
Proof. solve_decision. Defined.

Inductive Level : Type := LInfo | LWarn | LError | LCritical.

(** What the diagnostics see: a call of a [DM4.Logger] method, and a line
    printed on the console. *)
Inductive Event : Type :=
| LoggerCall (lv : Level) (msg : string)
| Console (lv : Level) (msg : string).

#[global] Instance Level_eq_dec : EqDecision Level.
Proof. solve_decision. Defined.
#[global] Instance Event_eq_dec : EqDecision Event.
Proof. solve_decision. Defined.

(** A request waiting for the worker: the promise is identified by the
    request id, [resolve] and [reject] settle that promise. *)
Record Pending : Type := { pendingCacheKey : option string }.

(** A message posted to the worker. *)
Record Posted : Type := { postedId : nat; postedPayload : JsVal }.

(** The module-level variables of [dm4-dataset-core.js] together with the
    heap and the diagnostics. *)
Record World : Type := {
  heap : list Obj;
  trace : list Event;
  normalizationCache : list (string * JsVal);
  worker : bool;
  workerRequestId : nat;
  pendingRequests : list (nat * Pending);
  outbox : list Posted;
  timers : list (nat * nat)
}.

Definition setHeap (h : list Obj) (w : World) : World :=
  {| heap := h; trace := trace w; normalizationCache := normalizationCache w;
     worker := worker w; workerRequestId := workerRequestId w;
     pendingRequests := pendingRequests w; outbox := outbox w;
     timers := timers w |}.

Definition addEvent (e : Event) (w : World) : World :=
  {| heap := heap w; trace := trace w ++ [e];
     normalizationCache := normalizationCache w;
     worker := worker w; workerRequestId := workerRequestId w;
     pendingRequests := pendingRequests w; outbox := outbox w;
     timers := timers w |}.

Definition setCache (c : list (string * JsVal)) (w : World) : World :=
  {| heap := heap w; trace := trace w; normalizationCache := c;
     worker := worker w; workerRequestId := workerRequestId w;
     pendingRequests := pendingRequests w; outbox := outbox w;
     timers := timers w |}.

Definition setWorker (b : bool) (w : World) : World :=
  {| heap := heap w; trace := trace w;
     normalizationCache := normalizationCache w;
     worker := b; workerRequestId := workerRequestId w;
     pendingRequests := pendingRequests w; outbox := outbox w;
     timers := timers w |}.

Definition setPending (n : nat) (p : list (nat * Pending)) (w : World) : World :=
  {| heap := heap w; trace := trace w;
     normalizationCache := normalizationCache w;
     worker := worker w; workerRequestId := n;
     pendingRequests := p; outbox := outbox w; timers := timers w |}.

Definition addOutbox (m : Posted) (t : nat * nat) (w : World) : World :=
  {| heap := heap w; trace := trace w;
     normalizationCache := normalizationCache w;
     worker := worker w; workerRequestId := workerRequestId w;
     pendingRequests := pendingRequests w; outbox := outbox w ++ [m];
     timers := timers w ++ [t] |}.

(** The initial state of the module on a given heap. *)
Definition initialWorld (h : list Obj) : World :=
  {| heap := h; trace := []; normalizationCache := []; worker := false;
     workerRequestId := 0; pendingRequests := []; outbox := [];
     timers := [] |}.

(** What the surrounding page provides. *)
Inductive WorkerSupport : Type :=
| WorkerUndefined            (* typeof Worker === 'undefined' *)
| WorkerThrows (msg : string) (* new Worker(...) throws *)
| WorkerAvailable.

Record Env : Type := {
  hasLogger : bool;          (* DM4.Logger is installed *)
  DM4_DEBUG : bool;          (* DM4.config.debug *)
  workerSupport : WorkerSupport
}.

(** ** The monad of the embedding: state and exceptions *)

Inductive Outcome (A : Type) : Type :=
| Ok (a : A)
| Throw (msg : string).
Arguments Ok {A} a.
Arguments Throw {A} msg.

Definition M (A : Type) : Type := World -> Outcome A * World.

Definition ret {A} (a : A) : M A := fun w => (Ok a, w).

Definition bind {A B} (m : M A) (f : A -> M B) : M B :=
  fun w => match m w with
           | (Ok a, w') => f a w'
           | (Throw e, w') => (Throw e, w')
           end.

Definition throw {A} (msg : string) : M A := fun w => (Throw msg, w).

(** [try { m } catch (err) { handler(err.message) }] *)
Definition tryCatch {A} (m : M A) (handler : string -> M A) : M A :=
  fun w => match m w with
           | (Ok a, w') => (Ok a, w')
           | (Throw e, w') => handler e w'
           end.

Notation "x <- m ;; k" := (bind m (fun x => k))
  (at level 100, m at next level, right associativity).
Notation "m ;;; k" := (bind m (fun _ => k))
  (at level 100, right associativity).

Definition getHeap : M (list Obj) := fun w => (Ok (heap w), w).
Definition emit (e : Event) : M unit := fun w => (Ok tt, addEvent e w).
Definition when (b : bool) (m : M unit) : M unit := if b then m else ret tt.

(** [list.forEach(f)] over a snapshot of the elements. *)
Fixpoint forEachM {A} (f : A -> M unit) (l : list A) : M unit :=
  match l with
  | [] => ret tt
  | x :: l' => f x ;;; forEachM f l'
  end.

(** ** Own properties *)

Fixpoint assoc {A} (k : string) (l : list (string * A)) : option A :=
  match l with
  | [] => None
  | (k', a) :: l' => if String.eqb k k' then Some a else assoc k l'
  end.

(** [obj[k] = a] on the list of own properties: an existing key keeps its
    place, a new key goes last. *)
Fixpoint assocSet {A} (k : string) (a : A) (l : list (string * A))
  : list (string * A) :=
  match l with
  | [] => [(k, a)]
  | (k', a') :: l' =>
      if String.eqb k k' then (k, a) :: l' else (k', a') :: assocSet k a l'
  end.

Definition keys {A} (l : list (string * A)) : list string := map fst l.

(** The index properties ["0"], ["1"], ... of an array or a string. *)
Definition indexEntries (es : list JsVal) : list (string * JsVal) :=
  imap (fun (i : nat) v => (pretty i, v)) es.

Definition chars (s : string) : list JsVal :=
  map (fun c => VStr (String c EmptyString)) (list_ascii_of_string s).

(** The own enumerable properties of a value, in iteration order.  A
    location outside the heap reads as an object without properties. *)
Definition ownSlots (h : list Obj) (v : JsVal) : list (string * Slot) :=
  match v with
  | VRef l =>
      match h !! l with
      | Some (OObj ps) => ps
      | Some (OArr es) => map (fun kv => (fst kv, Data (snd kv))) (indexEntries es)
      | None => []
      end
  | VStr s => map (fun kv => (fst kv, Data (snd kv))) (indexEntries (chars s))
  | _ => []
  end.

Definition truthy (v : JsVal) : bool :=
  match v with
  | VUndef | VNull => false
  | VBool b => b
  | VNum n => negb (Z.eqb n 0)
  | VStr s => negb (String.eqb s "")
  | VRef _ => true
  end.

(** [typeof v === "object"] *)
Definition typeofObject (v : JsVal) : bool :=
  match v with
  | VNull | VRef _ => true
  | _ => false
  end.

Definition isArray (h : list Obj) (v : JsVal) : bool :=
  match v with
  | VRef l => match h !! l with Some (OArr _) => true | _ => false end
  | _ => false
  end.

(** The non-enumerable [length] of arrays and strings. *)
Definition lengthOf (h : list Obj) (v : JsVal) : JsVal :=
  match v with
  | VRef l =>
      match h !! l with
      | Some (OArr es) => VNum (Z.of_nat (length es))
      | _ => VUndef
      end
  | VStr s => VNum (Z.of_nat (String.length s))
  | _ => VUndef
  end.

(** [v[k]] as a pure reading of the heap. *)
Definition readProp (h : list Obj) (v : JsVal) (k : string) : Outcome JsVal :=
  match v with
  | VUndef => Throw "Cannot read properties of undefined"
  | VNull => Throw "Cannot read properties of null"
  | _ =>
      match assoc k (ownSlots h v) with
      | Some (Data x) => Ok x
      | Some (Getter msg) => Throw msg
      | None => if String.eqb k "length" then Ok (lengthOf h v) else Ok VUndef
      end
  end.

Definition getProp (v : JsVal) (k : string) : M JsVal :=
  fun w => (readProp (heap w) v k, w).

(** Reading every own property in order, as [Object.entries] and
    [Object.assign] do; the first throwing getter aborts. *)
Fixpoint readSlots (ps : list (string * Slot)) : Outcome (list (string * JsVal)) :=
  match ps with
  | [] => Ok []
  | (k, Data v) :: ps' =>
      match readSlots ps' with
      | Ok r => Ok ((k, v) :: r)
      | Throw e => Throw e
      end
  | (_, Getter msg) :: _ => Throw msg
  end.

Definition readEntries (h : list Obj) (v : JsVal) : Outcome (list (string * JsVal)) :=
  match v with
  | VUndef | VNull => Throw "Cannot convert undefined or null to object"
  | _ => readSlots (ownSlots h v)
  end.

(** [Object.entries(v)] *)
Definition Object_entries (v : JsVal) : M (list (string * JsVal)) :=
  fun w => (readEntries (heap w) v, w).

(** ** Allocation and assignment *)

Definition alloc (o : Obj) : M loc :=
  fun w => (Ok (length (heap w)), setHeap (heap w ++ [o]) w).

(** An object literal [{k1: v1, ...}]. *)
Definition newObject (ps : list (string * JsVal)) : M JsVal :=
  l <- alloc (OObj (map (fun kv => (fst kv, Data (snd kv))) ps)) ;;
  ret (VRef l).

(** An array literal. *)
Definition newArray (es : list JsVal) : M JsVal :=
  l <- alloc (OArr es) ;; ret (VRef l).

(** [target[k] = v] in strict mode.  The module only ever assigns to plain
    objects that it created itself; an accessor without setter rejects the
    assignment, and assignment to anything but a plain object is outside
    the model. *)
Definition setProp (target : JsVal) (k : string) (v : JsVal) : M unit :=
  fun w =>
    match target with
    | VRef l =>
        match heap w !! l with
        | Some (OObj ps) =>
            match assoc k ps with
            | Some (Getter _) =>
                (Throw "Cannot set property which has only a getter", w)
            | _ => (Ok tt, setHeap (<[l := OObj (assocSet k (Data v) ps)]> (heap w)) w)
            end
        | _ => (Throw "assignment outside the model", w)
        end
    | _ => (Throw "assignment outside the model", w)
    end.

(** [arr.push(v)] *)
Definition push (arr : JsVal) (v : JsVal) : M unit :=
  fun w =>
    match arr with
    | VRef l =>
        match heap w !! l with
        | Some (OArr es) => (Ok tt, setHeap (<[l := OArr (es ++ [v])]> (heap w)) w)
        | _ => (Throw "push is not a function", w)
        end
    | _ => (Throw "push is not a function", w)
    end.

(** One source of [Object.assign]: every own enumerable property is read
    and assigned in turn; [undefined] and [null] sources are skipped. *)
Fixpoint assignSlots (target : JsVal) (ps : list (string * Slot)) : M unit :=
  match ps with
  | [] => ret tt
  | (k, Data v) :: ps' => setProp target k v ;;; assignSlots target ps'
  | (_, Getter msg) :: _ => throw msg
  end.

Definition assignFrom (target : JsVal) (source : JsVal) : M unit :=
  h <- getHeap ;; assignSlots target (ownSlots h source).

(** [Object.assign(target, s1, s2)] *)
Definition Object_assign (target s1 s2 : JsVal) : M JsVal :=
  assignFrom target s1 ;;;
  assignFrom target s2 ;;;
  ret target.

(** [v || {}] *)
Definition orEmptyObject (v : JsVal) : M JsVal :=
  if truthy v then ret v else newObject [].

(** [v || []] *)
Definition orEmptyArray (v : JsVal) : M JsVal :=
  if truthy v then ret v else newArray [].

(** ** Coercion of a value to a property key

    [obj[v] = ...] turns [v] into a string: primitives print as
    themselves, an array is the comma-separated list of its elements
    ([undefined], [null] and an array met again inside itself print as
    nothing), any other object is ["[object Object]"].  The nesting depth of
    arrays never exceeds the number of locations, which bounds the
    recursion. *)

Fixpoint joinWith (sep : string) (l : list string) : string :=
  match l with
  | [] => ""
  | [x] => x
  | x :: l' => x +:+ sep +:+ joinWith sep l'
  end.

Fixpoint toStringFuel (fuel : nat) (h : list Obj) (seen : list loc)
    (v : JsVal) : string :=
  match v with
  | VUndef => "undefined"
  | VNull => "null"
  | VBool true => "true"
  | VBool false => "false"
  | VNum n => pretty n
  | VStr s => s
  | VRef l =>
      match h !! l with
      | Some (OArr es) =>
          match fuel with
          | 0 => ""
          | S f =>
              if bool_decide (l ∈ seen) then ""
              else joinWith ","
                     (map (fun e => match e with
                                    | VUndef | VNull => ""
                                    | _ => toStringFuel f h (l :: seen) e
                                    end) es)
          end
      | _ => "[object Object]"
      end
  end.

Definition toPropertyKey (h : list Obj) (v : JsVal) : string :=
  toStringFuel (S (length h)) h [] v.

(** ** [JSON.stringify] *)

Definition dquote : string := String (ascii_of_nat 34) EmptyString.
Definition backslash : string := String (ascii_of_nat 92) EmptyString.

Definition hexDigit (n : nat) : string :=
  String (ascii_of_nat (if Nat.ltb n 10 then 48 + n else 87 + n)) EmptyString.

(** QuoteJSONString, one character at a time. *)
Definition quoteChar (c : ascii) : string :=
  let n := nat_of_ascii c in
  if Nat.eqb n 34 then backslash +:+ dquote
  else if Nat.eqb n 92 then backslash +:+ backslash
  else if Nat.eqb n 8 then backslash +:+ "b"
  else if Nat.eqb n 9 then backslash +:+ "t"
  else if Nat.eqb n 10 then backslash +:+ "n"
  else if Nat.eqb n 12 then backslash +:+ "f"
  else if Nat.eqb n 13 then backslash +:+ "r"
  else if Nat.ltb n 32
       then backslash +:+ "u00" +:+ hexDigit (n / 16) +:+ hexDigit (n mod 16)
  else String c EmptyString.

Definition quoteJSON (s : string) : string :=
  dquote +:+ joinWith "" (map quoteChar (list_ascii_of_string s)) +:+ dquote.

(** The elements of an array: [undefined] prints as [null]. *)
Fixpoint serializeElems (go : JsVal -> Outcome (option string))
    (es : list JsVal) : Outcome (list string) :=
  match es with
  | [] => Ok []
  | e :: es' =>
      match go e with
      | Throw m => Throw m
      | Ok o =>
          match serializeElems go es' with
          | Throw m => Throw m
          | Ok r => Ok (default "null" o :: r)
          end
      end
  end.

(** The members of an object: a getter may throw, an [undefined] value
    drops the member. *)
Fixpoint serializeMembers (go : JsVal -> Outcome (option string))
    (ps : list (string * Slot)) : Outcome (list string) :=
  match ps with
  | [] => Ok []
  | (_, Getter msg) :: _ => Throw msg
  | (k, Data v) :: ps' =>
      match go v with
      | Throw m => Throw m
      | Ok o =>
          match serializeMembers go ps' with
          | Throw m => Throw m
          | Ok r =>
              Ok (match o with
                  | Some s => (quoteJSON k +:+ ":" +:+ s) :: r
                  | None => r
                  end)
          end
      end
  end.

(** SerializeJSONProperty.  [seen] is the stack of objects being
    serialised; meeting one of them again is the circular-structure
    [TypeError].  The stack holds distinct locations, so a fuel above the
    size of the heap is never used up. *)
Fixpoint serialize (fuel : nat) (h : list Obj) (seen : list loc)
    (v : JsVal) : Outcome (option string) :=
  match v with
  | VUndef => Ok None
  | VNull => Ok (Some "null")
  | VBool true => Ok (Some "true")
  | VBool false => Ok (Some "false")
  | VNum n => Ok (Some (pretty n))
  | VStr s => Ok (Some (quoteJSON s))
  | VRef l =>
      if bool_decide (l ∈ seen)
      then Throw "Converting circular structure to JSON"
      else
        match fuel with
        | 0 => Throw "Converting circular structure to JSON"
        | S f =>
            match h !! l with
            | Some (OArr es) =>
                match serializeElems (serialize f h (l :: seen)) es with
                | Throw m => Throw m
                | Ok parts => Ok (Some ("[" +:+ joinWith "," parts +:+ "]"))
                end
            | Some (OObj ps) =>
                match serializeMembers (serialize f h (l :: seen)) ps with
                | Throw m => Throw m
                | Ok parts => Ok (Some ("{" +:+ joinWith "," parts +:+ "}"))
                end
            | None => Ok (Some "{}")
            end
        end
  end.

(** [JSON.stringify(v)]: a string, or [undefined] ([None]), or a throw. *)
Definition JSON_stringify (h : list Obj) (v : JsVal) : Outcome (option string) :=
  serialize (S (length h)) h [] v.

(** ** dm4-logger.js *)

Module Logger.

Definition info (env : Env) (message : string) : M unit :=
  emit (LoggerCall LInfo message) ;;;
  when (DM4_DEBUG env) (emit (Console LInfo ("[DREADMARCH INFO] " +:+ message))).

Definition warn (env : Env) (message : string) : M unit :=
  emit (LoggerCall LWarn message) ;;;
  when (DM4_DEBUG env) (emit (Console LWarn ("[DREADMARCH WARN] " +:+ message))).

Definition error (env : Env) (message : string) : M unit :=
  emit (LoggerCall LError message) ;;;
  emit (Console LError ("[DREADMARCH ERROR] " +:+ message)).

(** [critical(message, error, fallback)]: [fallback] is [None] when the
    third argument is not a function. *)
Definition critical (env : Env) (message : string)
    (fallback : option (M JsVal)) : M JsVal :=
  emit (LoggerCall LCritical message) ;;;
  emit (Console LCritical ("[DREADMARCH CRITICAL] " +:+ message)) ;;;
  match fallback with
  | Some fb =>
      tryCatch fb
        (fun _ =>
           emit (Console LCritical "[DREADMARCH CRITICAL] Fallback failed:") ;;;
           ret VNull)
  | None => ret VNull
  end.

Definition validate (env : Env) (condition : bool) (message : string) : M bool :=
  when (negb condition) (warn env ("Validation failed: " +:+ message)) ;;;
  ret condition.

End Logger.

(** [if (DM4.Logger) { ... }] *)
Definition whenLogger (env : Env) (m : M unit) : M unit :=
  when (hasLogger env) m.

(** ** dm4-dataset-core.js: synchronous normalisation *)

(** [(list).forEach(f)]: only an array has [forEach]; on anything else the
    lookup of [forEach] yields nothing callable. *)
Definition arrayForEach (list : JsVal) (f : JsVal -> M unit) : M unit :=
  h <- getHeap ;;
  match list with
  | VRef l =>
      match h !! l with
      | Some (OArr es) => forEachM f es
      | _ => _ <- getProp list "forEach" ;; throw "forEach is not a function"
      end
  | _ => _ <- getProp list "forEach" ;; throw "forEach is not a function"
  end.

(** Lines 112-120: the reverse lookup systemId -> sectorName. *)
Definition buildSectorBySystem (sectorsSrc : JsVal) : M JsVal :=
  sectorBySystem <- newObject [] ;;
  entries <- Object_entries sectorsSrc ;;
  forEachM
    (fun entry : string * JsVal =>
       let sectorName := fst entry in
       let systemList := snd entry in
       list <- orEmptyArray systemList ;;
       arrayForEach list
         (fun sysId =>
            h <- getHeap ;;
            setProp sectorBySystem (toPropertyKey h sysId) (VStr sectorName)))
    entries ;;;
  ret sectorBySystem.

(** [if (!x && table && table[id]) { x = table[id]; }] *)
Definition fillFrom (x : JsVal) (table : JsVal) (id : string) : M JsVal :=
  if negb (truthy x) && truthy table then
    t <- getProp table id ;;
    if truthy t then getProp table id else ret x
  else ret x.

(** [Array.isArray(coords) && coords.length >= 2] *)
Definition coordsWellFormed (h : list Obj) (coords : JsVal) : bool :=
  isArray h coords &&
  match lengthOf h coords with
  | VNum n => (2 <=? n)%Z
  | _ => false
  end.

(** Lines 130-159, right-hand side: the merged record of one system. *)
Definition mergedSystem (env : Env) (pixelsSrc gridSrc sectorBySystem : JsVal)
    (id : string) (sys : JsVal) : M JsVal :=
  let base := sys in
  coords0 <- getProp base "coords" ;;
  coords <- fillFrom coords0 pixelsSrc id ;;
  (if truthy coords && hasLogger env then
     h <- getHeap ;;
     _ <- Logger.validate env (coordsWellFormed h coords)
            ("System " +:+ id +:+ " has invalid coords format") ;;
     ret tt
   else ret tt) ;;;
  grid0 <- getProp base "grid" ;;
  grid <- fillFrom grid0 gridSrc id ;;
  sector0 <- getProp base "sector" ;;
  sector <- (if negb (truthy sector0) then
               s <- getProp sectorBySystem id ;;
               if truthy s then getProp sectorBySystem id else ret sector0
             else ret sector0) ;;
  target <- newObject [] ;;
  fields <- newObject [("coords", coords); ("grid", grid); ("sector", sector)] ;;
  Object_assign target base fields.

(** Lines 130-159: the body of the [try] block for one system. *)
Definition mergeSystem (env : Env) (pixelsSrc gridSrc sectorBySystem
    normalizedSystems : JsVal) (id : string) (sys : JsVal) : M unit :=
  merged <- mergedSystem env pixelsSrc gridSrc sectorBySystem id sys ;;
  setProp normalizedSystems id merged.

(** Lines 125-167: the callback of the loop over [systemsSrc]. *)
Definition normalizeSystem (env : Env) (pixelsSrc gridSrc sectorBySystem
    normalizedSystems errors : JsVal) (entry : string * JsVal) : M unit :=
  let id := fst entry in
  sys <- orEmptyObject (snd entry) ;;
  tryCatch
    (mergeSystem env pixelsSrc gridSrc sectorBySystem normalizedSystems id sys)
    (fun message =>
       record <- newObject [("systemId", VStr id); ("error", VStr message)] ;;
       push errors record ;;;
       whenLogger env
         (Logger.warn env ("Failed to normalize system " +:+ id +:+ ":"))).

(** Lines 107-167: the side tables, the reverse lookup and the loop.  The
    two locals that the rest of the function uses are returned:
    [normalizedSystems] and [errors]. *)
Definition normalizeSystems (env : Env) (raw : JsVal) : M (JsVal * JsVal) :=
  systems0 <- getProp raw "systems" ;;
  systemsSrc <- orEmptyObject systems0 ;;
  pixels0 <- getProp raw "system_pixels" ;;
  pixelsSrc <- (if truthy pixels0 then ret pixels0
                else pixels1 <- getProp raw "endpoint_pixels" ;;
                     orEmptyObject pixels1) ;;
  grid0 <- getProp raw "system_grid" ;;
  gridSrc <- orEmptyObject grid0 ;;
  sectors0 <- getProp raw "sectors" ;;
  sectorsSrc <- orEmptyObject sectors0 ;;
  sectorBySystem <- buildSectorBySystem sectorsSrc ;;
  normalizedSystems <- newObject [] ;;
  errors <- newArray [] ;;
  entries <- Object_entries systemsSrc ;;
  forEachM
    (normalizeSystem env pixelsSrc gridSrc sectorBySystem normalizedSystems errors)
    entries ;;;
  ret (normalizedSystems, errors).

Definition invalidInputMessage : string :=
  "normalizeDataset: empty or invalid raw dataset".

(** Lines 97-180. *)
Definition normalizeDatasetSync (env : Env) (raw : JsVal) : M JsVal :=
  if negb (truthy raw) || negb (typeofObject raw) then
    (if hasLogger env then Logger.warn env invalidInputMessage
     else when (DM4_DEBUG env)
            (emit (Console LWarn ("[DREADMARCH] " +:+ invalidInputMessage)))) ;;;
    systems <- newObject [] ;;
    newObject [("systems", systems)]
  else
    locals <- normalizeSystems env raw ;;
    let normalizedSystems := fst locals in
    let errors := snd locals in
    target <- newObject [] ;;
    fields <- newObject [("systems", normalizedSystems)] ;;
    result <- Object_assign target raw fields ;;
    h <- getHeap ;;
    (if truthy (lengthOf h errors) && hasLogger env then
       Logger.warn env "Normalization completed with errors" ;;;
       setProp result "_normalizationErrors" errors
     else ret tt) ;;;
    ret result.

(** ** dm4-dataset-core.js: cache and asynchronous entry *)

(** Lines 34-43.  [None] stands for both [undefined] (nothing to
    serialise) and [null] (serialisation threw). *)
Definition generateCacheKey (raw : JsVal) : M (option string) :=
  h <- getHeap ;;
  match JSON_stringify h raw with
  | Ok key => ret key
  | Throw _ => ret None
  end.

(** [cacheKey && ...]: a key counts when it is a non-empty string. *)
Definition usableKey (cacheKey : option string) : bool :=
  match cacheKey with
  | Some s => negb (String.eqb s "")
  | None => false
  end.

Definition cacheGet (key : string) : M (option JsVal) :=
  fun w => (Ok (assoc key (normalizationCache w)), w).

Definition cacheSet (key : string) (v : JsVal) : M unit :=
  fun w => (Ok tt, setCache (assocSet key v (normalizationCache w)) w).

(** [if (cacheKey && normalizationCache.has(cacheKey))] *)
Definition cacheLookup (cacheKey : option string) : M (option JsVal) :=
  match cacheKey with
  | Some key => if usableKey cacheKey then cacheGet key else ret None
  | None => ret None
  end.

(** [if (cacheKey) { normalizationCache.set(cacheKey, result); }] *)
Definition cacheStore (cacheKey : option string) (result : JsVal) : M unit :=
  match cacheKey with
  | Some key => when (usableKey cacheKey) (cacheSet key result)
  | None => ret tt
  end.

(** Lines 48-92.  The worker itself is a collaborator outside this file:
    the module variable records whether one is installed. *)
Definition initWorker (env : Env) : M unit :=
  fun w =>
    if worker w then (Ok tt, w)
    else
      match workerSupport env with
      | WorkerUndefined => (Ok tt, w)
      | WorkerAvailable => (Ok tt, setWorker true w)
      | WorkerThrows _ =>
          (whenLogger env (Logger.warn env "Failed to initialize worker:") ;;;
           (fun w' => (Ok tt, setWorker false w'))) w
      end.

(** How a promise stands when the call that created it returns. *)
Inductive Promise : Type :=
| Resolved (v : JsVal)
| Rejected (msg : string)
| PendingOn (requestId : nat).

(** [try { resolve(m) } catch (e) { reject(e) }] *)
Definition settle (m : M JsVal) : M Promise :=
  fun w => match m w with
           | (Ok v, w') => (Ok (Resolved v), w')
           | (Throw e, w') => (Ok (Rejected e), w')
           end.

(** Lines 207-215 and 240-248: the synchronous fallback inside a promise. *)
Definition syncFallback (env : Env) (raw : JsVal) (cacheKey : option string)
  : M Promise :=
  settle (result <- normalizeDatasetSync env raw ;;
          cacheStore cacheKey result ;;;
          ret result).

Definition WORKER_TIMEOUT_MS : nat := 5000.

(** Lines 185-252. *)
Definition normalizeDatasetAsync (env : Env) (raw : JsVal) : M Promise :=
  cacheKey <- generateCacheKey raw ;;
  cached <- cacheLookup cacheKey ;;
  match cached with
  | Some result =>
      whenLogger env (Logger.info env "Cache hit for dataset normalization") ;;;
      ret (Resolved result)
  | None =>
      (fun w => (if worker w then ret tt else initWorker env) w) ;;;
      fun w =>
        if worker w then
          let requestId := S (workerRequestId w) in
          (Ok (PendingOn requestId),
           addOutbox {| postedId := requestId; postedPayload := raw |}
             (requestId, WORKER_TIMEOUT_MS)
             (setPending requestId
                (pendingRequests w
                 ++ [(requestId, {| pendingCacheKey := cacheKey |})]) w))
        else
          (whenLogger env
             (Logger.info env
                "Worker not available, using synchronous normalization") ;;;
           syncFallback env raw cacheKey) w
  end.

(** What a call of [DM4.dataset.normalize] hands back: the dataset, or a
    promise of it. *)
Inductive Returned : Type :=
| Dataset (v : JsVal)
| Promised (p : Promise).

(** Lines 261-282; [async] is [options.async]. *)
Definition normalizeDataset (env : Env) (raw : JsVal) (async : bool) : M Returned :=
  if async then
    p <- normalizeDatasetAsync env raw ;; ret (Promised p)
  else
    cacheKey <- generateCacheKey raw ;;
    cached <- cacheLookup cacheKey ;;
    match cached with
    | Some result =>
        whenLogger env (Logger.info env "Cache hit for dataset normalization") ;;;
        ret (Dataset result)
    | None =>
        result <- normalizeDatasetSync env raw ;;
        cacheStore cacheKey result ;;;
        ret (Dataset result)
    end.

(** Lines 287-292. *)
Definition clearCache (env : Env) : M unit :=
  (fun w => (Ok tt, setCache [] w)) ;;;
  whenLogger env (Logger.info env "Normalization cache cleared").

(** Lines 297-302: the size and the keys in insertion order. *)
Definition getCacheStats : M (nat * list string) :=
  fun w => (Ok (length (normalizationCache w), keys (normalizationCache w)), w).

Fixpoint pendingGet (id : nat) (l : list (nat * Pending)) : option Pending :=
  match l with
  | [] => None
  | (i, p) :: l' => if Nat.eqb id i then Some p else pendingGet id l'
  end.

Definition pendingDelete (id : nat) (l : list (nat * Pending))
  : list (nat * Pending) :=
  List.filter (fun p => negb (Nat.eqb (fst p) id)) l.

(** Lines 56-73: the listener for the worker's replies.  [reply] is
    [inl payload] for [type === 'SUCCESS'] and [inr error] otherwise; the
    result names the promise that gets settled, if the id is still
    pending. *)
Definition onWorkerMessage (id : nat) (reply : JsVal + string)
  : M (option (nat * Promise)) :=
  fun w =>
    match pendingGet id (pendingRequests w) with
    | Some request =>
        let w1 := setPending (workerRequestId w)
                    (pendingDelete id (pendingRequests w)) w in
        match reply with
        | inl payload =>
            (Ok (Some (id, Resolved payload)),
             snd (cacheStore (pendingCacheKey request) payload w1))
        | inr error => (Ok (Some (id, Rejected error)), w1)
        end
    | None => (Ok None, w)
    end.

(** Lines 75-85: a fault of the worker rejects every pending request and
    discards the worker. *)
Definition onWorkerError (env : Env) (message : string)
  : M (list (nat * Promise)) :=
  whenLogger env (Logger.error env "Worker error:") ;;;
  fun w =>
    (Ok (map (fun p => (fst p, Rejected message)) (pendingRequests w)),
     setWorker false (setPending (workerRequestId w) [] w)).

(** Lines 234-250: the callback of the timer of one request. *)
Definition onTimeout (env : Env) (requestId : nat) (raw : JsVal)
    (cacheKey : option string) : M (option (nat * Promise)) :=
  fun w =>
    match pendingGet requestId (pendingRequests w) with
    | Some _ =>
        (whenLogger env
           (Logger.warn env "Worker timeout, falling back to sync normalization") ;;;
         p <- syncFallback env raw cacheKey ;;
         ret (Some (requestId, p)))
          (setPending (workerRequestId w)
             (pendingDelete requestId (pendingRequests w)) w)
    | None => (Ok None, w)
    end.

(** ** src/core/dm4-dataset-core.js: the normaliser without cache *)

Module Core.

(** Modelled from the spec: [src/core/dm4-logger.js], the logger that this
    file is loaded with, is not part of the sources at hand.  Its
    [critical(message, fallbackFn)] reports the message and returns what
    the fallback returns; a failure inside the fallback is swallowed. *)
Definition Logger_critical (env : Env) (message : string)
    (fallbackFn : M JsVal) : M JsVal :=
  Logger.critical env message (Some fallbackFn).

(** Lines 135-160, right-hand side: the merged record of one system. *)
Definition mergedSystem (pixelsSrc gridSrc sectorBySystem : JsVal)
    (id : string) (sys : JsVal) : M JsVal :=
  let base := sys in
  coords0 <- getProp base "coords" ;;
  coords <- fillFrom coords0 pixelsSrc id ;;
  grid0 <- getProp base "grid" ;;
  grid <- fillFrom grid0 gridSrc id ;;
  sector0 <- getProp base "sector" ;;
  sector <- (if negb (truthy sector0) then
               s <- getProp sectorBySystem id ;;
               if truthy s then getProp sectorBySystem id else ret sector0
             else ret sector0) ;;
  target <- newObject [] ;;
  fields <- newObject [("coords", coords); ("grid", grid); ("sector", sector)] ;;
  Object_assign target base fields.

(** Lines 132-161: the callback of the loop over [systemsSrc]. *)
Definition normalizeSystem (pixelsSrc gridSrc sectorBySystem
    normalizedSystems : JsVal) (entry : string * JsVal) : M unit :=
  let id := fst entry in
  sys <- orEmptyObject (snd entry) ;;
  merged <- mergedSystem pixelsSrc gridSrc sectorBySystem id sys ;;
  setProp normalizedSystems id merged.

(** Lines 82-172. *)
Definition normalizeDataset (env : Env) (raw : JsVal) : M JsVal :=
  if negb (truthy raw) || negb (typeofObject raw) then
    Logger_critical env invalidInputMessage
      (systems <- newObject [] ;; newObject [("systems", systems)])
  else
    systems0 <- getProp raw "systems" ;;
    systemsSrc <- orEmptyObject systems0 ;;
    pixels0 <- getProp raw "system_pixels" ;;
    pixelsSrc <- (if truthy pixels0 then ret pixels0
                  else pixels1 <- getProp raw "endpoint_pixels" ;;
                       orEmptyObject pixels1) ;;
    grid0 <- getProp raw "system_grid" ;;
    gridSrc <- orEmptyObject grid0 ;;
    sectors0 <- getProp raw "sectors" ;;
    sectorsSrc <- orEmptyObject sectors0 ;;
    sectorBySystem <- buildSectorBySystem sectorsSrc ;;
    normalizedSystems <- newObject [] ;;
    entries <- Object_entries systemsSrc ;;
    forEachM
      (normalizeSystem pixelsSrc gridSrc sectorBySystem normalizedSystems)
      entries ;;;
    target <- newObject [] ;;
    fields <- newObject [("systems", normalizedSystems)] ;;
    Object_assign target raw fields.

End Core.

(** ** Object literals

    Datasets written down as literals, for the examples: [build] allocates
    a literal on a heap, [reify] reads a value back. *)

#[local] Set Warnings "-register-all".

Inductive Tree : Type :=
| TUndef
| TNull
| TBool (b : bool)
| TNum (n : Z)
| TStr (s : string)
| TArr (elems : list Tree)
| TObj (members : list (string * Tree))
| TGetter (msg : string).   (* as a member: [get k() { throw new Error(msg) }] *)

Fixpoint build (t : Tree) (h : list Obj) : JsVal * list Obj :=
  match t with
  | TUndef | TGetter _ => (VUndef, h)
  | TNull => (VNull, h)
  | TBool b => (VBool b, h)
  | TNum n => (VNum n, h)
  | TStr s => (VStr s, h)
  | TArr ts =>
      let r := (fix go (ts : list Tree) (h : list Obj) : list JsVal * list Obj :=
                  match ts with
                  | [] => ([], h)
                  | t :: ts' =>
                      let r1 := build t h in
                      let r2 := go ts' (snd r1) in
                      (fst r1 :: fst r2, snd r2)
                  end) ts h in
      (VRef (length (snd r)), snd r ++ [OArr (fst r)])
  | TObj ms =>
      let r := (fix go (ms : list (string * Tree)) (h : list Obj)
                  : list (string * Slot) * list Obj :=
                  match ms with
                  | [] => ([], h)
                  | (k, TGetter msg) :: ms' =>
                      let r2 := go ms' h in
                      ((k, Getter msg) :: fst r2, snd r2)
                  | (k, t) :: ms' =>
                      let r1 := build t h in
                      let r2 := go ms' (snd r1) in
                      ((k, Data (fst r1)) :: fst r2, snd r2)
                  end) ms h in
      (VRef (length (snd r)), snd r ++ [OObj (fst r)])
  end.



Definition quietEnv : Env :=
  {| hasLogger := false; DM4_DEBUG := false; workerSupport := WorkerUndefined |}.

Definition pageEnv : Env :=
  {| hasLogger := true; DM4_DEBUG := false; workerSupport := WorkerUndefined |}.

Definition solDataset : Tree :=
  TObj [("systems", TObj [("sol", TObj [("name", TStr "Sol")])]);
        ("system_pixels", TObj [("sol", TArr [TNum 100; TNum 200])]);
        ("sectors", TObj [("core", TArr [TStr "sol"])])].

(** ** Well-formed heaps

    References point into the heap and the keys of an object are
    distinct. *)

Definition closedVal (n : nat) (v : JsVal) : bool :=
  match v with
  | VRef l => Nat.ltb l n
  | _ => true
  end.

Definition closedSlot (n : nat) (s : Slot) : bool :=
  match s with
  | Data v => closedVal n v
  | Getter _ => true
  end.

Fixpoint distinct (l : list string) : bool :=
  match l with
  | [] => true
  | k :: l' => negb (existsb (String.eqb k) l') && distinct l'
  end.

Definition wfObj (n : nat) (o : Obj) : bool :=
  match o with
  | OObj ps => forallb (fun kv => closedSlot n (snd kv)) ps && distinct (keys ps)
  | OArr es => forallb (closedVal n) es
  end.

Definition wfHeap (h : list Obj) : bool := forallb (wfObj (length h)) h.

(** ** What a computation leaves untouched *)

Definition sameModule (w w' : World) : Prop :=
  normalizationCache w' = normalizationCache w /\
  worker w' = worker w /\
  workerRequestId w' = workerRequestId w /\
  pendingRequests w' = pendingRequests w /\
  outbox w' = outbox w /\
  timers w' = timers w.

(** From [w] to [w'] the heap only grew, the module variables are the
    same, and every location below [n] outside [P] holds what it held. *)
Definition keeps (n : nat) (P : loc -> Prop) (w w' : World) : Prop :=
  length (heap w) <= length (heap w') /\
  sameModule w w' /\
  forall l, l < n -> ~ P l -> heap w' !! l = heap w !! l.

Definition nowhere : loc -> Prop := fun _ => False.
Definition only (v : JsVal) : loc -> Prop := fun l => v = VRef l.
Definition either (P Q : loc -> Prop) : loc -> Prop := fun l => P l \/ Q l.

(** ** The merge of one system, read off the heap *)

(** The rule by which [coords], [grid] and [sector] are chosen: the own
    value when it is truthy, else the side table's value when that is
    truthy, else the own value as it is. *)
Definition resolve (own side : JsVal) : JsVal :=
  if truthy own then own else if truthy side then side else own.

(** [table && table[id]] *)
Definition sideValue (h : list Obj) (table : JsVal) (id : string) : Outcome JsVal :=
  if truthy table then readProp h table id else Ok VUndef.

(** Successive assignments [acc[k] = v]. *)
Definition setAll (entries : list (string * JsVal)) (acc : list (string * Slot))
  : list (string * Slot) :=
  fold_left (fun a kv => assocSet (fst kv) (Data (snd kv)) a) entries acc.

(** No accessor among the own properties. *)
Definition noGetter (ps : list (string * Slot)) : Prop :=
  forall k msg, assoc k ps <> Some (Getter msg).

Definition mergedProps (base : list (string * JsVal)) (coords grid sector : JsVal)
  : list (string * Slot) :=
  setAll [("coords", coords); ("grid", grid); ("sector", sector)] (setAll base []).

(** [raw.systems || {}], as the entries that the loop runs over. *)
Definition rawSystems (h : list Obj) (raw : JsVal) : list (string * JsVal) :=
  match readProp h raw "systems" with
  | Ok v =>
      if truthy v
      then match readEntries h v with Ok es => es | Throw _ => [] end
      else []
  | Throw _ => []
  end.

(** What the call on an invalid input tells the diagnostics. *)
Definition invalidInputDiagnostics (env : Env) : list Event :=
  if hasLogger env then
    LoggerCall LWarn invalidInputMessage ::
    (if DM4_DEBUG env
     then [Console LWarn ("[DREADMARCH WARN] " +:+ invalidInputMessage)]
     else [])
  else if DM4_DEBUG env
       then [Console LWarn ("[DREADMARCH] " +:+ invalidInputMessage)]
       else [].

(** The errors are attached when there are some and a Logger is there. *)
Definition withErrors (env : Env) (errs : list JsVal) (er : JsVal)
    (props : list (string * Slot)) : list (string * Slot) :=
  if negb (Nat.eqb (length errs) 0) && hasLogger env
  then assocSet "_normalizationErrors" (Data er) props
  else props.


(** The ids under [v.systems]. *)
Definition systemsKeys (h : list Obj) (v : JsVal) : list string :=
  match readProp h v "systems" with
  | Ok s => keys (ownSlots h s)
  | Throw _ => []
  end.

(** The value of a call that returned. *)
Definition returned (o : Outcome JsVal) : JsVal :=
  match o with
  | Ok v => v
  | Throw _ => VUndef
  end.


Definition coreEnv : Env :=
  {| hasLogger := false; DM4_DEBUG := false; workerSupport := WorkerUndefined |}.

(** The result [res] and what it holds were allocated after the heap had
    the size [n]: the result itself, its [systems] object, and the record
    of every system in it. *)
Definition allocatedSince (n : nat) (h' : list Obj) (res : JsVal) : Prop :=
  exists t nsl props,
    res = VRef t /\ n <= t /\
    readProp h' res "systems" = Ok (VRef nsl) /\ n <= nsl /\
    h' !! nsl = Some (OObj props) /\
    forall id slot, In (id, slot) props ->
                    exists t', slot = Data (VRef t') /\ n <= t'.

(** The elements that [(systemList || []).forEach] visits. *)
Definition listElements (h : list Obj) (systemList : JsVal) : list JsVal :=
  match systemList with
  | VRef l => match h !! l with Some (OArr es) => es | _ => [] end
  | _ => []
  end.


(** The heap [h] holds the heap [h0] unchanged, and more. *)
Definition extends (h0 h : list Obj) : Prop :=
  length h0 <= length h /\ forall l, l < length h0 -> h !! l = h0 !! l.


(** Two states of the module that differ in the diagnostics only. *)
Definition sameButTrace (w1 w2 : World) : Prop :=
  heap w1 = heap w2 /\
  normalizationCache w1 = normalizationCache w2 /\
  worker w1 = worker w2 /\
  workerRequestId w1 = workerRequestId w2 /\
  pendingRequests w1 = pendingRequests w2 /\
  outbox w1 = outbox w2 /\
  timers w1 = timers w2.

(** A computation whose result and whose effects, the diagnostics apart,
    do not depend on the diagnostics issued so far. *)
Definition traceBlind {A} (m : M A) : Prop :=
  forall w1 w2, sameButTrace w1 w2 ->
                fst (m w1) = fst (m w2) /\ sameButTrace (snd (m w1)) (snd (m w2)).

(** What a call handed back, for stating examples. *)
Definition datasetOf (o : Outcome Returned) : JsVal :=
  match o with
  | Ok (Dataset v) => v
  | _ => VUndef
  end.

Definition keyOf (o : Outcome (option string)) : string :=
  match o with
  | Ok (Some s) => s
  | _ => EmptyString
  end.

Inductive PixelTag : Type :=
| TagSystemPixels
| TagEndpointPixels
| TagNone.

Record Fingerprint : Type := {
  fpCount : nat;
  fpSampled : list string;
  fpTag : PixelTag
}.

Definition SPEC_SIZE_THRESHOLD : nat := 100.
Definition SPEC_SAMPLED_IDS : nat := 10.

(** Which pixel-source field is populated. *)
Definition spec_pixelTag (h : list Obj) (raw : JsVal) : PixelTag :=
  if truthy (returned (readProp h raw "system_pixels")) then TagSystemPixels
  else if truthy (returned (readProp h raw "endpoint_pixels")) then TagEndpointPixels
  else TagNone.

(** The count, the first ids in iteration order, and the tag. *)
Definition spec_fingerprint (h : list Obj) (raw : JsVal) : Fingerprint :=
  {| fpCount := length (systemsKeys h raw);
     fpSampled := take SPEC_SAMPLED_IDS (systemsKeys h raw);
     fpTag := spec_pixelTag h raw |}.

Inductive SpecKey : Type :=
| FullContent (text : string)
| Structural (fp : Fingerprint).

Definition spec_cacheKey (h : list Obj) (raw : JsVal) : option SpecKey :=
  if Nat.ltb (length (systemsKeys h raw)) SPEC_SIZE_THRESHOLD
  then match JSON_stringify h raw with
       | Ok (Some text) => Some (FullContent text)
       | _ => None
       end
  else Some (Structural (spec_fingerprint h raw)).

(** A dataset of [n] systems [system-0] ... ; the last one is named [last]. *)
Definition manySystems (n : nat) (last : string) : Tree :=
  TObj [("systems",
         TObj (map (fun i : nat =>
                      ("system-" +:+ pretty i,
                       TObj [("name",
                              TStr (if Nat.eqb (S i) n then last
                                    else "System " +:+ pretty i))]))
                   (seq 0 n)))].

(** What a call does once its key is known: the entry under the key if
    there is one, else the normalisation, stored under the key. *)
Definition servedUnder (env : Env) (raw : JsVal) (cacheKey : option string)
  : M Returned :=
  match cacheKey with
  | Some key =>
      fun w =>
        match assoc key (normalizationCache w) with
        | Some result =>
            (whenLogger env (Logger.info env "Cache hit for dataset normalization") ;;;
             ret (Dataset result)) w
        | None =>
            (result <- normalizeDatasetSync env raw ;;
             cacheSet key result ;;;
             ret (Dataset result)) w
        end
  | None =>
      result <- normalizeDatasetSync env raw ;;
      ret (Dataset result)
  end.

(** A turn of the loop ends in one of two ways: the merged record was
    stored at [t], or the merge threw [message], noted in the record at
    [record]. *)
Inductive Fate : Type :=
| Merged (t : loc)
| Failed (message : string) (record : loc).

(** [{ systemId: id, error: err.message }] *)
Definition errorRecord (id message : string) : Obj :=
  OObj [("systemId", Data (VStr id)); ("error", Data (VStr message))].



(** Each record names its system and the message. *)
Fixpoint recordsHold (h : list Obj) (ids : list string) (fates : list Fate) : Prop :=
  match ids, fates with
  | id :: ids', Failed message record :: fates' =>
      h !! record = Some (errorRecord id message) /\ recordsHold h ids' fates'
  | _ :: ids', Merged _ :: fates' => recordsHold h ids' fates'
  | _, _ => True
  end.







(** [Object.entries(raw.sectors || {})] *)
Definition sectorEntries (h : list Obj) (raw : JsVal) : list (string * JsVal) :=
  let sectors0 := returned (readProp h raw "sectors") in
  if truthy sectors0
  then match readEntries h sectors0 with Ok es => es | Throw _ => [] end
  else [].







(** No accessor among the own properties. *)
Definition dataOnly (ps : list (string * Slot)) : bool :=
  forallb (fun kv => match snd kv with Data _ => true | Getter _ => false end) ps.

(** What [(systemList || []).forEach] accepts. *)
Definition arrayOrFalsy (h : list Obj) (v : JsVal) : bool :=
  negb (truthy v) || isArray h v.


(** A sector whose list is a string. *)
Definition stringSectorDataset : Tree :=
  TObj [("systems", TObj [("sol", TObj [("name", TStr "Sol")])]);
        ("sectors", TObj [("core", TStr "sol")])].

(** The object or array at [l] has itself among its members. *)
Definition containsSelf (h : list Obj) (l : loc) : bool :=
  match h !! l with
  | Some (OObj ps) =>
      existsb (fun kv => bool_decide (snd kv = Data (VRef l))) ps
  | Some (OArr es) => existsb (fun e => bool_decide (e = VRef l)) es
  | None => false
  end.

(** [dataset.self = dataset] *)
Definition selfDataset : list Obj :=
  [OObj [("name", Data (VStr "Sol"))];
   OObj [("sol", Data (VRef 0))];
   OObj [("systems", Data (VRef 1)); ("self", Data (VRef 2))]].

(** What a call changes in the variables of the module besides the cache. *)
Definition sameRequests (w w' : World) : Prop :=
  worker w' = worker w /\
  workerRequestId w' = workerRequestId w /\
  pendingRequests w' = pendingRequests w /\
  outbox w' = outbox w /\
  timers w' = timers w.

(** The cache is as it was, or has one entry more under a key that was
    not there. *)
Definition cacheGrew (w w' : World) : Prop :=
  normalizationCache w' = normalizationCache w \/
  exists key res,
    key <> "" /\ assoc key (normalizationCache w) = None /\
    normalizationCache w' = assocSet key res (normalizationCache w).

(** What can happen to the module: a call of its interface, or one of the
    callbacks that it registers.  The callbacks are taken with any
    argument: the worker may reply anything, and a timer may be the timer
    of any request. *)
Inductive Action : Type :=
| Normalize (raw : JsVal) (async : bool)
| ClearCache
| GetCacheStats
| WorkerMessage (id : nat) (reply : JsVal + string)
| WorkerError (message : string)
| Timeout (requestId : nat) (raw : JsVal) (cacheKey : option string).

Definition perform (env : Env) (a : Action) (w : World) : World :=
  match a with
  | Normalize raw async => snd (normalizeDataset env raw async w)
  | ClearCache => snd (clearCache env w)
  | GetCacheStats => snd (getCacheStats w)
  | WorkerMessage id reply => snd (onWorkerMessage id reply w)
  | WorkerError message => snd (onWorkerError env message w)
  | Timeout requestId raw cacheKey => snd (onTimeout env requestId raw cacheKey w)
  end.

Definition run (env : Env) (actions : list Action) (w : World) : World :=
  fold_left (fun w a => perform env a w) actions w.

(** What holds of the module's variables in every state it can reach. *)
Definition moduleInvariant (w : World) : Prop :=
  NoDup (keys (normalizationCache w)) /\
  (forall k, k ∈ keys (normalizationCache w) -> k <> "") /\
  NoDup (map fst (pendingRequests w)) /\
  (forall id, id ∈ map fst (pendingRequests w) ->
     1 <= id <= workerRequestId w /\
     In (id, WORKER_TIMEOUT_MS) (timers w) /\
     exists m, In m (outbox w) /\ postedId m = id) /\
  (worker w = false -> pendingRequests w = []).

(** The request [id] was issued and is no longer waiting. *)
Definition settled (id : nat) (w : World) : Prop :=
  id <= workerRequestId w /\ pendingGet id (pendingRequests w) = None.

(** The actions that settle the request [id]. *)
Definition settles (a : Action) (id : nat) : bool :=
  match a with
  | WorkerMessage i _ => Nat.eqb i id
  | Timeout i _ _ => Nat.eqb i id
  | WorkerError _ => true
  | _ => false
  end.

(** The cache is as it was, or one key was set. *)
Definition cacheStored (w w' : World) : Prop :=
  normalizationCache w' = normalizationCache w \/
  exists key res,
    key <> "" /\ normalizationCache w' = assocSet key res (normalizationCache w).

(** A page with a Logger and with workers. *)
Definition workerEnv : Env :=
  {| hasLogger := true; DM4_DEBUG := false; workerSupport := WorkerAvailable |}.

(** Two computations that, started on equal heaps, return the same and
    leave equal heaps. *)
Definition agree {A} (m1 m2 : M A) : Prop :=
  forall w1 w2, heap w1 = heap w2 ->
    fst (m1 w1) = fst (m2 w2) /\ heap (snd (m1 w1)) = heap (snd (m2 w2)).

(** A computation that returns and leaves the heap alone. *)
Definition quiet {A} (m : M A) : Prop :=
  forall w, heap (snd (m w)) = heap w /\ exists a, fst (m w) = Ok a.

(** How a promise is settled with the outcome of a computation. *)
Definition settledWith (o : Outcome JsVal) : Promise :=
  match o with
  | Ok v => Resolved v
  | Throw e => Rejected e
  end.


(** The diagnostics that the dataset module may issue on a page: a call of
    the logger where there is one, a line on the console where the debug
    flag is set. *)
Definition allowed (env : Env) (e : Event) : bool :=
  match e with
  | LoggerCall _ _ => hasLogger env
  | Console _ _ => DM4_DEBUG env
  end.

(** A computation that only appends diagnostics, all of them allowed. *)
Definition logsOnly (env : Env) {A} (m : M A) : Prop :=
  forall w, exists evs,
    trace (snd (m w)) = trace w ++ evs /\ forallb (allowed env) evs = true.


(** * Properties *)

(** ** Association lists *)

Lemma assoc_assocSet_eq {A} k (a : A) l : assoc k (assocSet k a l) = Some a.
Proof.
  induction l as [|[k' a'] l IH]; simpl.
  - by rewrite String.eqb_refl.
  - destruct (String.eqb k k') eqn:E; simpl; rewrite ?String.eqb_refl, ?E; done.
Qed.

Lemma assoc_assocSet_ne {A} k k' (a : A) l :
  k <> k' -> assoc k' (assocSet k a l) = assoc k' l.
Proof.
  intros Hne. induction l as [|[k0 a0] l IH]; simpl.
  - destruct (String.eqb k' k) eqn:E; [apply String.eqb_eq in E; congruence|done].
  - destruct (String.eqb k k0) eqn:E; simpl.
    + apply String.eqb_eq in E. subst k0.
      destruct (String.eqb k' k) eqn:E'; [apply String.eqb_eq in E'; congruence|done].
    + by rewrite IH.
Qed.



Lemma keys_assocSet {A} k (a : A) l k' :
  k' ∈ keys (assocSet k a l) <-> k' = k \/ k' ∈ keys l.
Proof.
  induction l as [|[k0 a0] l IH]; simpl.
  - rewrite list_elem_of_singleton. split; [auto|]. intros [?|H]; [done|inversion H].
  - destruct (String.eqb k k0) eqn:E; simpl.
    + apply String.eqb_eq in E. subst k0. rewrite !elem_of_cons. tauto.
    + rewrite !elem_of_cons, IH. tauto.
Qed.

(** ** Frames *)

Lemma heap_setHeap h w : heap (setHeap h w) = h.
Proof. reflexivity. Qed.

Lemma heap_addEvent e w : heap (addEvent e w) = heap w.
Proof. reflexivity. Qed.

Lemma sameModule_refl w : sameModule w w.
Proof. by repeat split. Qed.

Lemma sameModule_trans w1 w2 w3 :
  sameModule w1 w2 -> sameModule w2 w3 -> sameModule w1 w3.
Proof. unfold sameModule. intuition congruence. Qed.

Lemma keeps_refl n P w : keeps n P w w.
Proof. split; [done|]. split; [apply sameModule_refl|done]. Qed.

Lemma keeps_trans n P w1 w2 w3 :
  keeps n P w1 w2 -> keeps n P w2 w3 -> keeps n P w1 w3.
Proof.
  intros (L1 & S1 & F1) (L2 & S2 & F2). split; [lia|].
  split; [by eapply sameModule_trans|].
  intros l Hl HP. rewrite F2, F1; auto.
Qed.

Lemma keeps_weaken n m (P Q : loc -> Prop) w w' :
  m <= n -> (forall l, l < m -> P l -> Q l) -> keeps n P w w' -> keeps m Q w w'.
Proof.
  intros Hm HPQ (L & S & F). split; [done|]. split; [done|].
  intros l Hl HQ. apply F; [lia|]. intros HP. apply HQ. auto.
Qed.

Lemma bind_keeps {A B} n P (m : M A) (f : A -> M B) w :
  keeps n P w (snd (m w)) ->
  (forall a w1, m w = (Ok a, w1) -> length (heap w) <= length (heap w1) ->
                keeps n P w1 (snd (f a w1))) ->
  keeps n P w (snd (bind m f w)).
Proof.
  unfold bind. intros H1 H2. destruct (m w) as [[a|e] w1] eqn:E; simpl in *; [|done].
  eapply keeps_trans; [exact H1|]. apply H2; [done|]. apply H1.
Qed.

Lemma tryCatch_keeps {A} n P (m : M A) (h : string -> M A) w :
  keeps n P w (snd (m w)) ->
  (forall e w1, m w = (Throw e, w1) -> length (heap w) <= length (heap w1) ->
                keeps n P w1 (snd (h e w1))) ->
  keeps n P w (snd (tryCatch m h w)).
Proof.
  unfold tryCatch. intros H1 H2. destruct (m w) as [[a|e] w1] eqn:E; simpl in *; [done|].
  eapply keeps_trans; [exact H1|]. apply H2; [done|]. apply H1.
Qed.

Lemma alloc_keeps n P o w :
  n <= length (heap w) -> keeps n P w (snd (alloc o w)).
Proof.
  intros Hn. unfold alloc, keeps, snd. rewrite heap_setHeap.
  split; [rewrite length_app; simpl; lia|].
  split; [by repeat split|].
  intros l Hl _. apply lookup_app_l. lia.
Qed.

Lemma newObject_keeps n P ps w :
  n <= length (heap w) -> keeps n P w (snd (newObject ps w)).
Proof. intros Hn. apply (alloc_keeps n P _ w Hn). Qed.

Lemma newArray_keeps n P es w :
  n <= length (heap w) -> keeps n P w (snd (newArray es w)).
Proof. intros Hn. apply (alloc_keeps n P _ w Hn). Qed.

Lemma emit_keeps n P e w : keeps n P w (snd (emit e w)).
Proof. split; [done|]. split; [by repeat split|done]. Qed.

Lemma setProp_keeps n (P : loc -> Prop) target k v w :
  (forall l, target = VRef l -> l < n -> P l) ->
  keeps n P w (snd (setProp target k v w)).
Proof.
  intros HP. unfold setProp.
  destruct target as [| | | | |l]; try apply keeps_refl.
  destruct (heap w !! l) as [[ps|es]|] eqn:E; try apply keeps_refl.
  destruct (assoc k ps) as [[x|msg]|]; try apply keeps_refl.
  all: unfold keeps, snd; rewrite heap_setHeap;
    (split; [by rewrite length_insert|]);
    (split; [by repeat split|]);
    intros l' Hl' HnP; apply list_lookup_insert_ne;
    intros ->; apply HnP; auto.
Qed.

Lemma push_keeps n (P : loc -> Prop) arr v w :
  (forall l, arr = VRef l -> l < n -> P l) ->
  keeps n P w (snd (push arr v w)).
Proof.
  intros HP. unfold push.
  destruct arr as [| | | | |l]; try apply keeps_refl.
  destruct (heap w !! l) as [[ps|es]|] eqn:E; try apply keeps_refl.
  unfold keeps, snd; rewrite heap_setHeap.
  split; [by rewrite length_insert|].
  split; [by repeat split|].
  intros l' Hl' HnP; apply list_lookup_insert_ne.
  intros ->; apply HnP; auto.
Qed.

Lemma forEachM_keeps {A} n P (f : A -> M unit) (l : list A) :
  (forall x w, n <= length (heap w) -> keeps n P w (snd (f x w))) ->
  forall w, n <= length (heap w) -> keeps n P w (snd (forEachM f l w)).
Proof.
  intros Hf. induction l as [|x l IH]; intros w Hn; simpl.
  - apply keeps_refl.
  - apply bind_keeps; [by apply Hf|]. intros _ w1 _ Hl. apply IH. lia.
Qed.

Lemma newObject_inv ps w a w1 :
  newObject ps w = (Ok a, w1) ->
  a = VRef (length (heap w)) /\
  w1 = setHeap (heap w ++ [OObj (map (fun kv => (fst kv, Data (snd kv))) ps)]) w.
Proof. intros H. by injection H as <- <-. Qed.

Lemma newArray_inv es w a w1 :
  newArray es w = (Ok a, w1) ->
  a = VRef (length (heap w)) /\ w1 = setHeap (heap w ++ [OArr es]) w.
Proof. intros H. by injection H as <- <-. Qed.

Lemma orEmptyObject_inv v w a w1 :
  orEmptyObject v w = (Ok a, w1) ->
  (truthy v = true /\ a = v /\ w1 = w) \/
  (truthy v = false /\ a = VRef (length (heap w)) /\
   w1 = setHeap (heap w ++ [OObj []]) w).
Proof.
  unfold orEmptyObject. destruct (truthy v); intros H.
  - left. by injection H as <- <-.
  - right. by injection H as <- <-.
Qed.

Lemma orEmptyArray_inv v w a w1 :
  orEmptyArray v w = (Ok a, w1) ->
  (truthy v = true /\ a = v /\ w1 = w) \/
  (truthy v = false /\ a = VRef (length (heap w)) /\
   w1 = setHeap (heap w ++ [OArr []]) w).
Proof.
  unfold orEmptyArray. destruct (truthy v); intros H.
  - left. by injection H as <- <-.
  - right. by injection H as <- <-.
Qed.

Lemma orEmptyObject_keeps n P v w :
  n <= length (heap w) -> keeps n P w (snd (orEmptyObject v w)).
Proof.
  intros Hn. unfold orEmptyObject. destruct (truthy v);
    [apply keeps_refl | by apply newObject_keeps].
Qed.

Lemma orEmptyArray_keeps n P v w :
  n <= length (heap w) -> keeps n P w (snd (orEmptyArray v w)).
Proof.
  intros Hn. unfold orEmptyArray. destruct (truthy v);
    [apply keeps_refl | by apply newArray_keeps].
Qed.

(** A location allocated after the frame was fixed is not constrained by
    it. *)
Lemma fresh_target n (P : loc -> Prop) m :
  n <= m -> forall l, VRef m = VRef l -> l < n -> P l.
Proof. intros Hn l [= <-] Hl. lia. Qed.

Lemma bind_Ok {A B} (m : M A) (f : A -> M B) w b w' :
  bind m f w = (Ok b, w') ->
  exists a w1, m w = (Ok a, w1) /\ f a w1 = (Ok b, w').
Proof.
  unfold bind. destruct (m w) as [[a|e] w1]; [eauto|done].
Qed.

Lemma Object_assign_inv target s1 s2 w a w1 :
  Object_assign target s1 s2 w = (Ok a, w1) -> a = target.
Proof.
  unfold Object_assign. intros H.
  apply bind_Ok in H as (? & ? & _ & H).
  apply bind_Ok in H as (? & ? & _ & H).
  by injection H as <- _.
Qed.

Ltac frame_inv :=
  repeat match goal with
  | H : Object_assign _ _ _ _ = (Ok _, _) |- _ =>
      apply Object_assign_inv in H; subst
  | H : newObject _ _ = (Ok _, _) |- _ =>
      apply newObject_inv in H; destruct H as [-> ->]
  | H : newArray _ _ = (Ok _, _) |- _ =>
      apply newArray_inv in H; destruct H as [-> ->]
  end.

Ltac frame :=
  repeat match goal with
  | |- keeps _ _ ?w (snd (bind _ _ ?w)) => apply bind_keeps; [|intros ? ? ? ?]
  | |- keeps _ _ ?w (snd (tryCatch _ _ ?w)) =>
      apply tryCatch_keeps; [|intros ? ? ? ?]
  | |- keeps _ _ ?w (snd (ret _ ?w)) => apply keeps_refl
  | |- keeps _ _ ?w (snd (throw _ ?w)) => apply keeps_refl
  | |- keeps _ _ ?w (snd (getProp _ _ ?w)) => apply keeps_refl
  | |- keeps _ _ ?w (snd (getHeap ?w)) => apply keeps_refl
  | |- keeps _ _ ?w (snd (Object_entries _ ?w)) => apply keeps_refl
  | |- keeps _ _ ?w (snd (emit _ ?w)) => apply emit_keeps
  | |- keeps _ _ ?w (snd (newObject _ ?w)) => apply newObject_keeps; lia
  | |- keeps _ _ ?w (snd (newArray _ ?w)) => apply newArray_keeps; lia
  | |- keeps _ _ ?w (snd (orEmptyObject _ ?w)) => apply orEmptyObject_keeps; lia
  | |- keeps _ _ ?w (snd (orEmptyArray _ ?w)) => apply orEmptyArray_keeps; lia
  | |- keeps _ _ ?w (snd ((if ?b then _ else _) ?w)) => destruct b
  | |- keeps _ _ ?w (snd (when ?b _ ?w)) => unfold when; destruct b
  | |- keeps _ _ ?w (snd (whenLogger _ _ ?w)) => unfold whenLogger
  end.

Lemma Logger_warn_keeps n P env msg w : keeps n P w (snd (Logger.warn env msg w)).
Proof. unfold Logger.warn. frame. Qed.

Lemma Logger_info_keeps n P env msg w : keeps n P w (snd (Logger.info env msg w)).
Proof. unfold Logger.info. frame. Qed.

Lemma Logger_validate_keeps n P env c msg w :
  keeps n P w (snd (Logger.validate env c msg w)).
Proof. unfold Logger.validate. frame. apply Logger_warn_keeps. Qed.

Lemma assignSlots_keeps n (P : loc -> Prop) target ps :
  (forall l, target = VRef l -> l < n -> P l) ->
  forall w, keeps n P w (snd (assignSlots target ps w)).
Proof.
  intros HP. induction ps as [|[k [v|msg]] ps IH]; intros w; simpl.
  - apply keeps_refl.
  - apply bind_keeps; [by apply setProp_keeps|]. intros. apply IH.
  - apply keeps_refl.
Qed.

Lemma Object_assign_keeps n (P : loc -> Prop) target s1 s2 w :
  (forall l, target = VRef l -> l < n -> P l) ->
  keeps n P w (snd (Object_assign target s1 s2 w)).
Proof.
  intros HP. unfold Object_assign, assignFrom.
  frame; by apply assignSlots_keeps.
Qed.

Lemma fillFrom_keeps n P x table id w : keeps n P w (snd (fillFrom x table id w)).
Proof. unfold fillFrom. frame. Qed.

Lemma arrayForEach_keeps n P list (f : JsVal -> M unit) :
  (forall x w, n <= length (heap w) -> keeps n P w (snd (f x w))) ->
  forall w, n <= length (heap w) -> keeps n P w (snd (arrayForEach list f w)).
Proof.
  intros Hf w Hn. unfold arrayForEach, getHeap.
  apply bind_keeps; [apply keeps_refl|]. intros h w1 [= <- <-] _.
  destruct list as [| | | | |l]; frame.
  destruct (heap w !! l) as [[ps|es]|]; frame.
  by apply forEachM_keeps.
Qed.

Lemma buildSectorBySystem_keeps n P sectorsSrc w :
  n <= length (heap w) ->
  keeps n P w (snd (buildSectorBySystem sectorsSrc w)).
Proof.
  intros Hn. unfold buildSectorBySystem. frame. frame_inv.
  apply forEachM_keeps; [|lia].
  intros [sectorName systemList] w2 Hw2. frame.
  apply arrayForEach_keeps; [|lia].
  intros sysId w4 Hw4. frame.
  apply setProp_keeps. apply fresh_target. lia.
Qed.

Lemma mergedSystem_keeps n (P : loc -> Prop) env px gr sb id sys w :
  n <= length (heap w) ->
  keeps n P w (snd (mergedSystem env px gr sb id sys w)).
Proof.
  intros Hn. unfold mergedSystem. frame; frame_inv.
  all: try apply fillFrom_keeps.
  all: try apply Logger_validate_keeps.
  all: apply Object_assign_keeps; apply fresh_target; lia.
Qed.

Lemma mergeSystem_keeps n (P : loc -> Prop) env px gr sb ns id sys w :
  n <= length (heap w) ->
  (forall l, ns = VRef l -> l < n -> P l) ->
  keeps n P w (snd (mergeSystem env px gr sb ns id sys w)).
Proof.
  intros Hn HP. unfold mergeSystem. frame.
  - by apply mergedSystem_keeps.
  - by apply setProp_keeps.
Qed.

Lemma normalizeSystem_keeps n (P : loc -> Prop) env px gr sb ns er entry w :
  n <= length (heap w) ->
  (forall l, ns = VRef l -> l < n -> P l) ->
  (forall l, er = VRef l -> l < n -> P l) ->
  keeps n P w (snd (normalizeSystem env px gr sb ns er entry w)).
Proof.
  intros Hn HP HE. unfold normalizeSystem. frame.
  - apply mergeSystem_keeps; [lia|done].
  - by apply push_keeps.
  - apply Logger_warn_keeps.
Qed.

Lemma normalizeSystems_keeps n P env raw w :
  n <= length (heap w) -> keeps n P w (snd (normalizeSystems env raw w)).
Proof.
  intros Hn. unfold normalizeSystems. frame; frame_inv.
  all: try (apply buildSectorBySystem_keeps; lia).
  all: apply forEachM_keeps; [|lia].
  all: intros entry w' Hw'; apply normalizeSystem_keeps; [lia|..].
  all: apply fresh_target; rewrite ?heap_setHeap, ?length_app; simpl; lia.
Qed.

Lemma normalizeDatasetSync_keeps n P env raw w :
  n <= length (heap w) -> keeps n P w (snd (normalizeDatasetSync env raw w)).
Proof.
  intros Hn. unfold normalizeDatasetSync. frame; frame_inv.
  all: try apply Logger_warn_keeps.
  all: try (apply normalizeSystems_keeps; lia).
  all: try (apply Object_assign_keeps; apply fresh_target; lia).
  all: apply setProp_keeps; apply fresh_target; lia.
Qed.

(** ** Running the primitives *)

Lemma noGetter_nil : noGetter [].
Proof. intros k msg. done. Qed.

Lemma noGetter_assocSet k v ps : noGetter ps -> noGetter (assocSet k (Data v) ps).
Proof.
  intros H k' msg. destruct (decide (k = k')) as [->|Hne].
  - by rewrite assoc_assocSet_eq.
  - rewrite assoc_assocSet_ne by done. apply H.
Qed.

Lemma noGetter_setAll entries acc : noGetter acc -> noGetter (setAll entries acc).
Proof.
  revert acc. induction entries as [|[k v] es IH]; intros acc H; simpl; [done|].
  apply IH. by apply noGetter_assocSet.
Qed.

Lemma setProp_run l k v w ps :
  heap w !! l = Some (OObj ps) -> noGetter ps ->
  setProp (VRef l) k v w
  = (Ok tt, setHeap (<[l := OObj (assocSet k (Data v) ps)]> (heap w)) w).
Proof.
  intros Hl Hg. unfold setProp. rewrite Hl.
  destruct (assoc k ps) as [[x|msg]|] eqn:E; [done| |done].
  by destruct (Hg k msg).
Qed.

Lemma assignSlots_run t ps : forall w acc entries,
  heap w !! t = Some (OObj acc) -> noGetter acc ->
  readSlots ps = Ok entries ->
  assignSlots (VRef t) ps w
  = (Ok tt, setHeap (<[t := OObj (setAll entries acc)]> (heap w)) w).
Proof.
  induction ps as [|[k [v|msg]] ps IH]; intros w acc entries Ht Hg Hr; simpl in *.
  - injection Hr as <-. simpl. rewrite list_insert_id by done. by destruct w.
  - destruct (readSlots ps) as [r|e] eqn:Er; [|done]. injection Hr as <-.
    unfold bind. rewrite (setProp_run _ _ _ _ _ Ht Hg).
    erewrite IH; [| |by apply noGetter_assocSet|done].
    + simpl. by rewrite list_insert_insert_eq.
    + rewrite heap_setHeap. apply list_lookup_insert_eq. by eapply lookup_lt_Some.
  - done.
Qed.

Lemma assignSlots_throw t ps : forall w acc msg,
  heap w !! t = Some (OObj acc) -> noGetter acc ->
  readSlots ps = Throw msg ->
  exists w', assignSlots (VRef t) ps w = (Throw msg, w').
Proof.
  induction ps as [|[k [v|m]] ps IH]; intros w acc msg Ht Hg Hr; simpl in *.
  - done.
  - destruct (readSlots ps) as [r|e] eqn:Er; [done|]. injection Hr as ->.
    unfold bind. rewrite (setProp_run _ _ _ _ _ Ht Hg).
    eapply IH; [|by apply noGetter_assocSet|done].
    rewrite heap_setHeap. apply list_lookup_insert_eq. by eapply lookup_lt_Some.
  - injection Hr as ->. by eexists.
Qed.

(** ** Reading a heap that agrees on the value read *)

Lemma ownSlots_agree h h' v :
  (forall l, v = VRef l -> h' !! l = h !! l) -> ownSlots h' v = ownSlots h v.
Proof. intros H. destruct v; simpl; try done. by rewrite H. Qed.

Lemma lengthOf_agree h h' v :
  (forall l, v = VRef l -> h' !! l = h !! l) -> lengthOf h' v = lengthOf h v.
Proof. intros H. destruct v; simpl; try done. by rewrite H. Qed.

Lemma readProp_agree h h' v k :
  (forall l, v = VRef l -> h' !! l = h !! l) -> readProp h' v k = readProp h v k.
Proof.
  intros H. unfold readProp.
  rewrite (ownSlots_agree h h' v H), (lengthOf_agree h h' v H). done.
Qed.

Lemma readEntries_agree h h' v :
  (forall l, v = VRef l -> h' !! l = h !! l) -> readEntries h' v = readEntries h v.
Proof. intros H. unfold readEntries. by rewrite (ownSlots_agree h h' v H). Qed.

Lemma closedVal_lt n v l : closedVal n v = true -> v = VRef l -> l < n.
Proof. intros H ->. simpl in H. by apply Nat.ltb_lt. Qed.

(** ** The merged record of one system *)

Lemma getProp_run v k w : getProp v k w = (readProp (heap w) v k, w).
Proof. reflexivity. Qed.

(** What [fillFrom] computes, without the monad. *)
Lemma fillFrom_run x table id w r w' :
  fillFrom x table id w = (Ok r, w') ->
  w' = w /\
  exists side, (truthy x = true \/ sideValue (heap w) table id = Ok side) /\
               r = resolve x side.
Proof.
  unfold fillFrom, sideValue, resolve.
  destruct (truthy x) eqn:Ex; simpl.
  - intros [= <- <-]. split; [done|]. exists VUndef. auto.
  - destruct (truthy table) eqn:Et; simpl.
    + unfold bind. rewrite getProp_run.
      destruct (readProp (heap w) table id) as [t|e] eqn:Er; [|done].
      destruct (truthy t) eqn:Ett.
      * rewrite getProp_run, Er. intros [= <- <-]. split; [done|].
        exists t. rewrite Ett. auto.
      * intros [= <- <-]. split; [done|]. exists t. rewrite Ett. auto.
    + intros [= <- <-]. split; [done|]. exists VUndef. auto.
Qed.

Lemma validate_run env c msg w :
  exists w', Logger.validate env c msg w = (Ok c, w') /\ heap w' = heap w.
Proof.
  unfold Logger.validate, Logger.warn, when, bind, emit, ret.
  destruct c, (DM4_DEBUG env); simpl; eauto.
Qed.

Lemma Object_assign_Ok t s1 s2 w m w' :
  heap w !! t = Some (OObj []) ->
  (forall l, s2 = VRef l -> l <> t) ->
  Object_assign (VRef t) s1 s2 w = (Ok m, w') ->
  exists e1 e2,
    readSlots (ownSlots (heap w) s1) = Ok e1 /\
    readSlots (ownSlots (heap w) s2) = Ok e2 /\
    m = VRef t /\
    w' = setHeap (<[t := OObj (setAll e2 (setAll e1 []))]> (heap w)) w.
Proof.
  intros Ht H2 H. unfold Object_assign, assignFrom in H.
  apply bind_Ok in H as ([] & w1 & Ha & H).
  apply bind_Ok in Ha as (h1 & w2 & [= <- <-] & Ha).
  destruct (readSlots (ownSlots (heap w) s1)) as [e1|e] eqn:E1.
  2:{ destruct (assignSlots_throw t _ _ _ _ Ht noGetter_nil E1) as (wx & Ex).
      by rewrite Ex in Ha. }
  rewrite (assignSlots_run _ _ _ _ _ Ht noGetter_nil E1) in Ha.
  injection Ha as <-.
  apply bind_Ok in H as ([] & w3 & Hb & [= <- <-]).
  apply bind_Ok in Hb as (h2 & w4 & [= <- <-] & Hb).
  rewrite ?heap_setHeap in Hb.
  assert (t < length (heap w)) as Hlt by (by eapply lookup_lt_Some).
  assert (ownSlots (<[t:=OObj (setAll e1 [])]> (heap w)) s2 = ownSlots (heap w) s2) as Eo.
  { apply ownSlots_agree. intros l ->. apply list_lookup_insert_ne.
    intros ->. by eapply H2. }
  rewrite Eo in Hb.
  assert (heap (setHeap (<[t:=OObj (setAll e1 [])]> (heap w)) w) !! t
          = Some (OObj (setAll e1 []))) as Ht'.
  { rewrite heap_setHeap. by apply list_lookup_insert_eq. }
  destruct (readSlots (ownSlots (heap w) s2)) as [e2|e] eqn:E2.
  2:{ destruct (assignSlots_throw t _ _ _ _ Ht' (noGetter_setAll e1 [] noGetter_nil) E2)
        as (wx & Ex).
      by rewrite Ex in Hb. }
  rewrite (assignSlots_run _ _ _ _ _ Ht' (noGetter_setAll e1 [] noGetter_nil) E2) in Hb.
  injection Hb as <-.
  exists e1, e2. repeat split; try done.
  by rewrite list_insert_insert_eq.
Qed.

Lemma mergedSystem_Ok env px gr sb id sys w m w' :
  closedVal (length (heap w)) sys = true ->
  mergedSystem env px gr sb id sys w = (Ok m, w') ->
  exists coords0 sideC grid0 sideG sector0 sideS base,
    readProp (heap w) sys "coords" = Ok coords0 /\
    (truthy coords0 = true \/ sideValue (heap w) px id = Ok sideC) /\
    readProp (heap w) sys "grid" = Ok grid0 /\
    (truthy grid0 = true \/ sideValue (heap w) gr id = Ok sideG) /\
    readProp (heap w) sys "sector" = Ok sector0 /\
    (truthy sector0 = true \/ readProp (heap w) sb id = Ok sideS) /\
    readSlots (ownSlots (heap w) sys) = Ok base /\
    m = VRef (length (heap w)) /\
    heap w' !! length (heap w)
    = Some (OObj (mergedProps base (resolve coords0 sideC)
                    (resolve grid0 sideG) (resolve sector0 sideS))) /\
    length (heap w') = 2 + length (heap w).
Proof.
  intros Hc H. unfold mergedSystem in H.
  apply bind_Ok in H as (coords0 & w1 & H1 & H). rewrite getProp_run in H1.
  injection H1 as H1 <-.
  apply bind_Ok in H as (coords & w2 & H2 & H).
  apply fillFrom_run in H2 as (-> & sideC & HsC & ->).
  apply bind_Ok in H as ([] & w3 & H3 & H).
  assert (heap w3 = heap w) as Hw3.
  { destruct (truthy (resolve coords0 sideC) && hasLogger env).
    - apply bind_Ok in H3 as (h & w4 & [= <- <-] & H3).
      apply bind_Ok in H3 as (b & w5 & H3 & [= <-]).
      destruct (validate_run env (coordsWellFormed (heap w) (resolve coords0 sideC))
                  ("System " +:+ id +:+ " has invalid coords format") w)
        as (w6 & E & Eh).
      rewrite E in H3. by injection H3 as _ <-.
    - by injection H3 as <-. }
  clear H3.
  apply bind_Ok in H as (grid0 & w4 & H4 & H). rewrite getProp_run in H4.
  injection H4 as H4 <-. rewrite Hw3 in H4.
  apply bind_Ok in H as (grid & w5 & H5 & H).
  apply fillFrom_run in H5 as (-> & sideG & HsG & ->). rewrite Hw3 in HsG.
  apply bind_Ok in H as (sector0 & w6 & H6 & H). rewrite getProp_run in H6.
  injection H6 as H6 <-. rewrite Hw3 in H6.
  apply bind_Ok in H as (sector & w7 & H7 & H).
  assert (w7 = w3 /\ exists sideS,
            (truthy sector0 = true \/ readProp (heap w) sb id = Ok sideS) /\
            sector = resolve sector0 sideS) as (-> & sideS & HsS & ->).
  { unfold resolve. destruct (truthy sector0) eqn:Es; simpl in H7.
    - injection H7 as <- <-. split; [done|]. exists VUndef. auto.
    - apply bind_Ok in H7 as (s & w8 & H8 & H7). rewrite getProp_run in H8.
      injection H8 as H8 <-. rewrite Hw3 in H8.
      destruct (truthy s) eqn:Ets.
      + rewrite getProp_run, Hw3, H8 in H7. injection H7 as <- <-.
        split; [done|]. exists s. rewrite Ets. auto.
      + injection H7 as <- <-. split; [done|]. exists s. rewrite Ets. auto. }
  apply bind_Ok in H as (target & w8 & H8 & H).
  apply newObject_inv in H8 as [-> ->].
  apply bind_Ok in H as (fields & w9 & H9 & H).
  apply newObject_inv in H9 as [-> ->].
  rewrite !heap_setHeap, Hw3 in H. cbn [map fst snd] in H.
  set (h := heap w) in *.
  set (F := [("coords", Data (resolve coords0 sideC));
             ("grid", Data (resolve grid0 sideG));
             ("sector", Data (resolve sector0 sideS))]) in *.
  assert (length (h ++ [OObj []]) = S (length h)) as El
    by (rewrite length_app; simpl; lia).
  rewrite El in H.
  apply Object_assign_Ok in H as (base & e2 & Eb & E2 & -> & ->).
  2:{ rewrite !heap_setHeap, <- app_assoc. rewrite lookup_app_r by lia.
      by rewrite Nat.sub_diag. }
  2:{ intros l [= <-]. lia. }
  rewrite !heap_setHeap in *.
  assert (ownSlots ((h ++ [OObj []]) ++ [OObj F]) sys = ownSlots h sys) as Eo.
  { apply ownSlots_agree. intros l ->. simpl in Hc. apply Nat.ltb_lt in Hc.
    rewrite <- app_assoc. by apply lookup_app_l. }
  rewrite Eo in Eb.
  assert (ownSlots ((h ++ [OObj []]) ++ [OObj F]) (VRef (S (length h))) = F) as EF.
  { simpl. rewrite lookup_app_r by (rewrite El; lia). by rewrite El, Nat.sub_diag. }
  rewrite EF in E2. injection E2 as <-.
  exists coords0, sideC, grid0, sideG, sector0, sideS, base.
  repeat split; try done.
  - apply list_lookup_insert_eq. rewrite !length_app. simpl. lia.
  - rewrite !length_insert, !length_app. simpl. lia.
Qed.

(** ** Well-formed heaps: what is read from them points into them *)

Lemma wfHeap_lookup h l o :
  wfHeap h = true -> h !! l = Some o -> wfObj (length h) o = true.
Proof.
  unfold wfHeap. rewrite forallb_forall. intros H Hl. apply H.
  apply list_elem_of_In. by eapply list_elem_of_lookup_2.
Qed.

Lemma closedVal_mono n m v : n <= m -> closedVal n v = true -> closedVal m v = true.
Proof.
  intros Hnm. destruct v; simpl; try done.
  rewrite !Nat.ltb_lt. lia.
Qed.

Lemma assoc_In {A} k (a : A) l : assoc k l = Some a -> In (k, a) l.
Proof.
  induction l as [|[k' a'] l IH]; simpl; [done|].
  destruct (String.eqb k k') eqn:E.
  - apply String.eqb_eq in E. subst. intros [= ->]. by left.
  - intros H. right. auto.
Qed.

Lemma readSlots_In ps : forall es k v,
  readSlots ps = Ok es -> In (k, v) es -> In (k, Data v) ps.
Proof.
  induction ps as [|[k' [x|msg]] ps IH]; intros es k v H Hin; simpl in *.
  - injection H as <-. done.
  - destruct (readSlots ps) as [r|e]; [|done]. injection H as <-.
    destruct Hin as [[= -> ->]|Hin]; [by left|right; eauto].
  - done.
Qed.


Lemma indexEntries_In es k v : In (k, v) (indexEntries es) -> In v es.
Proof.
  unfold indexEntries. intros H. apply list_elem_of_In in H.
  apply elem_of_lookup_imap_1 in H as (i & x & [= -> ->] & Hx).
  apply list_elem_of_In. by eapply list_elem_of_lookup_2.
Qed.

Lemma ownSlots_closed h v k x :
  wfHeap h = true -> In (k, Data x) (ownSlots h v) ->
  closedVal (length h) x = true.
Proof.
  intros Hwf Hin. destruct v as [| | | |s|l]; simpl in Hin; try done.
  - apply in_map_iff in Hin as ([k' v'] & [= -> ->] & Hin).
    apply indexEntries_In in Hin. unfold chars in Hin.
    apply in_map_iff in Hin as (c & <- & _). done.
  - destruct (h !! l) as [[ps|es]|] eqn:El; [| |done].
    + pose proof (wfHeap_lookup _ _ _ Hwf El) as Ho. simpl in Ho.
      apply andb_prop in Ho as [Ho _]. rewrite forallb_forall in Ho.
      apply (Ho _ Hin).
    + pose proof (wfHeap_lookup _ _ _ Hwf El) as Ho. simpl in Ho.
      rewrite forallb_forall in Ho.
      apply in_map_iff in Hin as ([k' v'] & [= -> ->] & Hin).
      apply indexEntries_In in Hin. by apply Ho.
Qed.

Lemma readProp_closed h v k x :
  wfHeap h = true -> readProp h v k = Ok x -> closedVal (length h) x = true.
Proof.
  intros Hwf. unfold readProp.
  assert (forall y, (match assoc k (ownSlots h v) with
                     | Some (Data x0) => Ok x0
                     | Some (Getter msg) => Throw msg
                     | None => if String.eqb k "length" then Ok (lengthOf h v)
                               else Ok VUndef
                     end) = Ok y -> closedVal (length h) y = true) as Hgen.
  { intros y. destruct (assoc k (ownSlots h v)) as [[x0|msg]|] eqn:Ea.
    - intros [= <-]. apply assoc_In in Ea. by eapply ownSlots_closed.
    - done.
    - destruct (String.eqb k "length"); intros [= <-]; [|done].
      destruct v as [| | | |s|l]; simpl; try done.
      by destruct (h !! l) as [[ps|es]|]. }
  destruct v; try done; apply Hgen.
Qed.

Lemma readEntries_closed h v es :
  wfHeap h = true -> readEntries h v = Ok es ->
  Forall (fun kv => closedVal (length h) (snd kv) = true) es.
Proof.
  intros Hwf H. apply Forall_forall. intros [k x] Hin. simpl.
  apply list_elem_of_In in Hin.
  assert (readSlots (ownSlots h v) = Ok es) as Hr by (by destruct v).
  eapply ownSlots_closed; [done|]. by eapply readSlots_In.
Qed.

(** ** One turn of the loop over the systems *)

Lemma Logger_warn_run env msg w :
  exists w', Logger.warn env msg w = (Ok tt, w') /\ heap w' = heap w.
Proof.
  unfold Logger.warn, when, bind, emit, ret.
  destruct (DM4_DEBUG env); simpl; eauto.
Qed.

Lemma push_run l v w es :
  heap w !! l = Some (OArr es) ->
  push (VRef l) v w = (Ok tt, setHeap (<[l := OArr (es ++ [v])]> (heap w)) w).
Proof. intros H. unfold push. by rewrite H. Qed.

Lemma orEmptyObject_run v w :
  exists sys w1,
    orEmptyObject v w = (Ok sys, w1) /\
    closedVal (length (heap w1)) sys = closedVal (length (heap w)) v /\
    length (heap w) <= length (heap w1) /\
    keeps (length (heap w)) nowhere w w1 /\
    (truthy v = true /\ sys = v /\ w1 = w \/
     truthy v = false /\ sys = VRef (length (heap w)) /\
     heap w1 = heap w ++ [OObj []]).
Proof.
  unfold orEmptyObject. destruct (truthy v) eqn:Ev.
  - exists v, w. repeat split; auto using keeps_refl.
  - eexists _, _. split; [reflexivity|]. rewrite heap_setHeap, length_app. simpl.
    split.
    + destruct v; simpl in *; try done; apply Nat.ltb_lt; lia.
    + split; [lia|]. split; [apply (newObject_keeps _ _ [] w); lia|]. right. done.
Qed.

Lemma keeps_lookup n w w' l :
  keeps n nowhere w w' -> l < n -> heap w' !! l = heap w !! l.
Proof. intros (_ & _ & F) Hl. apply F; [done|]. by intros []. Qed.

(** The two ways one turn can end.  In both the callback returns
    normally. *)
Lemma normalizeSystem_step env px gr sb nsl erl id v w props errs :
  heap w !! nsl = Some (OObj props) -> noGetter props ->
  heap w !! erl = Some (OArr errs) ->
  closedVal (length (heap w)) v = true ->
  exists sys w1 w',
    orEmptyObject v w = (Ok sys, w1) /\
    normalizeSystem env px gr sb (VRef nsl) (VRef erl) (id, v) w = (Ok tt, w') /\
    length (heap w) <= length (heap w') /\
    ((exists t w2,
        mergedSystem env px gr sb id sys w1 = (Ok (VRef t), w2) /\
        length (heap w) <= t /\ t < length (heap w') /\
        heap w' !! t = heap w2 !! t /\
        heap w' !! nsl = Some (OObj (assocSet id (Data (VRef t)) props)) /\
        heap w' !! erl = Some (OArr errs))
     \/
     (exists message w2 record,
        mergedSystem env px gr sb id sys w1 = (Throw message, w2) /\
        length (heap w) <= record /\ record < length (heap w') /\
        heap w' !! record
        = Some (OObj [("systemId", Data (VStr id)); ("error", Data (VStr message))]) /\
        heap w' !! nsl = Some (OObj props) /\
        heap w' !! erl = Some (OArr (errs ++ [VRef record])))).
Proof.
  intros Hns Hg Her Hc.
  assert (nsl < length (heap w)) as Lns by (by eapply lookup_lt_Some).
  assert (erl < length (heap w)) as Ler by (by eapply lookup_lt_Some).
  assert (nsl <> erl) as Hne by (intros ->; congruence).
  destruct (orEmptyObject_run v w) as (sys & w1 & E1 & Hc1 & L1 & K1 & _).
  rewrite Hc in Hc1.
  exists sys, w1.
  unfold normalizeSystem, bind. cbn [fst snd]. rewrite E1.
  unfold tryCatch, mergeSystem, bind.
  pose proof (mergedSystem_keeps (length (heap w1)) nowhere env px gr sb id sys w1
                (Nat.le_refl _)) as K2.
  destruct (mergedSystem env px gr sb id sys w1) as [[m|message] w2] eqn:E2;
    cbn [snd] in K2.
  - destruct (mergedSystem_Ok _ _ _ _ _ _ _ _ _ Hc1 E2)
      as (? & ? & ? & ? & ? & ? & ? & _ & _ & _ & _ & _ & _ & _ & -> & Hm & L2).
    assert (heap w2 !! nsl = Some (OObj props)) as Hns2.
    { rewrite (keeps_lookup _ _ _ _ K2), (keeps_lookup _ _ _ _ K1); [done|lia..]. }
    assert (heap w2 !! erl = Some (OArr errs)) as Her2.
    { rewrite (keeps_lookup _ _ _ _ K2), (keeps_lookup _ _ _ _ K1); [done|lia..]. }
    rewrite (setProp_run _ _ _ _ _ Hns2 Hg).
    eexists. split; [done|]. split; [reflexivity|].
    rewrite heap_setHeap, length_insert. split; [lia|].
    left. exists (length (heap w1)), w2. repeat split; try done; try lia.
    + apply list_lookup_insert_ne. lia.
    + apply list_lookup_insert_eq. lia.
    + by rewrite list_lookup_insert_ne.
  - assert (length (heap w1) <= length (heap w2)) as L2 by apply K2.
    assert (heap w2 !! nsl = Some (OObj props)) as Hns2.
    { rewrite (keeps_lookup _ _ _ _ K2), (keeps_lookup _ _ _ _ K1); [done|lia..]. }
    assert (heap w2 !! erl = Some (OArr errs)) as Her2.
    { rewrite (keeps_lookup _ _ _ _ K2), (keeps_lookup _ _ _ _ K1); [done|lia..]. }
    unfold newObject, bind, alloc, ret. cbn [map fst snd].
    erewrite push_run.
    2:{ rewrite heap_setHeap. rewrite lookup_app_l by lia. exact Her2. }
    unfold whenLogger, when.
    set (w3 := setHeap _ (setHeap _ w2)).
    assert (heap w3 = <[erl:=OArr (errs ++ [VRef (length (heap w2))])]>
                        (heap w2 ++ [OObj [("systemId", Data (VStr id));
                                           ("error", Data (VStr message))]])) as Hw3
      by done.
    assert (exists w', (if hasLogger env
                        then Logger.warn env ("Failed to normalize system " +:+ id +:+ ":")
                        else fun w => (Ok tt, w)) w3 = (Ok tt, w') /\ heap w' = heap w3)
      as (w' & Ew & Hw').
    { destruct (hasLogger env); [apply Logger_warn_run|by eexists]. }
    unfold ret. rewrite Ew. exists w'. split; [done|]. split; [done|].
    rewrite Hw', Hw3, length_insert, length_app. simpl. split; [lia|].
    right. exists message, w2, (length (heap w2)). repeat split; try done; try lia.
    + rewrite list_lookup_insert_ne by lia. rewrite lookup_app_r by lia.
      by rewrite Nat.sub_diag.
    + rewrite list_lookup_insert_ne by lia. by rewrite lookup_app_l by lia.
    + apply list_lookup_insert_eq. rewrite length_app. simpl. lia.
Qed.

Lemma In_assocSet {A} k (a : A) l k' a' :
  In (k', a') (assocSet k a l) -> (k', a') = (k, a) \/ In (k', a') l.
Proof.
  induction l as [|[k0 a0] l IH]; simpl.
  - intros [H|[]]. by left.
  - destruct (String.eqb k k0); simpl.
    + intros [H|H]; [by left|right; by right].
    + intros [H|H]; [right; by left|].
      destruct (IH H) as [?|?]; [by left|right; by right].
Qed.

(** ** The loop over the systems *)

Lemma systems_loop env px gr sb nsl erl : forall entries w props errs,
  heap w !! nsl = Some (OObj props) -> noGetter props ->
  heap w !! erl = Some (OArr errs) ->
  Forall (fun kv => closedVal (length (heap w)) (snd kv) = true) entries ->
  exists w' props' more,
    forEachM (normalizeSystem env px gr sb (VRef nsl) (VRef erl)) entries w
    = (Ok tt, w') /\
    length (heap w) <= length (heap w') /\
    heap w' !! nsl = Some (OObj props') /\ noGetter props' /\
    heap w' !! erl = Some (OArr (errs ++ more)) /\
    (forall id, id ∈ keys props -> id ∈ keys props') /\
    (forall id, id ∈ keys props' -> id ∈ keys props \/ id ∈ keys entries) /\
    (more = [] -> forall id, id ∈ keys entries -> id ∈ keys props') /\
    (forall id slot, In (id, slot) props' ->
       In (id, slot) props \/
       exists t, slot = Data (VRef t) /\ length (heap w) <= t /\ t <> nsl).
Proof.
  induction entries as [|[id v] entries IH]; intros w props errs Hns Hg Her Hc.
  - exists w, props, []. simpl. rewrite app_nil_r.
    repeat split; auto. intros _ id H. inversion H.
  - apply Forall_cons in Hc as [Hv Hc]. simpl in Hv.
    destruct (normalizeSystem_step env px gr sb nsl erl id v w props errs
                Hns Hg Her Hv) as (sys & w1 & w2 & _ & E & L & Hcase).
    assert (Forall (fun kv => closedVal (length (heap w2)) (snd kv) = true) entries)
      as Hc2.
    { eapply Forall_impl; [exact Hc|]. intros kv. by apply closedVal_mono. }
    assert (nsl < length (heap w)) as Lns by (by eapply lookup_lt_Some).
    simpl. unfold bind. rewrite E.
    destruct Hcase as [(t & w3 & _ & Lt & Lt' & _ & Hns2 & Her2)
                      |(message & w3 & record & _ & _ & _ & _ & Hns2 & Her2)].
    + destruct (IH w2 _ _ Hns2 (noGetter_assocSet _ _ _ Hg) Her2 Hc2)
        as (w' & props' & more & E' & L' & Hns' & Hg' & Her' & Hmono & Hsub & Hall & Hfresh).
      exists w', props', more. repeat split; try done; try lia.
      * intros k Hk. apply Hmono. apply keys_assocSet. by right.
      * intros k Hk. destruct (Hsub k Hk) as [H|H].
        -- apply keys_assocSet in H as [->|H]; [|by left].
           right. simpl. apply list_elem_of_here.
        -- right. simpl. by apply list_elem_of_further.
      * intros Hm k Hk. simpl in Hk. apply elem_of_cons in Hk as [->|Hk].
        -- apply Hmono. apply keys_assocSet. by left.
        -- by apply Hall.
      * intros k slot Hin. destruct (Hfresh k slot Hin) as [H|(t' & -> & Ht' & Hne')].
        -- apply In_assocSet in H as [[= -> ->]|H]; [|by left].
           right. exists t. repeat split; [done|lia].
        -- right. exists t'. repeat split; [lia|done].
    + destruct (IH w2 _ _ Hns2 Hg Her2 Hc2)
        as (w' & props' & more & E' & L' & Hns' & Hg' & Her' & Hmono & Hsub & Hall & Hfresh).
      exists w', props', (VRef record :: more).
      rewrite <- app_assoc in Her'. repeat split; try done; try lia.
      * intros k Hk. destruct (Hsub k Hk) as [H|H]; [by left|].
        right. simpl. by apply list_elem_of_further.
      * intros k slot Hin. destruct (Hfresh k slot Hin) as [H|(t' & -> & Ht' & Hne')].
        -- by left.
        -- right. exists t'. repeat split; [lia|done].
Qed.

(** Up to the loop: the side tables are read and the two locals are
    allocated, and nothing that was there is touched.  The loop then runs
    over the entries of [raw.systems || {}]. *)
Lemma normalizeSystems_loop env raw w ns er w1 :
  wfHeap (heap w) = true ->
  normalizeSystems env raw w = (Ok (ns, er), w1) ->
  exists wC px gr sb nsl,
    length (heap w) <= nsl /\ S nsl < length (heap wC) /\
    heap wC !! nsl = Some (OObj []) /\
    heap wC !! S nsl = Some (OArr []) /\
    Forall (fun kv => closedVal (length (heap wC)) (snd kv) = true)
      (rawSystems (heap w) raw) /\
    forEachM (normalizeSystem env px gr sb (VRef nsl) (VRef (S nsl)))
      (rawSystems (heap w) raw) wC = (Ok tt, w1) /\
    ns = VRef nsl /\ er = VRef (S nsl).
Proof.
  intros Hwf H. unfold normalizeSystems in H.
  apply bind_Ok in H as (systems0 & wa & Ha & H). rewrite getProp_run in Ha.
  injection Ha as Hs0 <-.
  apply bind_Ok in H as (systemsSrc & wA & HA & H).
  destruct (orEmptyObject_run systems0 w) as (sys' & wA' & E & HcA & LA & KA & Hcase).
  rewrite E in HA. injection HA as -> ->. clear E.
  pose proof (readProp_closed _ _ _ _ Hwf Hs0) as Hc0. rewrite Hc0 in HcA.
  (* everything up to the loop leaves the heap of [wA] as it is *)
  assert (exists wC entries,
             keeps (length (heap wA)) nowhere wA wC /\
             heap wC !! length (heap wC) = None /\
             exists px gr sb nsl,
               length (heap wA) <= nsl /\ S nsl < length (heap wC) /\
               heap wC !! nsl = Some (OObj []) /\
               heap wC !! S nsl = Some (OArr []) /\
               readEntries (heap wC) systemsSrc = Ok entries /\
               forEachM (normalizeSystem env px gr sb (VRef nsl) (VRef (S nsl)))
                 entries wC = (Ok tt, w1) /\
               ns = VRef nsl /\ er = VRef (S nsl))
    as (wC & entries & KC & _ & px & gr & sb & nsl & Lns & LC & Hns & Her & He & Hloop & -> & ->).
  { apply bind_Ok in H as (pixels0 & wb & Hb & H). rewrite getProp_run in Hb.
    injection Hb as _ <-.
    apply bind_Ok in H as (px & wP & HP & H).
    assert (keeps (length (heap wA)) nowhere wA wP) as KP.
    { change wP with (snd (Ok px, wP)). rewrite <- HP.
      destruct (truthy pixels0); frame. }
    apply bind_Ok in H as (grid0 & wc & Hc & H). rewrite getProp_run in Hc.
    injection Hc as _ <-.
    apply bind_Ok in H as (gr & wG & HG & H).
    assert (keeps (length (heap wA)) nowhere wP wG) as KG.
    { change wG with (snd (Ok gr, wG)). rewrite <- HG.
      apply orEmptyObject_keeps. apply KP. }
    apply bind_Ok in H as (sectors0 & wd & Hd & H). rewrite getProp_run in Hd.
    injection Hd as _ <-.
    apply bind_Ok in H as (sectorsSrc & wS & HS & H).
    assert (keeps (length (heap wA)) nowhere wG wS) as KS.
    { change wS with (snd (Ok sectorsSrc, wS)). rewrite <- HS.
      apply orEmptyObject_keeps. destruct KP, KG. lia. }
    apply bind_Ok in H as (sb & wB & HB & H).
    assert (keeps (length (heap wA)) nowhere wS wB) as KB.
    { change wB with (snd (Ok sb, wB)). rewrite <- HB.
      apply buildSectorBySystem_keeps. destruct KP, KG, KS. lia. }
    apply bind_Ok in H as (ns' & wN & HN & H).
    apply newObject_inv in HN as [-> ->].
    apply bind_Ok in H as (er' & wE & HE & H).
    apply newArray_inv in HE as [-> ->].
    apply bind_Ok in H as (entries & we & He & H).
    injection He as He <-.
    apply bind_Ok in H as ([] & wl & Hl & [= <- <- <-]).
    assert (length (heap wA) <= length (heap wB)) as LB
      by (destruct KP, KG, KS, KB; lia).
    cbn [map] in Hl. rewrite heap_setHeap in Hl.
    assert (length (heap wB ++ [OObj []]) = S (length (heap wB))) as El
      by (rewrite length_app; simpl; lia).
    rewrite El in Hl.
    set (wC := setHeap ((heap wB ++ [OObj []]) ++ [OArr []])
                 (setHeap (heap wB ++ [OObj []]) wB)) in *.
    assert (heap wC = (heap wB ++ [OObj []]) ++ [OArr []]) as HwC by reflexivity.
    exists wC, entries. split; [|split; [|exists px, gr, sb, (length (heap wB))]].
    - eapply keeps_trans; [exact KP|]. eapply keeps_trans; [exact KG|].
      eapply keeps_trans; [exact KS|]. eapply keeps_trans; [exact KB|].
      split; [rewrite HwC, !length_app; simpl; lia|]. split; [by repeat split|].
      intros l Hl' _. rewrite HwC, <- app_assoc. apply lookup_app_l. lia.
    - apply lookup_ge_None. lia.
    - rewrite HwC, !length_app. cbn [length].
      repeat split; try done; try lia.
      + rewrite lookup_app_l by (rewrite El; lia).
        rewrite lookup_app_r by lia. by rewrite Nat.sub_diag.
      + rewrite lookup_app_r by (rewrite El; lia).
        by rewrite El, Nat.sub_diag.
      + f_equal. lia. }
  assert (entries = rawSystems (heap w) raw /\
          Forall (fun kv => closedVal (length (heap wC)) (snd kv) = true) entries)
    as [-> Hce].
  { unfold rawSystems. rewrite Hs0.
    assert (length (heap wA) <= length (heap wC)) as LAC by apply KC.
    destruct Hcase as [(Ht & -> & ->)|(Ht & -> & HhA)]; rewrite Ht.
    - assert (readEntries (heap wC) systems0 = readEntries (heap w) systems0) as Ea.
      { apply readEntries_agree. intros l ->. apply (keeps_lookup _ _ _ _ KC).
        simpl in Hc0. by apply Nat.ltb_lt. }
      rewrite Ea in He. rewrite He. split; [done|].
      eapply Forall_impl; [apply (readEntries_closed _ _ _ Hwf He)|].
      intros kv. apply closedVal_mono. lia.
    - assert (heap wC !! length (heap w) = Some (OObj [])) as Hl.
      { rewrite (keeps_lookup _ _ _ _ KC).
        - rewrite HhA, lookup_app_r by lia. by rewrite Nat.sub_diag.
        - rewrite HhA, length_app. simpl. lia. }
      unfold readEntries in He. simpl in He. rewrite Hl in He. simpl in He.
      injection He as <-. by split. }
  exists wC, px, gr, sb, nsl.
  assert (length (heap wA) <= length (heap wC)) as LAC by apply KC.
  repeat split; try done; lia.
Qed.

Lemma normalizeSystems_Ok env raw w ns er w1 :
  wfHeap (heap w) = true ->
  normalizeSystems env raw w = (Ok (ns, er), w1) ->
  exists nsl erl props errs,
    ns = VRef nsl /\ er = VRef erl /\
    length (heap w) <= nsl /\ length (heap w) <= erl /\
    heap w1 !! nsl = Some (OObj props) /\ noGetter props /\
    heap w1 !! erl = Some (OArr errs) /\
    (forall id, id ∈ keys props -> id ∈ keys (rawSystems (heap w) raw)) /\
    (errs = [] ->
     forall id, id ∈ keys (rawSystems (heap w) raw) -> id ∈ keys props) /\
    (forall id slot, In (id, slot) props ->
       exists t, slot = Data (VRef t) /\ length (heap w) <= t /\ t <> nsl).
Proof.
  intros Hwf H.
  destruct (normalizeSystems_loop _ _ _ _ _ _ Hwf H)
    as (wC & px & gr & sb & nsl & Lns & LC & Hns & Her & Hce & Hloop & -> & ->).
  destruct (systems_loop env px gr sb nsl (S nsl) _ wC [] [] Hns noGetter_nil Her Hce)
    as (w' & props' & more & E' & L' & Hns' & Hg' & Her' & _ & Hsub & Hall & Hfresh).
  rewrite Hloop in E'. injection E' as <-.
  exists nsl, (S nsl), props', more. simpl in Her'.
  repeat split; try done; try lia.
  - intros id Hid. destruct (Hsub id Hid) as [H'|H']; [inversion H'|done].
  - intros id slot Hin. destruct (Hfresh id slot Hin) as [[]|(t & -> & Lt & Hne)].
    exists t. repeat split; [|done]. lia.
Qed.

(** ** The whole synchronous normalisation *)

Lemma normalizeDatasetSync_invalid env raw w :
  (forall l, raw <> VRef l) ->
  exists w',
    normalizeDatasetSync env raw w = (Ok (VRef (S (length (heap w)))), w') /\
    heap w' = heap w ++ [OObj []; OObj [("systems", Data (VRef (length (heap w))))]] /\
    trace w' = trace w ++ invalidInputDiagnostics env /\
    sameModule w w'.
Proof.
  intros Hraw. unfold normalizeDatasetSync, invalidInputDiagnostics.
  assert (negb (truthy raw) || negb (typeofObject raw) = true) as ->.
  { destruct raw as [| |b|n|s|l]; simpl; try done.
    - by destruct b.
    - by rewrite orb_true_r.
    - by rewrite orb_true_r.
    - by destruct (Hraw l). }
  unfold Logger.warn, when, bind, emit, newObject, alloc, ret, bind.
  destruct (hasLogger env), (DM4_DEBUG env);
    cbn [fst snd map heap trace addEvent setHeap];
    rewrite ?length_app; cbn [length];
    replace (length (heap w) + 1) with (S (length (heap w))) by lia;
    (eexists; split; [reflexivity|]);
    cbn [fst snd map heap trace addEvent setHeap];
    rewrite <- ?app_assoc, ?app_nil_r; by repeat split.
Qed.

Lemma setAll_one k v acc : setAll [(k, v)] acc = assocSet k (Data v) acc.
Proof. reflexivity. Qed.

Lemma normalizeDatasetSync_Ok env r w res w' :
  wfHeap (heap w) = true -> r < length (heap w) ->
  normalizeDatasetSync env (VRef r) w = (Ok res, w') ->
  exists nsl erl w1 props errs rawEntries,
    normalizeSystems env (VRef r) w = (Ok (VRef nsl, VRef erl), w1) /\
    length (heap w) <= nsl /\ length (heap w) <= erl /\
    heap w1 !! nsl = Some (OObj props) /\ noGetter props /\
    heap w1 !! erl = Some (OArr errs) /\
    (forall id, id ∈ keys props -> id ∈ keys (rawSystems (heap w) (VRef r))) /\
    (errs = [] ->
     forall id, id ∈ keys (rawSystems (heap w) (VRef r)) -> id ∈ keys props) /\
    (forall id slot, In (id, slot) props ->
       exists t, slot = Data (VRef t) /\ length (heap w) <= t /\ t <> nsl) /\
    res = VRef (length (heap w1)) /\
    keeps (length (heap w1)) nowhere w1 w' /\
    readSlots (ownSlots (heap w) (VRef r)) = Ok rawEntries /\
    heap w' !! length (heap w1)
    = Some (OObj (withErrors env errs (VRef erl)
                    (setAll [("systems", VRef nsl)] (setAll rawEntries [])))).
Proof.
  intros Hwf Hr H. unfold normalizeDatasetSync in H. cbn [truthy typeofObject negb orb] in H.
  apply bind_Ok in H as ([ns er] & w1 & Hn & H). cbn [fst snd] in H.
  pose proof (normalizeSystems_keeps (length (heap w)) nowhere env (VRef r) w
                (Nat.le_refl _)) as K1.
  rewrite Hn in K1. cbn [snd] in K1.
  destruct (normalizeSystems_Ok _ _ _ _ _ _ Hwf Hn)
    as (nsl & erl & props & errs & -> & -> & Lns & Ler & Hns & Hg & Her & Hsub & Hall & Hfresh).
  exists nsl, erl, w1, props, errs.
  assert (length (heap w) <= length (heap w1)) as L1 by apply K1.
  apply bind_Ok in H as (target & w2 & H2 & H). apply newObject_inv in H2 as [-> ->].
  apply bind_Ok in H as (fields & w3 & H3 & H). apply newObject_inv in H3 as [-> ->].
  cbn [map fst snd] in H. rewrite !heap_setHeap in H.
  assert (length (heap w1 ++ [OObj []]) = S (length (heap w1))) as El
    by (rewrite length_app; simpl; lia).
  rewrite El in H.
  apply bind_Ok in H as (result & w4 & H4 & H).
  apply Object_assign_Ok in H4 as (rawEntries & e2 & Eb & E2 & -> & ->).
  2:{ rewrite !heap_setHeap, <- app_assoc. rewrite lookup_app_r by lia.
      by rewrite Nat.sub_diag. }
  2:{ intros l [= <-]. lia. }
  rewrite !heap_setHeap in *.
  set (F := [("systems", Data (VRef nsl))]) in *.
  assert (ownSlots ((heap w1 ++ [OObj []]) ++ [OObj F]) (VRef r)
          = ownSlots (heap w) (VRef r)) as Eo.
  { apply ownSlots_agree. intros l [= <-].
    rewrite <- app_assoc, lookup_app_l by lia. by apply (keeps_lookup _ _ _ _ K1). }
  rewrite Eo in Eb.
  assert (ownSlots ((heap w1 ++ [OObj []]) ++ [OObj F]) (VRef (S (length (heap w1))))
          = F) as EF.
  { simpl. rewrite lookup_app_r by (rewrite El; lia). by rewrite El, Nat.sub_diag. }
  rewrite EF in E2. injection E2 as <-.
  exists rawEntries.
  apply bind_Ok in H as (h & w5 & [= <- <-] & H). rewrite ?heap_setHeap in H.
  apply bind_Ok in H as ([] & w6 & H6 & [= <- <-]).
  change (setAll [("systems", VRef nsl)] (setAll rawEntries []))
    with (assocSet "systems" (Data (VRef nsl)) (setAll rawEntries [])).
  set (P := assocSet "systems" (Data (VRef nsl)) (setAll rawEntries [])) in *.
  set (h3 := <[length (heap w1):=OObj P]> ((heap w1 ++ [OObj []]) ++ [OObj F])) in *.
  assert (erl < length (heap w1)) as Ler1 by (by eapply lookup_lt_Some).
  assert (length h3 = S (S (length (heap w1)))) as Lh3.
  { unfold h3. rewrite length_insert, !length_app. simpl. lia. }
  assert (forall l, l < length (heap w1) -> h3 !! l = heap w1 !! l) as Hold.
  { intros l Hl. unfold h3. rewrite list_lookup_insert_ne by lia.
    rewrite <- app_assoc. by apply lookup_app_l. }
  assert (h3 !! length (heap w1) = Some (OObj P)) as Ht.
  { unfold h3. apply list_lookup_insert_eq. rewrite !length_app. simpl. lia. }
  assert (lengthOf h3 (VRef erl) = VNum (Z.of_nat (length errs))) as Elen.
  { simpl. by rewrite Hold, Her. }
  rewrite Elen in H6.
  assert (truthy (VNum (Z.of_nat (length errs))) = negb (Nat.eqb (length errs) 0))
    as Etr.
  { simpl. f_equal. destruct (length errs); simpl; [done|]. done. }
  rewrite Etr in H6.
  set (w5 := setHeap h3 (setHeap ((heap w1 ++ [OObj []]) ++ [OObj F])
                           (setHeap (heap w1 ++ [OObj []]) w1))) in *.
  assert (heap w6 = <[length (heap w1) := OObj (withErrors env errs (VRef erl) P)]> h3
          /\ sameModule w1 w6) as [Hh6 S6].
  { unfold withErrors.
    destruct (negb (Nat.eqb (length errs) 0) && hasLogger env).
    - apply bind_Ok in H6 as ([] & w7 & H7 & H6).
      destruct (Logger_warn_run env "Normalization completed with errors" w5)
        as (w8 & E8 & Hh8).
      pose proof (Logger_warn_keeps 0 nowhere env
                    "Normalization completed with errors" w5) as (_ & S8 & _).
      rewrite E8 in H7, S8. injection H7 as <-. cbn [snd] in S8.
      erewrite setProp_run in H6;
        [|rewrite Hh8; exact Ht
         |apply noGetter_assocSet, (noGetter_setAll rawEntries []), noGetter_nil].
      injection H6 as <-. rewrite heap_setHeap, Hh8. split; [done|exact S8].
    - injection H6 as <-. split; [|by repeat split].
      symmetry. by apply list_insert_id. }
  split_and!; try done.
  - split; [rewrite Hh6, length_insert; lia|]. split; [done|].
    intros l Hl _. rewrite Hh6, list_lookup_insert_ne by lia. by apply Hold.
  - rewrite Hh6. apply list_lookup_insert_eq. lia.
Qed.

Lemma assoc_withErrors env errs er props k :
  k <> "_normalizationErrors" ->
  assoc k (withErrors env errs er props) = assoc k props.
Proof.
  intros Hk. unfold withErrors.
  destruct (negb (Nat.eqb (length errs) 0) && hasLogger env); [|done].
  by apply assoc_assocSet_ne.
Qed.



(** ** The normaliser without cache *)

Lemma Core_mergedSystem_eq px gr sb id sys w :
  Core.mergedSystem px gr sb id sys w = mergedSystem coreEnv px gr sb id sys w.
Proof.
  unfold Core.mergedSystem, mergedSystem, bind. cbn [hasLogger coreEnv].
  destruct (getProp sys "coords" w) as [[c0|e] w1]; [|done].
  destruct (fillFrom c0 px id w1) as [[c|e] w2]; [|done].
  rewrite andb_false_r. done.
Qed.

Lemma Core_normalizeSystem_keeps n (P : loc -> Prop) px gr sb ns entry w :
  n <= length (heap w) ->
  (forall l, ns = VRef l -> l < n -> P l) ->
  keeps n P w (snd (Core.normalizeSystem px gr sb ns entry w)).
Proof.
  intros Hn HP. unfold Core.normalizeSystem. frame.
  - rewrite Core_mergedSystem_eq. apply mergedSystem_keeps. lia.
  - by apply setProp_keeps.
Qed.

Lemma Core_normalizeDataset_keeps n P env raw w :
  n <= length (heap w) -> keeps n P w (snd (Core.normalizeDataset env raw w)).
Proof.
  intros Hn. unfold Core.normalizeDataset, Core.Logger_critical, Logger.critical.
  frame; frame_inv.
  all: try (apply buildSectorBySystem_keeps; lia).
  all: try (apply Object_assign_keeps; apply fresh_target; lia).
  apply forEachM_keeps; [|lia].
  intros entry w' Hw'. apply Core_normalizeSystem_keeps; [lia|].
  apply fresh_target. lia.
Qed.

Lemma Core_normalizeSystem_step px gr sb nsl id v w props w' :
  heap w !! nsl = Some (OObj props) -> noGetter props ->
  closedVal (length (heap w)) v = true ->
  Core.normalizeSystem px gr sb (VRef nsl) (id, v) w = (Ok tt, w') ->
  length (heap w) <= length (heap w') /\
  exists t, length (heap w) <= t /\ t <> nsl /\
            heap w' !! nsl = Some (OObj (assocSet id (Data (VRef t)) props)).
Proof.
  intros Hns Hg Hc H.
  assert (nsl < length (heap w)) as Lns by (by eapply lookup_lt_Some).
  unfold Core.normalizeSystem in H. cbn [fst snd] in H.
  apply bind_Ok in H as (sys & w1 & E1 & H).
  destruct (orEmptyObject_run v w) as (sys' & w1' & E1' & Hc1 & L1 & K1 & _).
  rewrite E1 in E1'. injection E1' as <- <-. rewrite Hc in Hc1.
  apply bind_Ok in H as (m & w2 & E2 & H). rewrite Core_mergedSystem_eq in E2.
  pose proof (mergedSystem_keeps (length (heap w1)) nowhere coreEnv px gr sb id sys w1
                (Nat.le_refl _)) as K2.
  rewrite E2 in K2. cbn [snd] in K2.
  destruct (mergedSystem_Ok _ _ _ _ _ _ _ _ _ Hc1 E2)
    as (? & ? & ? & ? & ? & ? & ? & _ & _ & _ & _ & _ & _ & _ & -> & Hm & L2).
  assert (heap w2 !! nsl = Some (OObj props)) as Hns2.
  { rewrite (keeps_lookup _ _ _ _ K2), (keeps_lookup _ _ _ _ K1); [done|lia..]. }
  rewrite (setProp_run _ _ _ _ _ Hns2 Hg) in H. injection H as <-.
  rewrite heap_setHeap, length_insert. split; [lia|].
  exists (length (heap w1)). split; [lia|]. split; [lia|].
  apply list_lookup_insert_eq. lia.
Qed.

Lemma Core_systems_loop px gr sb nsl : forall entries w props w',
  heap w !! nsl = Some (OObj props) -> noGetter props ->
  Forall (fun kv => closedVal (length (heap w)) (snd kv) = true) entries ->
  forEachM (Core.normalizeSystem px gr sb (VRef nsl)) entries w = (Ok tt, w') ->
  exists props',
    length (heap w) <= length (heap w') /\
    heap w' !! nsl = Some (OObj props') /\ noGetter props' /\
    (forall id, id ∈ keys props' <-> id ∈ keys props \/ id ∈ keys entries) /\
    (forall id slot, In (id, slot) props' ->
       In (id, slot) props \/
       exists t, slot = Data (VRef t) /\ length (heap w) <= t /\ t <> nsl).
Proof.
  induction entries as [|[id v] entries IH]; intros w props w' Hns Hg Hc H.
  - injection H as <-. exists props. split_and!; auto.
    intros id. split; [auto|]. intros [?|H]; [done|inversion H].
  - apply Forall_cons in Hc as [Hv Hc]. simpl in Hv. simpl in H.
    apply bind_Ok in H as ([] & w1 & E1 & H).
    destruct (Core_normalizeSystem_step _ _ _ _ _ _ _ _ _ Hns Hg Hv E1)
      as (L1 & t & Lt & Hne & Hns1).
    assert (Forall (fun kv => closedVal (length (heap w1)) (snd kv) = true) entries)
      as Hc1.
    { eapply Forall_impl; [exact Hc|]. intros kv. by apply closedVal_mono. }
    destruct (IH w1 _ w' Hns1 (noGetter_assocSet _ _ _ Hg) Hc1 H)
      as (props' & L' & Hns' & Hg' & Hkeys & Hfresh).
    exists props'. split_and!; try done; try lia.
    + intros k. rewrite Hkeys, keys_assocSet. simpl. rewrite elem_of_cons. tauto.
    + intros k slot Hin. destruct (Hfresh k slot Hin) as [H'|(t' & -> & Ht' & Hne')].
      * apply In_assocSet in H' as [[= -> ->]|H']; [|by left].
        right. exists t. by split_and!.
      * right. exists t'. split_and!; [done|lia|done].
Qed.

Lemma getProp_Ok v k w x w' :
  getProp v k w = (Ok x, w') -> readProp (heap w) v k = Ok x /\ w' = w.
Proof. unfold getProp. intros H. by injection H as -> ->. Qed.

Lemma Core_normalizeDataset_Ok env r w res w' :
  wfHeap (heap w) = true -> r < length (heap w) ->
  Core.normalizeDataset env (VRef r) w = (Ok res, w') ->
  exists nsl props t rawEntries,
    length (heap w) <= nsl /\ nsl < t /\
    heap w' !! nsl = Some (OObj props) /\
    (forall id, id ∈ keys props <-> id ∈ keys (rawSystems (heap w) (VRef r))) /\
    (forall id slot, In (id, slot) props ->
       exists t', slot = Data (VRef t') /\ length (heap w) <= t' /\ t' <> nsl) /\
    res = VRef t /\
    readSlots (ownSlots (heap w) (VRef r)) = Ok rawEntries /\
    heap w' !! t
    = Some (OObj (setAll [("systems", VRef nsl)] (setAll rawEntries []))).
Proof.
  intros Hwf Hr H. unfold Core.normalizeDataset in H.
  cbn [truthy typeofObject negb orb] in H.
  apply bind_Ok in H as (systems0 & wa & Ha & H).
  apply getProp_Ok in Ha as [Hs0 ->].
  apply bind_Ok in H as (systemsSrc & wA & HA & H).
  destruct (orEmptyObject_run systems0 w) as (sys' & wA' & E & HcA & LA & KA & Hcase).
  rewrite E in HA. injection HA as -> ->. clear E.
  pose proof (readProp_closed _ _ _ _ Hwf Hs0) as Hc0. rewrite Hc0 in HcA.
  apply bind_Ok in H as (pixels0 & wb & Hb & H).
  apply getProp_Ok in Hb as [_ ->].
  apply bind_Ok in H as (px & wP & HP & H).
  assert (keeps (length (heap wA)) nowhere wA wP) as KP.
  { change wP with (snd (Ok px, wP)). rewrite <- HP.
    destruct (truthy pixels0); frame. }
  apply bind_Ok in H as (grid0 & wc & Hc & H).
  apply getProp_Ok in Hc as [_ ->].
  apply bind_Ok in H as (gr & wG & HG & H).
  assert (keeps (length (heap wA)) nowhere wP wG) as KG.
  { change wG with (snd (Ok gr, wG)). rewrite <- HG.
    apply orEmptyObject_keeps. apply KP. }
  apply bind_Ok in H as (sectors0 & wd & Hd & H).
  apply getProp_Ok in Hd as [_ ->].
  apply bind_Ok in H as (sectorsSrc & wS & HS & H).
  assert (keeps (length (heap wA)) nowhere wG wS) as KS.
  { change wS with (snd (Ok sectorsSrc, wS)). rewrite <- HS.
    apply orEmptyObject_keeps. destruct KP, KG. lia. }
  apply bind_Ok in H as (sb & wB & HB & H).
  assert (keeps (length (heap wA)) nowhere wS wB) as KB.
  { change wB with (snd (Ok sb, wB)). rewrite <- HB.
    apply buildSectorBySystem_keeps. destruct KP, KG, KS. lia. }
  apply bind_Ok in H as (ns' & wN & HN & H).
  apply newObject_inv in HN as [-> ->].
  apply bind_Ok in H as (entries & we & He & H).
  injection He as He <-. rewrite ?heap_setHeap in He. cbn [map] in He, H.
  apply bind_Ok in H as ([] & wl & Hl & H).
  assert (length (heap wA) <= length (heap wB)) as LB
    by (destruct KP, KG, KS, KB; lia).
  set (wC := setHeap (heap wB ++ [OObj []]) wB) in *.
  assert (heap wC = heap wB ++ [OObj []]) as HwC by reflexivity.
  assert (keeps (length (heap wA)) nowhere wA wC) as KC.
  { eapply keeps_trans; [exact KP|]. eapply keeps_trans; [exact KG|].
    eapply keeps_trans; [exact KS|]. eapply keeps_trans; [exact KB|].
    apply (newObject_keeps _ _ [] wB LB). }
  assert (heap wC !! length (heap wB) = Some (OObj [])) as Hns.
  { rewrite HwC, lookup_app_r by lia. by rewrite Nat.sub_diag. }
  assert (readEntries (heap wC) systemsSrc = Ok entries) as He' by exact He.
  clear He.
  assert (entries = rawSystems (heap w) (VRef r) /\
          Forall (fun kv => closedVal (length (heap wC)) (snd kv) = true) entries)
    as [-> Hce].
  { unfold rawSystems. rewrite Hs0.
    assert (length (heap wA) <= length (heap wC)) as LAC by apply KC.
    destruct Hcase as [(Ht & -> & ->)|(Ht & -> & HhA)]; rewrite Ht.
    - assert (readEntries (heap wC) systems0 = readEntries (heap w) systems0) as Ea.
      { apply readEntries_agree. intros l ->. apply (keeps_lookup _ _ _ _ KC).
        simpl in Hc0. by apply Nat.ltb_lt. }
      rewrite Ea in He'. rewrite He'. split; [done|].
      eapply Forall_impl; [apply (readEntries_closed _ _ _ Hwf He')|].
      intros kv. apply closedVal_mono. lia.
    - assert (heap wC !! length (heap w) = Some (OObj [])) as Hl'.
      { rewrite (keeps_lookup _ _ _ _ KC).
        - rewrite HhA, lookup_app_r by lia. by rewrite Nat.sub_diag.
        - rewrite HhA, length_app. simpl. lia. }
      unfold readEntries in He'. cbn [ownSlots] in He'.
      rewrite Hl' in He'. simpl in He'. injection He' as <-. by split. }
  destruct (Core_systems_loop px gr sb _ _ wC [] wl Hns noGetter_nil Hce Hl)
    as (props' & L' & Hns' & Hg' & Hkeys & Hfresh).
  apply bind_Ok in H as (target & w2 & H2 & H). apply newObject_inv in H2 as [-> ->].
  apply bind_Ok in H as (fields & w3 & H3 & H). apply newObject_inv in H3 as [-> ->].
  cbn [map fst snd] in H. rewrite !heap_setHeap in H.
  assert (length (heap wl ++ [OObj []]) = S (length (heap wl))) as El
    by (rewrite length_app; simpl; lia).
  rewrite El in H.
  apply Object_assign_Ok in H as (rawEntries & e2 & Eb & E2 & -> & ->).
  2:{ rewrite !heap_setHeap, <- app_assoc. rewrite lookup_app_r by lia.
      by rewrite Nat.sub_diag. }
  2:{ intros l [= <-]. lia. }
  rewrite !heap_setHeap in *.
  set (F := [("systems", Data (VRef (length (heap wB))))]) in *.
  assert (keeps (length (heap w)) nowhere w wl) as Kl.
  { eapply keeps_trans; [exact KA|].
    eapply keeps_weaken; [exact LA|done|].
    eapply keeps_trans; [exact KC|].
    change wl with (snd (Ok tt, wl)). rewrite <- Hl.
    apply forEachM_keeps; [|apply KC].
    intros entry w0 Hw0. apply Core_normalizeSystem_keeps; [lia|].
    intros l [= <-] Hlt. lia. }
  assert (length (heap w) <= length (heap wl)) as Ll by apply Kl.
  assert (ownSlots ((heap wl ++ [OObj []]) ++ [OObj F]) (VRef r)
          = ownSlots (heap w) (VRef r)) as Eo.
  { apply ownSlots_agree. intros l [= <-].
    rewrite <- app_assoc, lookup_app_l by lia. by apply (keeps_lookup _ _ _ _ Kl). }
  rewrite Eo in Eb.
  assert (ownSlots ((heap wl ++ [OObj []]) ++ [OObj F]) (VRef (S (length (heap wl))))
          = F) as EF.
  { simpl. rewrite lookup_app_r by (rewrite El; lia). by rewrite El, Nat.sub_diag. }
  rewrite EF in E2. injection E2 as <-.
  assert (length (heap wB) < length (heap wl)) as LnsL
    by (rewrite HwC, length_app in L'; simpl in L'; lia).
  exists (length (heap wB)), props', (length (heap wl)), rawEntries.
  split_and!; try done; try lia.
  - rewrite list_lookup_insert_ne by lia. rewrite <- app_assoc.
    by rewrite lookup_app_l by lia.
  - intros id. rewrite Hkeys. split; [intros [H|H]; [inversion H|done]|auto].
  - intros id slot Hin. destruct (Hfresh id slot Hin) as [[]|(t & -> & Lt & Hne)].
    exists t. split_and!; [done| |done]. destruct KC. lia.
  - apply list_lookup_insert_eq. rewrite !length_app. simpl. lia.
Qed.

Lemma Core_normalizeDataset_invalid env raw w :
  (forall l, raw <> VRef l) ->
  exists w',
    Core.normalizeDataset env raw w = (Ok (VRef (S (length (heap w)))), w') /\
    heap w' = heap w ++ [OObj []; OObj [("systems", Data (VRef (length (heap w))))]] /\
    trace w' = trace w ++ [LoggerCall LCritical invalidInputMessage;
                           Console LCritical
                             ("[DREADMARCH CRITICAL] " +:+ invalidInputMessage)] /\
    sameModule w w'.
Proof.
  intros Hraw. unfold Core.normalizeDataset.
  assert (negb (truthy raw) || negb (typeofObject raw) = true) as ->.
  { destruct raw as [| |b|n|s|l]; simpl; try done.
    - by destruct b.
    - by rewrite orb_true_r.
    - by rewrite orb_true_r.
    - by destruct (Hraw l). }
  unfold Core.Logger_critical, Logger.critical, tryCatch, bind, emit, newObject,
    alloc, ret, bind.
  cbn [fst snd map heap trace addEvent setHeap].
  rewrite ?length_app; cbn [length].
  replace (length (heap w) + 1) with (S (length (heap w))) by lia.
  eexists; split; [reflexivity|].
  cbn [fst snd map heap trace addEvent setHeap].
  rewrite <- ?app_assoc. by repeat split.
Qed.

Lemma allocatedSince_invalid n (h : list Obj) :
  n <= length h ->
  allocatedSince n (h ++ [OObj []; OObj [("systems", Data (VRef (length h)))]])
    (VRef (S (length h))).
Proof.
  intros Hn. exists (S (length h)), (length h), [].
  assert ((h ++ [OObj []; OObj [("systems", Data (VRef (length h)))]]) !! S (length h)
          = Some (OObj [("systems", Data (VRef (length h)))])) as E1.
  { rewrite lookup_app_r by lia.
    by replace (S (length h) - length h) with 1 by lia. }
  assert ((h ++ [OObj []; OObj [("systems", Data (VRef (length h)))]]) !! length h
          = Some (OObj [])) as E0.
  { rewrite lookup_app_r by lia. by rewrite Nat.sub_diag. }
  split_and!; try done; try lia.
  unfold readProp. cbn [ownSlots]. by rewrite E1.
Qed.

(** C9. The call writes to no object that existed before it: the input,
    the records under [raw.systems], the side tables hold what they held
    (and the module's variables are as they were).  The result, its
    [systems] object and the record of every system are new objects.
    Both normalisers. *)
Theorem normalize_leaves_input_untouched env raw w :
  wfHeap (heap w) = true ->
  closedVal (length (heap w)) raw = true ->
  (let out := normalizeDatasetSync env raw w in
   keeps (length (heap w)) nowhere w (snd out) /\
   forall res, fst out = Ok res ->
               allocatedSince (length (heap w)) (heap (snd out)) res) /\
  (let out := Core.normalizeDataset env raw w in
   keeps (length (heap w)) nowhere w (snd out) /\
   forall res, fst out = Ok res ->
               allocatedSince (length (heap w)) (heap (snd out)) res).
Proof.
  intros Hwf Hc. split.
  - split; [by apply normalizeDatasetSync_keeps|].
    intros res Hres.
    destruct (normalizeDatasetSync env raw w) as [o w'] eqn:E. simpl in Hres. subst o.
    simpl. destruct raw as [| | | | |r].
    1-5: match type of E with
         | normalizeDatasetSync _ ?v _ = _ =>
             destruct (normalizeDatasetSync_invalid env v w) as (w2 & E2 & Hh & _);
             [by intros l
             |rewrite E in E2; injection E2 as -> ->; rewrite Hh;
              by apply allocatedSince_invalid]
         end.
    simpl in Hc. apply Nat.ltb_lt in Hc.
    destruct (normalizeDatasetSync_Ok _ _ _ _ _ Hwf Hc E)
      as (nsl & erl & w1 & props & errs & rawEntries & Hn & Lns & Ler & Hns & Hg & Her
          & Hsub & Hall & Hfresh & -> & K & _ & Hres).
    pose proof (normalizeSystems_keeps (length (heap w)) nowhere env (VRef r) w
                  (Nat.le_refl _)) as K1.
    rewrite Hn in K1. cbn [snd] in K1.
    assert (nsl < length (heap w1)) as Lns1 by (by eapply lookup_lt_Some).
    exists (length (heap w1)), nsl, props. split_and!; try done.
    + apply K1.
    + unfold readProp. cbn [ownSlots]. rewrite Hres.
      rewrite assoc_withErrors by done. by rewrite setAll_one, assoc_assocSet_eq.
    + by rewrite (keeps_lookup _ _ _ _ K).
    + intros id slot Hin. destruct (Hfresh id slot Hin) as (t & -> & Lt & _). eauto.
  - split; [by apply Core_normalizeDataset_keeps|].
    intros res Hres.
    destruct (Core.normalizeDataset env raw w) as [o w'] eqn:E. simpl in Hres. subst o.
    simpl. destruct raw as [| | | | |r].
    1-5: match type of E with
         | Core.normalizeDataset _ ?v _ = _ =>
             destruct (Core_normalizeDataset_invalid env v w) as (w2 & E2 & Hh & _);
             [by intros l
             |rewrite E in E2; injection E2 as -> ->; rewrite Hh;
              by apply allocatedSince_invalid]
         end.
    simpl in Hc. apply Nat.ltb_lt in Hc.
    destruct (Core_normalizeDataset_Ok _ _ _ _ _ Hwf Hc E)
      as (nsl & props & t & rawEntries & Lns & Lt & Hns & _ & Hfresh & -> & _ & Hres).
    exists t, nsl, props. split_and!; try done; try lia.
    + unfold readProp. cbn [ownSlots]. rewrite Hres.
      by rewrite setAll_one, assoc_assocSet_eq.
    + intros id slot Hin. destruct (Hfresh id slot Hin) as (t' & -> & Lt' & _). eauto.
Qed.

Lemma normalize_leaves_input_untouched_witness :
  let raw := fst (build solDataset []) in
  let h := snd (build solDataset []) in
  let w := initialWorld h in
  wfHeap h = true /\ closedVal (length h) raw = true /\
  keeps (length h) nowhere w (snd (normalizeDatasetSync pageEnv raw w)) /\
  keeps (length h) nowhere w (snd (Core.normalizeDataset pageEnv raw w)).
Proof.
  assert (wfHeap (snd (build solDataset [])) = true) as Hwf by (vm_compute; reflexivity).
  assert (closedVal (length (snd (build solDataset []))) (fst (build solDataset []))
          = true) as Hc by (vm_compute; reflexivity).
  split; [exact Hwf|]. split; [exact Hc|].
  pose proof (normalize_leaves_input_untouched pageEnv (fst (build solDataset []))
                (initialWorld (snd (build solDataset []))) Hwf Hc) as [[K1 _] [K2 _]].
  split; [exact K1|exact K2].
Defined.

(** ** The cache in front of the normaliser *)

Lemma generateCacheKey_run raw w :
  exists key, generateCacheKey raw w = (Ok key, w).
Proof.
  unfold generateCacheKey, bind, getHeap.
  destruct (JSON_stringify (heap w) raw) as [key|e]; by eexists.
Qed.

Lemma cacheLookup_run cacheKey w :
  cacheLookup cacheKey w
  = (Ok (match cacheKey with
         | Some key => if usableKey cacheKey then assoc key (normalizationCache w)
                       else None
         | None => None
         end), w).
Proof.
  unfold cacheLookup. destruct cacheKey as [key|]; [|done].
  by destruct (usableKey (Some key)).
Qed.

Lemma cacheStore_run cacheKey v w :
  exists w', cacheStore cacheKey v w = (Ok tt, w') /\
             heap w' = heap w /\ trace w' = trace w /\
             normalizationCache w'
             = match cacheKey with
               | Some key => if usableKey cacheKey
                             then assocSet key v (normalizationCache w)
                             else normalizationCache w
               | None => normalizationCache w
               end.
Proof.
  unfold cacheStore. destruct cacheKey as [key|]; [|by eexists].
  unfold when. destruct (usableKey (Some key)); by eexists.
Qed.





(** ** The reverse lookup from system to sector *)

Lemma seen_bounded (seen : list nat) n :
  NoDup seen -> (forall l, l ∈ seen -> l < n) -> length seen <= n.
Proof.
  intros Hnd Hlt. transitivity (length (seq 0 n)); [|by rewrite length_seq].
  apply submseteq_length.
  apply NoDup_submseteq; [done|]. intros l Hl. apply elem_of_seq.
  specialize (Hlt l Hl). lia.
Qed.

(** With enough fuel the amount of fuel does not matter. *)
Lemma toStringFuel_fuel h : forall f1 f2 seen v,
  NoDup seen -> (forall l, l ∈ seen -> l < length h) ->
  length h < f1 + length seen -> length h < f2 + length seen ->
  toStringFuel f1 h seen v = toStringFuel f2 h seen v.
Proof.
  induction f1 as [|f1 IH]; intros f2 seen v Hnd Hlt H1 H2.
  - pose proof (seen_bounded seen (length h) Hnd Hlt). simpl in H1. lia.
  - destruct f2 as [|f2].
    { pose proof (seen_bounded seen (length h) Hnd Hlt). simpl in H2. lia. }
    destruct v as [| |b|n|s|l]; try done. simpl.
    destruct (h !! l) as [[ps|es]|] eqn:El; try done.
    destruct (bool_decide (l ∈ seen)) eqn:Es; [done|].
    apply bool_decide_eq_false in Es.
    f_equal. apply map_ext. intros e.
    assert (toStringFuel f1 h (l :: seen) e = toStringFuel f2 h (l :: seen) e) as E.
    { apply IH.
      - by apply NoDup_cons.
      - intros l' Hl'. apply elem_of_cons in Hl' as [->|Hl']; [|by apply Hlt].
        by eapply lookup_lt_Some.
      - simpl. lia.
      - simpl. lia. }
    by destruct e.
Qed.

(** Two heaps that agree below [length h] print a value of [h] alike. *)
Lemma toStringFuel_agree h h' : forall fuel seen v,
  wfHeap h = true -> closedVal (length h) v = true ->
  (forall l, l < length h -> h' !! l = h !! l) ->
  toStringFuel fuel h' seen v = toStringFuel fuel h seen v.
Proof.
  induction fuel as [|fuel IH]; intros seen v Hwf Hc Hag.
  - destruct v as [| |b|n|s|l]; try done. simpl.
    rewrite Hag by (by apply Nat.ltb_lt). done.
  - destruct v as [| |b|n|s|l]; try done. simpl.
    assert (l < length h) as Hl by (by apply Nat.ltb_lt).
    rewrite (Hag l Hl).
    destruct (h !! l) as [[ps|es]|] eqn:El; try done.
    destruct (bool_decide (l ∈ seen)); [done|].
    f_equal. apply map_ext_in. intros e He.
    pose proof (wfHeap_lookup _ _ _ Hwf El) as Ho. simpl in Ho.
    rewrite forallb_forall in Ho. specialize (Ho e He).
    rewrite (IH (l :: seen) e Hwf Ho Hag). done.
Qed.

Lemma toPropertyKey_stable h h' v :
  wfHeap h = true -> closedVal (length h) v = true ->
  length h <= length h' ->
  (forall l, l < length h -> h' !! l = h !! l) ->
  toPropertyKey h' v = toPropertyKey h v.
Proof.
  intros Hwf Hc Hlen Hag. unfold toPropertyKey.
  rewrite (toStringFuel_agree h h' _ _ _ Hwf Hc Hag).
  apply toStringFuel_fuel; simpl; try lia.
  - apply NoDup_nil_2.
  - intros l Hl. inversion Hl.
Qed.


Lemma extends_keeps h0 w w' :
  extends h0 (heap w) -> keeps (length h0) nowhere w w' -> extends h0 (heap w').
Proof.
  intros [L F] K. split; [destruct K; lia|].
  intros l Hl. rewrite (keeps_lookup _ _ _ _ K) by done. by apply F.
Qed.

Lemma extends_insert h0 h l o :
  extends h0 h -> length h0 <= l -> extends h0 (<[l:=o]> h).
Proof.
  intros [L F] Hl. split; [by rewrite length_insert|].
  intros l' Hl'. rewrite list_lookup_insert_ne by lia. by apply F.
Qed.

Lemma extends_app h0 h k : extends h0 h -> extends h0 (h ++ k).
Proof.
  intros [L F]. split; [rewrite length_app; lia|].
  intros l Hl. rewrite lookup_app_l by lia. by apply F.
Qed.

(** The inner loop: the elements of one sector list. *)
Lemma sector_inner_loop sbl name h0 : forall es w props,
  wfHeap h0 = true ->
  Forall (fun e => closedVal (length h0) e = true) es ->
  length h0 <= sbl ->
  extends h0 (heap w) ->
  heap w !! sbl = Some (OObj props) -> noGetter props ->
  exists w',
    forEachM (fun sysId =>
                h <- getHeap ;;
                setProp (VRef sbl) (toPropertyKey h sysId) (VStr name)) es w
    = (Ok tt, w') /\
    extends h0 (heap w') /\
    keeps sbl nowhere w w' /\
    length (heap w') = length (heap w) /\
    heap w' !! sbl
    = Some (OObj (setAll (map (fun sysId => (toPropertyKey h0 sysId, VStr name)) es)
                    props)) /\
    noGetter (setAll (map (fun sysId => (toPropertyKey h0 sysId, VStr name)) es)
                props).
Proof.
  induction es as [|e es IH]; intros w props Hwf Hc Hsb K Hl Hg.
  - exists w. split_and!; try done.
  - apply Forall_cons in Hc as [He Hc].
    simpl. unfold bind at 1. unfold bind at 1. cbn [getHeap fst snd].
    rewrite (setProp_run _ _ _ _ _ Hl Hg).
    assert (toPropertyKey (heap w) e = toPropertyKey h0 e) as ->.
    { destruct K. by apply toPropertyKey_stable. }
    assert (sbl < length (heap w)) as Lsb by (by eapply lookup_lt_Some).
    set (props1 := assocSet (toPropertyKey h0 e) (Data (VStr name)) props).
    set (w1 := setHeap (<[sbl:=OObj props1]> (heap w)) w).
    assert (extends h0 (heap w1)) as K1 by (by apply extends_insert).
    assert (heap w1 !! sbl = Some (OObj props1)) as Hl1
      by (by apply list_lookup_insert_eq).
    assert (noGetter props1) as Hg1 by (by apply noGetter_assocSet).
    destruct (IH w1 props1 Hwf Hc Hsb K1 Hl1 Hg1) as (w' & E & K' & F' & L' & Hl' & Hg').
    exists w'. rewrite E. split_and!; try done.
    + eapply keeps_trans; [|exact F'].
      split; [by unfold w1; rewrite heap_setHeap, length_insert|].
      split; [by repeat split|].
      intros l Hlt _. unfold w1. rewrite heap_setHeap.
      apply list_lookup_insert_ne. lia.
    + rewrite L'. unfold w1. by rewrite heap_setHeap, length_insert.
Qed.




Lemma listElements_closed h v :
  wfHeap h = true ->
  Forall (fun e => closedVal (length h) e = true) (listElements h v).
Proof.
  intros Hwf. destruct v as [| | | | |l]; simpl; try by constructor.
  destruct (h !! l) as [[ps|es]|] eqn:El; try by constructor.
  pose proof (wfHeap_lookup _ _ _ Hwf El) as Ho. simpl in Ho.
  rewrite forallb_forall in Ho. apply Forall_forall. intros e He.
  apply Ho. by apply list_elem_of_In.
Qed.

Lemma arrayForEach_Ok list (f : JsVal -> M unit) w w' :
  arrayForEach list f w = (Ok tt, w') ->
  exists l es, list = VRef l /\ heap w !! l = Some (OArr es) /\
               forEachM f es w = (Ok tt, w').
Proof.
  unfold arrayForEach. intros H.
  apply bind_Ok in H as (h & w1 & [= <- <-] & H).
  assert (forall v, (_ <- getProp v "forEach" ;; throw "forEach is not a function") w
                    <> (Ok tt, w')) as Hno.
  { intros v. unfold bind, getProp, throw.
    by destruct (readProp (heap w) v "forEach"). }
  destruct list as [| | | | |l]; try (by destruct (Hno _ H)).
  destruct (heap w !! l) as [[ps|es]|] eqn:E; try (by destruct (Hno _ H)).
  by exists l, es.
Qed.




(** ** The diagnostics do not steer the computation *)

Lemma sameButTrace_refl w : sameButTrace w w.
Proof. by repeat split. Qed.

Lemma sameButTrace_addEvent e w1 w2 :
  sameButTrace w1 w2 -> sameButTrace (addEvent e w1) w2.
Proof. intros H. exact H. Qed.

Lemma blind_ret {A} (a : A) : traceBlind (ret a).
Proof. by intros w1 w2 H. Qed.

Lemma blind_throw {A} msg : traceBlind (@throw A msg).
Proof. by intros w1 w2 H. Qed.

Lemma blind_bind {A B} (m : M A) (f : A -> M B) :
  traceBlind m -> (forall a, traceBlind (f a)) -> traceBlind (bind m f).
Proof.
  intros Hm Hf w1 w2 H. unfold bind. destruct (Hm w1 w2 H) as [E S].
  destruct (m w1) as [[a|e] w1'], (m w2) as [[a'|e'] w2']; simpl in *; try done.
  - injection E as <-. by apply Hf.
  - by injection E as <-.
Qed.

Lemma blind_tryCatch {A} (m : M A) (h : string -> M A) :
  traceBlind m -> (forall e, traceBlind (h e)) -> traceBlind (tryCatch m h).
Proof.
  intros Hm Hh w1 w2 H. unfold tryCatch. destruct (Hm w1 w2 H) as [E S].
  destruct (m w1) as [[a|e] w1'], (m w2) as [[a'|e'] w2']; simpl in *; try done.
  injection E as <-. by apply Hh.
Qed.

Lemma blind_emit e : traceBlind (emit e).
Proof. intros w1 w2 H. by split. Qed.

Lemma blind_getHeap : traceBlind getHeap.
Proof. intros w1 w2 H. split; [|done]. simpl. f_equal. apply H. Qed.

Lemma blind_getProp v k : traceBlind (getProp v k).
Proof. intros w1 w2 H. split; [|done]. simpl. f_equal. apply H. Qed.

Lemma blind_Object_entries v : traceBlind (Object_entries v).
Proof. intros w1 w2 H. split; [|done]. simpl. f_equal. apply H. Qed.

Lemma sameButTrace_setHeap h w1 w2 :
  sameButTrace w1 w2 -> sameButTrace (setHeap h w1) (setHeap h w2).
Proof. intros (_ & H). by split. Qed.

Lemma blind_alloc o : traceBlind (alloc o).
Proof.
  intros w1 w2 H. pose proof H as (Hh & _). unfold alloc. simpl. rewrite Hh.
  split; [done|]. by apply sameButTrace_setHeap.
Qed.

Lemma blind_setProp target k v : traceBlind (setProp target k v).
Proof.
  intros w1 w2 H. pose proof H as (Hh & _). unfold setProp. rewrite Hh.
  destruct target as [| | | | |l]; try done.
  destruct (heap w2 !! l) as [[ps|es]|]; try done.
  destruct (assoc k ps) as [[x|msg]|]; try done.
  all: split; [done|]; by apply sameButTrace_setHeap.
Qed.

Lemma blind_push arr v : traceBlind (push arr v).
Proof.
  intros w1 w2 H. pose proof H as (Hh & _). unfold push. rewrite Hh.
  destruct arr as [| | | | |l]; try done.
  destruct (heap w2 !! l) as [[ps|es]|]; try done.
  split; [done|]. by apply sameButTrace_setHeap.
Qed.

Lemma blind_forEachM {A} (f : A -> M unit) l :
  (forall x, traceBlind (f x)) -> traceBlind (forEachM f l).
Proof.
  intros Hf. induction l as [|x l IH]; simpl; [apply blind_ret|].
  apply blind_bind; [apply Hf|]. intros _. apply IH.
Qed.

Lemma blind_assignSlots target ps : traceBlind (assignSlots target ps).
Proof.
  induction ps as [|[k [v|msg]] ps IH]; simpl.
  - apply blind_ret.
  - apply blind_bind; [apply blind_setProp|]. intros _. apply IH.
  - apply blind_throw.
Qed.

Ltac blind :=
  repeat match goal with
  | |- traceBlind (bind _ _) => apply blind_bind; [|intros ?]
  | |- traceBlind (tryCatch _ _) => apply blind_tryCatch; [|intros ?]
  | |- traceBlind (ret _) => apply blind_ret
  | |- traceBlind (throw _) => apply blind_throw
  | |- traceBlind (emit _) => apply blind_emit
  | |- traceBlind getHeap => apply blind_getHeap
  | |- traceBlind (getProp _ _) => apply blind_getProp
  | |- traceBlind (Object_entries _) => apply blind_Object_entries
  | |- traceBlind (alloc _) => apply blind_alloc
  | |- traceBlind (setProp _ _ _) => apply blind_setProp
  | |- traceBlind (push _ _) => apply blind_push
  | |- traceBlind (assignSlots _ _) => apply blind_assignSlots
  | |- traceBlind (if ?b then _ else _) => destruct b
  | |- traceBlind (match ?x with _ => _ end) => destruct x
  | |- traceBlind (let (_, _) := ?x in _) => destruct x
  end.

Lemma blind_newObject ps : traceBlind (newObject ps).
Proof. unfold newObject. blind. Qed.

Lemma blind_newArray es : traceBlind (newArray es).
Proof. unfold newArray. blind. Qed.

Lemma blind_orEmptyObject v : traceBlind (orEmptyObject v).
Proof. unfold orEmptyObject. blind. apply blind_newObject. Qed.

Lemma blind_orEmptyArray v : traceBlind (orEmptyArray v).
Proof. unfold orEmptyArray. blind. apply blind_newArray. Qed.

Lemma blind_Object_assign t s1 s2 : traceBlind (Object_assign t s1 s2).
Proof. unfold Object_assign, assignFrom. blind. Qed.

Lemma blind_warn env msg : traceBlind (Logger.warn env msg).
Proof. unfold Logger.warn, when. blind. Qed.

Lemma blind_info env msg : traceBlind (Logger.info env msg).
Proof. unfold Logger.info, when. blind. Qed.

Lemma blind_validate env c msg : traceBlind (Logger.validate env c msg).
Proof. unfold Logger.validate, when. blind. apply blind_warn. Qed.

Lemma blind_fillFrom x table id : traceBlind (fillFrom x table id).
Proof. unfold fillFrom. blind. Qed.

Lemma blind_arrayForEach list (f : JsVal -> M unit) :
  (forall x, traceBlind (f x)) -> traceBlind (arrayForEach list f).
Proof.
  intros Hf. unfold arrayForEach. apply blind_bind; [apply blind_getHeap|].
  intros h. blind. by apply blind_forEachM.
Qed.

Lemma blind_buildSectorBySystem sectorsSrc : traceBlind (buildSectorBySystem sectorsSrc).
Proof.
  unfold buildSectorBySystem. blind.
  - apply blind_newObject.
  - apply blind_forEachM. intros entry. blind; [apply blind_orEmptyArray|].
    apply blind_arrayForEach. intros sysId. blind.
Qed.

Lemma blind_mergedSystem env px gr sb id sys :
  traceBlind (mergedSystem env px gr sb id sys).
Proof.
  unfold mergedSystem. blind.
  all: try apply blind_fillFrom.
  all: try apply blind_validate.
  all: try apply blind_newObject.
  all: apply blind_Object_assign.
Qed.

Lemma blind_normalizeSystem env px gr sb ns er entry :
  traceBlind (normalizeSystem env px gr sb ns er entry).
Proof.
  unfold normalizeSystem, mergeSystem, whenLogger, when. blind.
  all: try apply blind_orEmptyObject.
  all: try apply blind_mergedSystem.
  all: try apply blind_newObject.
  all: apply blind_warn.
Qed.

Lemma blind_normalizeSystems env raw : traceBlind (normalizeSystems env raw).
Proof.
  unfold normalizeSystems. blind.
  all: try apply blind_orEmptyObject.
  all: try apply blind_buildSectorBySystem.
  all: try apply blind_newObject.
  all: try apply blind_newArray.
  all: apply blind_forEachM; intros entry; apply blind_normalizeSystem.
Qed.

Lemma blind_normalizeDatasetSync env raw : traceBlind (normalizeDatasetSync env raw).
Proof.
  unfold normalizeDatasetSync, when. blind.
  all: try apply blind_warn.
  all: try apply blind_newObject.
  all: try apply blind_normalizeSystems.
  all: apply blind_Object_assign.
Qed.

Lemma blind_cacheStore cacheKey v : traceBlind (cacheStore cacheKey v).
Proof.
  unfold cacheStore, when. destruct cacheKey as [key|]; [|apply blind_ret].
  destruct (usableKey (Some key)); [|apply blind_ret].
  intros w1 w2 H. unfold cacheSet. simpl. split; [done|].
  destruct H as (Hh & Hc & H). rewrite Hc. by repeat split; try apply H.
Qed.

Lemma whenLogger_info_run env msg w :
  exists w', whenLogger env (Logger.info env msg) w = (Ok tt, w') /\
             sameButTrace w w'.
Proof.
  unfold whenLogger, when, Logger.info, bind, emit, ret, when.
  destruct (hasLogger env), (DM4_DEBUG env); eexists; split; try reflexivity;
    by repeat split.
Qed.

Lemma initWorker_unsupported env w :
  workerSupport env <> WorkerAvailable -> worker w = false ->
  exists w', initWorker env w = (Ok tt, w') /\ sameButTrace w w' /\ worker w' = false.
Proof.
  intros Hs Hw. unfold initWorker. rewrite Hw.
  destruct (workerSupport env) as [|msg|]; [by exists w| |done].
  unfold whenLogger, when, Logger.warn, bind, emit, ret, when.
  destruct (hasLogger env), (DM4_DEBUG env); eexists; split; try reflexivity;
    by repeat split.
Qed.

(** C8. Where no worker can be had ([Worker] is undefined, or its
    constructor throws), the promise of the asynchronous call is settled
    when the call returns: resolved with the value that the synchronous call
    returns on the same state, or rejected with what that call throws.  The
    two calls leave the same heap and the same cache: same key, same
    insertion.  Only the diagnostics differ. *)
Theorem async_fallback_agrees_with_sync env raw w :
  workerSupport env <> WorkerAvailable -> worker w = false ->
  let sync := normalizeDataset env raw false w in
  let async := normalizeDataset env raw true w in
  sameButTrace (snd sync) (snd async) /\
  match fst sync with
  | Ok (Dataset v) => fst async = Ok (Promised (Resolved v))
  | Throw e => fst async = Ok (Promised (Rejected e))
  | Ok (Promised _) => False
  end.
Proof.
  intros Hs Hw. cbv zeta.
  destruct (generateCacheKey_run raw w) as (key & Hk).
  destruct (whenLogger_info_run env "Cache hit for dataset normalization" w)
    as (wh & Hh & Sh).
  destruct (initWorker_unsupported env w Hs Hw) as (w1 & Hi & S1 & Hw1).
  destruct (whenLogger_info_run env
              "Worker not available, using synchronous normalization" w1)
    as (w2 & Hf & S2).
  assert (sameButTrace w w2) as S12.
  { destruct S1 as (? & ? & ? & ? & ? & ? & ?), S2 as (? & ? & ? & ? & ? & ? & ?).
    repeat split; congruence. }
  unfold normalizeDataset, normalizeDatasetAsync, syncFallback, settle, bind.
  rewrite Hk, cacheLookup_run.
  destruct (match key with
            | Some key0 =>
                if usableKey key then assoc key0 (normalizationCache w) else None
            | None => None
            end) as [result|].
  - rewrite Hh. simpl. split; [apply sameButTrace_refl|done].
  - rewrite Hw, Hi, Hw1, Hf.
    destruct (blind_normalizeDatasetSync env raw w w2 S12) as [E S].
    destruct (normalizeDatasetSync env raw w) as [[v|e] w'],
             (normalizeDatasetSync env raw w2) as [[v2|e2] w2'];
      simpl in E, S; try done.
    + injection E as <-.
      destruct (blind_cacheStore key v w' w2' S) as [E' S'].
      destruct (cacheStore_run key v w') as (w3 & H3 & _).
      destruct (cacheStore_run key v w2') as (w4 & H4 & _).
      rewrite H3, H4 in *. simpl in *. done.
    + injection E as <-. done.
Qed.

Lemma async_fallback_agrees_with_sync_witness :
  let raw := fst (build solDataset []) in
  let w := initialWorld (snd (build solDataset [])) in
  let sync := normalizeDataset pageEnv raw false w in
  let async := normalizeDataset pageEnv raw true w in
  workerSupport pageEnv <> WorkerAvailable /\ worker w = false /\
  sameButTrace (snd sync) (snd async) /\
  match fst sync with
  | Ok (Dataset v) => fst async = Ok (Promised (Resolved v))
  | Throw e => fst async = Ok (Promised (Rejected e))
  | Ok (Promised _) => False
  end.
Proof.
  assert (workerSupport pageEnv <> WorkerAvailable) as Hs by discriminate.
  assert (worker (initialWorld (snd (build solDataset []))) = false) as Hw
    by reflexivity.
  split; [exact Hs|]. split; [exact Hw|].
  exact (async_fallback_agrees_with_sync pageEnv (fst (build solDataset []))
           (initialWorld (snd (build solDataset []))) Hs Hw).
Defined.

(** ** The cache key *)

Lemma pretty_N_go_nonempty x s : s <> "" -> pretty_N_go x s <> "".
Proof.
  revert s. induction (N.lt_wf_0 x) as [x _ IH]; intros s Hs.
  assert (x = 0 \/ 0 < x)%N as [->|Hx] by lia.
  - by rewrite pretty_N_go_0.
  - rewrite pretty_N_go_step by done. apply IH; [|done].
    by apply N.div_lt.
Qed.

Lemma pretty_Z_nonempty (n : Z) : pretty n <> "".
Proof.
  destruct n as [|p|p]; [done| |done].
  unfold pretty, pretty_Z, pretty, pretty_positive, pretty, pretty_N.
  destruct (decide (N.pos p = 0%N)) as [|_]; [done|].
  rewrite pretty_N_go_step by lia. by apply pretty_N_go_nonempty.
Qed.

(** [JSON.stringify] never yields the empty string: every key it yields
    passes the test [if (cacheKey)]. *)
Lemma serialize_nonempty fuel h seen v s :
  serialize fuel h seen v = Ok (Some s) -> s <> "".
Proof.
  destruct v as [| |[]|n|t|l]; destruct fuel as [|f]; simpl;
    try (by intros [= <-]); try (intros [= <-]; apply pretty_Z_nonempty).
  - by destruct (bool_decide (l ∈ seen)).
  - destruct (bool_decide (l ∈ seen)); [done|].
    destruct (h !! l) as [[ps|es]|].
    + destruct (serializeMembers _ ps); [|done]. by intros [= <-].
    + destruct (serializeElems _ es); [|done]. by intros [= <-].
    + by intros [= <-].
Qed.

Lemma usableKey_JSON h v s : JSON_stringify h v = Ok (Some s) -> usableKey (Some s) = true.
Proof.
  intros H. apply serialize_nonempty in H. simpl.
  destruct (String.eqb_spec s ""); [done|done].
Qed.






Lemma generateCacheKey_Some raw w key :
  generateCacheKey raw w = (Ok (Some key), w) ->
  JSON_stringify (heap w) raw = Ok (Some key).
Proof.
  unfold generateCacheKey, bind, getHeap, ret.
  destruct (JSON_stringify (heap w) raw) as [k|e]; by intros [= <-].
Qed.

Lemma generateCacheKey_JSON raw w key :
  JSON_stringify (heap w) raw = Ok key ->
  generateCacheKey raw w = (Ok key, w).
Proof. unfold generateCacheKey, bind, getHeap, ret. by intros ->. Qed.



(** ** The key derivation of the specification, for comparison

    The specification words a derivation by size: the full serialised
    content below a threshold of systems, and from the threshold on a
    summary of fixed size.  It is written out here after those words, next
    to [generateCacheKey], which is the code's. *)

(** C6, as the code has it.  Whatever the number of systems, the key of
    [raw] is the text [JSON.stringify(raw)], and there is none when that
    throws or yields [undefined]; the call is served from the cache exactly
    when the cache has an entry under that text, and stores its result under
    that text otherwise.  No text is rejected by the test [if (cacheKey)]. *)
Theorem cache_key_is_serialized_content env raw w :
  let key := match JSON_stringify (heap w) raw with
             | Ok key => key
             | Throw _ => None
             end in
  generateCacheKey raw w = (Ok key, w) /\
  normalizeDataset env raw false w = servedUnder env raw key w.
Proof.
  cbv zeta. split.
  { unfold generateCacheKey, bind, getHeap, ret.
    by destruct (JSON_stringify (heap w) raw). }
  unfold normalizeDataset, servedUnder, bind.
  unfold generateCacheKey at 1. unfold bind, getHeap, ret.
  destruct (JSON_stringify (heap w) raw) as [[key|]|e] eqn:Ej.
  - rewrite cacheLookup_run, (usableKey_JSON _ _ _ Ej).
    destruct (assoc key (normalizationCache w)) as [result|]; [done|].
    destruct (normalizeDatasetSync env raw w) as [[v|e] w']; [|done].
    unfold cacheStore, when. by rewrite (usableKey_JSON _ _ _ Ej).
  - rewrite cacheLookup_run.
    by destruct (normalizeDatasetSync env raw w) as [[v|e2] w'].
  - rewrite cacheLookup_run.
    by destruct (normalizeDatasetSync env raw w) as [[v|e2] w'].
Qed.

(** C6, as the specification has it, fails at the threshold.  Two datasets
    of a hundred systems each, alike in count, in their first ten ids and in
    their pixel tag, so that the specification gives them one key; the code
    gives them two keys, does not serve the second from the entry of the
    first, and ends with two entries. *)
Lemma large_datasets_are_keyed_by_content :
  let a := build (manySystems 100 "Hoth") [] in
  let b := build (manySystems 100 "Endor") (snd a) in
  let w := initialWorld (snd b) in
  let first := normalizeDataset quietEnv (fst a) false w in
  let second := normalizeDataset quietEnv (fst b) false (snd first) in
  length (systemsKeys (heap w) (fst a)) = 100 /\
  length (systemsKeys (heap w) (fst b)) = 100 /\
  spec_cacheKey (heap w) (fst a) = spec_cacheKey (heap w) (fst b) /\
  spec_cacheKey (heap w) (fst a)
  = Some (Structural (spec_fingerprint (heap w) (fst a))) /\
  String.eqb (keyOf (fst (generateCacheKey (fst a) w)))
             (keyOf (fst (generateCacheKey (fst b) w))) = false /\
  bool_decide (datasetOf (fst second) = datasetOf (fst first)) = false /\
  length (normalizationCache (snd second)) = 2.
Proof. vm_compute. by split_and!. Qed.

(** ** What became of each system *)

Lemma recordsHold_agree h h' : forall ids fates,
  (forall l o, h !! l = Some o -> h' !! l = Some o) ->
  recordsHold h ids fates -> recordsHold h' ids fates.
Proof.
  induction ids as [|id ids IH]; intros [|[t|message record] fates] Hag H;
    simpl in *; try done.
  - by apply IH.
  - destruct H as [Hr H]. split; [by apply Hag|by apply IH].
Qed.








(** ** The merged record in terms of what was there before the loop *)

Lemma extends_lookup h0 h v l :
  extends h0 h -> closedVal (length h0) v = true -> v = VRef l -> h !! l = h0 !! l.
Proof.
  intros [_ F] Hc ->. apply F. simpl in Hc. by apply Nat.ltb_lt.
Qed.





(** ** The side tables in terms of the input *)

Lemma extends_trans h0 h1 h2 : extends h0 h1 -> extends h1 h2 -> extends h0 h2.
Proof.
  intros [L1 F1] [L2 F2]. split; [lia|]. intros l Hl.
  rewrite F2 by lia. by apply F1.
Qed.

Lemma keeps_extends w w' :
  keeps (length (heap w)) nowhere w w' -> extends (heap w) (heap w').
Proof.
  intros K. split; [apply K|]. intros l Hl. by apply (keeps_lookup _ _ _ _ K).
Qed.


Lemma readProp_extends h0 h v k :
  extends h0 h -> closedVal (length h0) v = true -> readProp h v k = readProp h0 v k.
Proof. intros K Hc. apply readProp_agree. intros l. by apply extends_lookup. Qed.









(** ** Examples for the resolution of the three fields *)










(** ** What passes through unchanged *)
















(** ** When the call returns *)

Lemma bind_run {A B} (m : M A) (k : A -> M B) w a w1 :
  m w = (Ok a, w1) -> bind m k w = k a w1.
Proof. unfold bind. by intros ->. Qed.



Lemma readSlots_Ok_dataOnly ps es : readSlots ps = Ok es -> dataOnly ps = true.
Proof.
  revert es. induction ps as [|[k [v|msg]] ps IH]; intros es H; simpl in *.
  - done.
  - destruct (readSlots ps) as [r|e]; [|done]. by eapply IH.
  - done.
Qed.


Lemma isArray_extends h0 h v :
  extends h0 h -> closedVal (length h0) v = true -> isArray h v = isArray h0 v.
Proof.
  intros K Hc. destruct v as [| | | | |l]; try done. simpl.
  by rewrite (extends_lookup h0 h (VRef l) l K Hc).
Qed.










(** When the loop over the sectors returns, every list was an array or
    falsy. *)
Lemma sector_outer_lists sbl h0 : forall entries w props w',
  wfHeap h0 = true ->
  Forall (fun kv => closedVal (length h0) (snd kv) = true) entries ->
  length h0 <= sbl ->
  extends h0 (heap w) ->
  heap w !! sbl = Some (OObj props) -> noGetter props ->
  forEachM
    (fun entry : string * JsVal =>
       list <- orEmptyArray (snd entry) ;;
       arrayForEach list
         (fun sysId =>
            h <- getHeap ;;
            setProp (VRef sbl) (toPropertyKey h sysId) (VStr (fst entry))))
    entries w = (Ok tt, w') ->
  forallb (fun kv => arrayOrFalsy h0 (snd kv)) entries = true.
Proof.
  induction entries as [|[name lst] entries IH]; intros w props w' Hwf Hc Hsb K Hl Hg H.
  - done.
  - pose proof Hc as Hc'. apply Forall_cons in Hc' as [Hlst Hc']. simpl in Hlst.
    simpl. apply andb_true_iff.
    pose proof H as H'. simpl in H'.
    apply bind_Ok in H' as ([] & w2 & H1 & H').
    apply bind_Ok in H1 as (list & w1 & Ho & H1). cbn [fst snd] in *.
    assert (sbl < length (heap w)) as Lsb by (by eapply lookup_lt_Some).
    assert (arrayOrFalsy h0 lst = true /\
            exists es,
              forEachM (fun sysId =>
                          h <- getHeap ;;
                          setProp (VRef sbl) (toPropertyKey h sysId) (VStr name))
                es w1 = (Ok tt, w2) /\
              Forall (fun e => closedVal (length h0) e = true) es /\
              extends h0 (heap w1) /\ heap w1 !! sbl = Some (OObj props))
      as (Ha & es & Hin & Hes & K1 & Hl1).
    { apply arrayForEach_Ok in H1 as (l & es & -> & El & H1).
      unfold arrayOrFalsy.
      apply orEmptyArray_inv in Ho as [(Ht & <- & ->)|(Ht & [= ->] & ->)].
      - rewrite Ht. simpl in Hlst. apply Nat.ltb_lt in Hlst.
        assert (heap w !! l = h0 !! l) as El' by (by apply K).
        rewrite El in El'. simpl. rewrite <- El'. split; [done|].
        exists es. split_and!; try done.
        pose proof (listElements_closed h0 (VRef l) Hwf) as Hcl.
        simpl in Hcl. by rewrite <- El' in Hcl.
      - rewrite Ht. split; [done|]. rewrite heap_setHeap in El.
        rewrite lookup_app_r in El by lia. rewrite Nat.sub_diag in El.
        injection El as <-. exists []. split_and!; try done.
        + rewrite heap_setHeap. by apply extends_app.
        + rewrite heap_setHeap. by rewrite lookup_app_l by lia. }
    split; [done|].
    destruct (sector_inner_loop sbl name h0 es w1 props Hwf Hes Hsb K1 Hl1 Hg)
      as (w2' & E & K2 & _ & _ & Hl2 & Hg2).
    rewrite Hin in E. injection E as <-.
    by apply (IH w2 _ w' Hwf Hc' Hsb K2 Hl2 Hg2 H').
Qed.

Lemma buildSectorBySystem_lists h0 sectorsSrc w sb w' :
  wfHeap h0 = true -> extends h0 (heap w) ->
  (forall entries, readEntries (heap w) sectorsSrc = Ok entries ->
                   Forall (fun kv => closedVal (length h0) (snd kv) = true) entries) ->
  buildSectorBySystem sectorsSrc w = (Ok sb, w') ->
  exists entries,
    readEntries (heap w) sectorsSrc = Ok entries /\
    forallb (fun kv => arrayOrFalsy h0 (snd kv)) entries = true.
Proof.
  intros Hwf K Hce H. unfold buildSectorBySystem in H.
  apply bind_Ok in H as (sb' & w1 & H1 & H). apply newObject_inv in H1 as [-> ->].
  apply bind_Ok in H as (entries & w2 & H2 & H). injection H2 as H2 <-.
  apply bind_Ok in H as ([] & w3 & H3 & [= <- <-]).
  rewrite ?heap_setHeap in H2. cbn [map] in *.
  assert (readEntries (heap w) sectorsSrc = Ok entries) as He.
  { rewrite <- H2. destruct sectorsSrc as [| |b|n|s|l]; try done.
    unfold readEntries, ownSlots.
    destruct (decide (l < length (heap w))) as [Hl|Hl].
    - by rewrite lookup_app_l.
    - rewrite (lookup_ge_None_2 (heap w)) by lia.
      destruct (decide (l = length (heap w))) as [->|Hne].
      + rewrite lookup_app_r by lia. by rewrite Nat.sub_diag.
      + rewrite lookup_ge_None_2; [done|]. rewrite length_app. simpl. lia. }
  exists entries. split; [done|].
  assert (extends h0 (heap (setHeap (heap w ++ [OObj []]) w))) as K0.
  { rewrite heap_setHeap. by apply extends_app. }
  assert (heap (setHeap (heap w ++ [OObj []]) w) !! length (heap w) = Some (OObj []))
    as Hl0.
  { rewrite heap_setHeap, lookup_app_r by lia. by rewrite Nat.sub_diag. }
  assert (length h0 <= length (heap w)) as L0 by apply K.
  exact (sector_outer_lists (length (heap w)) h0 entries _ [] w3 Hwf (Hce _ He) L0 K0
           Hl0 noGetter_nil H3).
Qed.

(** What [raw.sectors || {}] is at a state that holds the input unchanged. *)
Lemma sectorsSrc_entries h sectors0 raw w sectorsSrc wS entries :
  wfHeap h = true -> extends h (heap w) ->
  readProp h raw "sectors" = Ok sectors0 ->
  orEmptyObject sectors0 w = (Ok sectorsSrc, wS) ->
  readEntries (heap wS) sectorsSrc = Ok entries ->
  entries = sectorEntries h raw /\
  Forall (fun kv => closedVal (length h) (snd kv) = true) entries.
Proof.
  intros Hwf K Hse0 HS He.
  pose proof (readProp_closed _ _ _ _ Hwf Hse0) as Hcs.
  unfold sectorEntries. rewrite Hse0. cbn [returned].
  destruct (orEmptyObject_run sectors0 w) as (t' & w' & E & _ & _ & _ & Hcase).
  rewrite HS in E. injection E as <- <-.
  destruct Hcase as [(Ht & -> & ->)|(Ht & -> & Hh)]; rewrite Ht.
  - assert (readEntries (heap w) sectors0 = readEntries h sectors0) as Ea.
    { apply readEntries_agree. intros l. by apply extends_lookup. }
    rewrite Ea in He. rewrite He. split; [done|]. by eapply readEntries_closed.
  - unfold readEntries, ownSlots in He. rewrite Hh, lookup_app_r in He by lia.
    rewrite Nat.sub_diag in He. injection He as <-. by split.
Qed.

Lemma normalizeSystems_lists env raw w ns er w1 :
  wfHeap (heap w) = true -> closedVal (length (heap w)) raw = true ->
  normalizeSystems env raw w = (Ok (ns, er), w1) ->
  forallb (fun kv => arrayOrFalsy (heap w) (snd kv)) (sectorEntries (heap w) raw) = true.
Proof.
  intros Hwf Hraw H. unfold normalizeSystems in H.
  apply bind_Ok in H as (systems0 & wa & Ha & H). apply getProp_Ok in Ha as [_ ->].
  apply bind_Ok in H as (systemsSrc & wA & HA & H).
  pose proof (orEmptyObject_keeps (length (heap w)) nowhere systems0 w (Nat.le_refl _))
    as KA. rewrite HA in KA. cbn [snd] in KA. apply keeps_extends in KA.
  apply bind_Ok in H as (pixels0 & wb & Hb & H). apply getProp_Ok in Hb as [_ ->].
  apply bind_Ok in H as (px & wP & HP & H).
  assert (extends (heap wA) (heap wP)) as KP.
  { apply keeps_extends. change wP with (snd (Ok px, wP)). rewrite <- HP.
    destruct (truthy pixels0); frame. }
  apply bind_Ok in H as (grid0 & wc & Hc & H). apply getProp_Ok in Hc as [_ ->].
  apply bind_Ok in H as (gr & wG & HG & H).
  pose proof (orEmptyObject_keeps (length (heap wP)) nowhere grid0 wP (Nat.le_refl _))
    as KG. rewrite HG in KG. cbn [snd] in KG. apply keeps_extends in KG.
  assert (extends (heap w) (heap wG)) as KwG.
  { eapply extends_trans; [exact KA|]. by eapply extends_trans. }
  apply bind_Ok in H as (sectors0 & wd & Hd & H). apply getProp_Ok in Hd as [Hse0 ->].
  rewrite (readProp_extends (heap w)) in Hse0 by done.
  apply bind_Ok in H as (sectorsSrc & wS & HS & H).
  pose proof (orEmptyObject_keeps (length (heap wG)) nowhere sectors0 wG (Nat.le_refl _))
    as KS. rewrite HS in KS. cbn [snd] in KS. apply keeps_extends in KS.
  assert (extends (heap w) (heap wS)) as KwS by (by eapply extends_trans).
  apply bind_Ok in H as (sb & wB & HB & _).
  destruct (buildSectorBySystem_lists (heap w) sectorsSrc wS sb wB Hwf KwS)
    as (entries & He & Hall); [|done|].
  { intros entries He.
    by apply (sectorsSrc_entries (heap w) sectors0 raw wG sectorsSrc wS entries). }
  by destruct (sectorsSrc_entries (heap w) sectors0 raw wG sectorsSrc wS entries
                 Hwf KwG Hse0 HS He) as [<- _].
Qed.

(** X5. A sector whose list is neither an array nor falsy (a string, a
    number, a plain object) makes the whole call throw: the loop over the
    sectors is outside the [try] that guards the systems.  With the cache
    in front the call throws as well, unless the very same text was cached
    before. *)
Theorem malformed_sector_list_throws env r w name lst :
  wfHeap (heap w) = true -> r < length (heap w) ->
  In (name, lst) (sectorEntries (heap w) (VRef r)) ->
  arrayOrFalsy (heap w) lst = false ->
  (exists msg w', normalizeDatasetSync env (VRef r) w = (Throw msg, w')) /\
  (normalizationCache w = [] ->
   exists msg w', normalizeDataset env (VRef r) false w = (Throw msg, w')).
Proof.
  intros Hwf Hr Hin Hbad.
  assert (closedVal (length (heap w)) (VRef r) = true) as Hraw
    by (by apply Nat.ltb_lt).
  assert (exists msg w', normalizeDatasetSync env (VRef r) w = (Throw msg, w'))
    as (msg & w' & E).
  { destruct (normalizeDatasetSync env (VRef r) w) as [[res|msg] w'] eqn:E;
      [|by eexists _, _].
    exfalso. unfold normalizeDatasetSync in E. cbn [truthy typeofObject negb orb] in E.
    apply bind_Ok in E as ([ns er] & w1 & Hn & _).
    pose proof (normalizeSystems_lists _ _ _ _ _ _ Hwf Hraw Hn) as Hall.
    rewrite forallb_forall in Hall. specialize (Hall _ Hin). simpl in Hall.
    congruence. }
  split; [by eexists _, _|].
  intros Hcache. unfold normalizeDataset.
  destruct (generateCacheKey_run (VRef r) w) as (key & Hk).
  rewrite (bind_run _ _ _ _ _ Hk), (bind_run _ _ _ _ _ (cacheLookup_run _ _)).
  rewrite Hcache.
  assert (match key with
          | Some key0 => if usableKey key then assoc key0 [] else None
          | None => None
          end = @None JsVal) as ->.
  { destruct key; [|done]. by destruct (usableKey _). }
  unfold bind. rewrite E. by eexists _, _.
Qed.

Lemma malformed_sector_list_throws_witness :
  let w := initialWorld (snd (build stringSectorDataset [])) in
  (wfHeap (heap w) = true /\ 3 < length (heap w) /\
   fst (build stringSectorDataset []) = VRef 3 /\
   In ("core", VStr "sol") (sectorEntries (heap w) (VRef 3)) /\
   arrayOrFalsy (heap w) (VStr "sol") = false) /\
  (exists msg w', normalizeDatasetSync quietEnv (VRef 3) w = (Throw msg, w')) /\
  (normalizationCache w = [] ->
   exists msg w', normalizeDataset quietEnv (VRef 3) false w = (Throw msg, w')).
Proof.
  cbv zeta.
  set (w := initialWorld (snd (build stringSectorDataset []))).
  assert (wfHeap (heap w) = true) as Hwf by (vm_compute; reflexivity).
  assert (3 < length (heap w)) as Hr by (vm_compute; lia).
  assert (In ("core", VStr "sol") (sectorEntries (heap w) (VRef 3))) as Hin
    by (vm_compute; left; reflexivity).
  assert (arrayOrFalsy (heap w) (VStr "sol") = false) as Hbad
    by (vm_compute; reflexivity).
  split.
  { split; [exact Hwf|]. split; [exact Hr|]. split; [vm_compute; reflexivity|].
    split; [exact Hin|exact Hbad]. }
  exact (malformed_sector_list_throws quietEnv 3 w "core" (VStr "sol") Hwf Hr Hin Hbad).
Defined.

(** ** The cache *)

Lemma serializeMembers_throw go ps :
  (exists kv, In kv ps /\ exists v m, snd kv = Data v /\ go v = Throw m) ->
  exists m, serializeMembers go ps = Throw m.
Proof.
  induction ps as [|[k [v|msg]] ps IH]; intros (kv & Hin & v' & m & Hv & Hgo).
  - inversion Hin.
  - simpl. destruct (go v) as [o|m'] eqn:Eg; [|by eexists].
    destruct Hin as [<-|Hin].
    + simpl in Hv. injection Hv as <-. congruence.
    + destruct IH as (m' & ->); [by exists kv; eauto|]. by eexists.
  - simpl. by eexists.
Qed.

Lemma serializeElems_throw go es :
  (exists v m, In v es /\ go v = Throw m) ->
  exists m, serializeElems go es = Throw m.
Proof.
  induction es as [|e es IH]; intros (v & m & Hin & Hgo).
  - inversion Hin.
  - simpl. destruct (go e) as [o|m'] eqn:Eg; [|by eexists].
    destruct Hin as [<-|Hin]; [congruence|].
    destruct IH as (m' & ->); [by eauto|]. by eexists.
Qed.

Lemma serialize_seen fuel h seen l :
  l ∈ seen -> exists m, serialize fuel h seen (VRef l) = Throw m.
Proof.
  intros Hin. destruct fuel; simpl; rewrite bool_decide_eq_true_2 by done;
    by eexists.
Qed.

Lemma JSON_stringify_self h l :
  containsSelf h l = true -> exists m, JSON_stringify h (VRef l) = Throw m.
Proof.
  unfold containsSelf, JSON_stringify. intros H. simpl.
  destruct (h !! l) as [[ps|es]|] eqn:El; [| |done].
  - apply existsb_exists in H as (kv & Hin & Hkv). apply bool_decide_eq_true in Hkv.
    destruct (serializeMembers_throw (serialize (length h) h [l]) ps) as (m & ->);
      [|by eexists].
    exists kv. split; [done|].
    destruct (serialize_seen (length h) h [l] l) as (m & Hm);
      [apply list_elem_of_here|].
    by exists (VRef l), m.
  - apply existsb_exists in H as (e & Hin & He). apply bool_decide_eq_true in He.
    subst e.
    destruct (serializeElems_throw (serialize (length h) h [l]) es) as (m & ->);
      [|by eexists].
    destruct (serialize_seen (length h) h [l] l) as (m & Hm);
      [apply list_elem_of_here|].
    by exists (VRef l), m.
Qed.

Lemma normalizeDatasetSync_module env raw w :
  sameModule w (snd (normalizeDatasetSync env raw w)).
Proof.
  apply (normalizeDatasetSync_keeps (length (heap w)) nowhere env raw w
           (Nat.le_refl _)).
Qed.

(** X6. A dataset that has itself among its members (as in
    [dataset.self = dataset]) has no key: [JSON.stringify] throws, the call
    hands back what the plain normalisation gives, and the cache is left as
    it was. *)
Theorem self_containing_dataset_is_never_cached env l w :
  containsSelf (heap w) l = true ->
  let out := normalizeDataset env (VRef l) false w in
  let sync := normalizeDatasetSync env (VRef l) w in
  generateCacheKey (VRef l) w = (Ok None, w) /\
  fst out = match fst sync with
            | Ok v => Ok (Dataset v)
            | Throw e => Throw e
            end /\
  snd out = snd sync /\
  normalizationCache (snd out) = normalizationCache w.
Proof.
  intros H. cbv zeta. destruct (JSON_stringify_self _ _ H) as (m & Hm).
  assert (generateCacheKey (VRef l) w = (Ok None, w)) as Hk.
  { unfold generateCacheKey, bind, getHeap, ret. by rewrite Hm. }
  split; [done|].
  unfold normalizeDataset.
  rewrite (bind_run _ _ _ _ _ Hk), (bind_run _ _ _ _ _ (cacheLookup_run _ _)).
  pose proof (normalizeDatasetSync_module env (VRef l) w) as (Hc & _).
  unfold bind. destruct (normalizeDatasetSync env (VRef l) w) as [[v|e] w'];
    simpl in *; by split_and!.
Qed.

Lemma self_containing_dataset_is_never_cached_witness :
  let w := initialWorld selfDataset in
  let out := normalizeDataset pageEnv (VRef 2) false w in
  let sync := normalizeDatasetSync pageEnv (VRef 2) w in
  containsSelf (heap w) 2 = true /\
  fst out = Ok (Dataset (VRef 11)) /\
  generateCacheKey (VRef 2) w = (Ok None, w) /\
  fst out = match fst sync with
            | Ok v => Ok (Dataset v)
            | Throw e => Throw e
            end /\
  snd out = snd sync /\
  normalizationCache (snd out) = normalizationCache w.
Proof.
  cbv zeta.
  assert (containsSelf (heap (initialWorld selfDataset)) 2 = true) as H
    by (vm_compute; reflexivity).
  split; [exact H|]. split; [vm_compute; reflexivity|].
  exact (self_containing_dataset_is_never_cached pageEnv 2 (initialWorld selfDataset) H).
Defined.

Lemma usableKey_nonempty key : usableKey (Some key) = true -> key <> "".
Proof. simpl. intros H ->. done. Qed.

Lemma sameRequests_trace w w' : sameButTrace w w' -> sameRequests w w'.
Proof. intros (_ & _ & ? & ? & ? & ? & ?). by repeat split. Qed.

Lemma sameRequests_module w w' : sameModule w w' -> sameRequests w w'.
Proof. intros (_ & ? & ? & ? & ? & ?). by repeat split. Qed.

Lemma sameRequests_trans w1 w2 w3 :
  sameRequests w1 w2 -> sameRequests w2 w3 -> sameRequests w1 w3.
Proof.
  intros (? & ? & ? & ? & ?) (? & ? & ? & ? & ?). repeat split; congruence.
Qed.

(** The miss: normalise, then store under the key. *)
Lemma miss_effect env raw key w :
  match key with
  | Some key0 => if usableKey key then assoc key0 (normalizationCache w) else None
  | None => None
  end = None ->
  let out := (result <- normalizeDatasetSync env raw ;;
              cacheStore key result ;;; ret result) w in
  sameRequests w (snd out) /\ cacheGrew w (snd out) /\
  length (heap w) <= length (heap (snd out)).
Proof.
  intros Hmiss. cbv zeta.
  pose proof (normalizeDatasetSync_keeps (length (heap w)) nowhere env raw w
                (Nat.le_refl _)) as (L & Hm & _).
  unfold bind.
  destruct (normalizeDatasetSync env raw w) as [[v|e] w1]; cbn [snd] in *.
  - destruct (cacheStore_run key v w1) as (w2 & E2 & Hh & _ & Hc).
    rewrite E2. cbn [snd ret].
    assert (sameRequests w1 w2) as S2.
    { unfold cacheStore, when in E2. destruct key as [k|]; [|by injection E2 as <-].
      destruct (usableKey (Some k)); by injection E2 as <-. }
    split; [eapply sameRequests_trans; [by apply sameRequests_module|done]|].
    split; [|by rewrite Hh].
    destruct Hm as (Hcm & _). rewrite Hcm in Hc.
    destruct key as [k|]; [|by left].
    destruct (usableKey (Some k)) eqn:Eu; [|by left].
    right. exists k, v. split; [by apply usableKey_nonempty|]. by split.
  - split; [by apply sameRequests_module|]. split; [|done].
    left. apply Hm.
Qed.

Lemma normalizeDataset_sync_effect env raw w :
  let w' := snd (normalizeDataset env raw false w) in
  sameRequests w w' /\ cacheGrew w w' /\ length (heap w) <= length (heap w').
Proof.
  cbv zeta. unfold normalizeDataset.
  destruct (generateCacheKey_run raw w) as (key & Hk).
  rewrite (bind_run _ _ _ _ _ Hk), (bind_run _ _ _ _ _ (cacheLookup_run _ _)).
  destruct (match key with
            | Some key0 =>
                if usableKey key then assoc key0 (normalizationCache w) else None
            | None => None
            end) as [result|] eqn:El.
  - destruct (whenLogger_info_run env "Cache hit for dataset normalization" w)
      as (wh & Hh & Sh).
    rewrite (bind_run _ _ _ _ _ Hh). cbn [snd ret].
    split; [by apply sameRequests_trace|]. destruct Sh as (Eh & Ec & _).
    split; [by left|by rewrite Eh].
  - pose proof (miss_effect env raw key w El) as H. cbv zeta in H.
    unfold bind in *.
    destruct (normalizeDatasetSync env raw w) as [[v|e] w1]; [|done].
    by destruct (cacheStore key v w1) as [[[]|e] w2].
Qed.

Lemma initWorker_effect env w :
  exists w',
    initWorker env w = (Ok tt, w') /\ heap w' = heap w /\
    normalizationCache w' = normalizationCache w /\
    workerRequestId w' = workerRequestId w /\
    pendingRequests w' = pendingRequests w /\
    outbox w' = outbox w /\ timers w' = timers w /\
    (worker w' = worker w \/ worker w = false /\ worker w' = true).
Proof.
  unfold initWorker. destruct (worker w) eqn:Ew; [exists w; by split_and!; auto|].
  destruct (workerSupport env) as [|msg|].
  - exists w. split_and!; auto.
  - destruct (hasLogger env) eqn:El.
    + unfold whenLogger, when. rewrite El.
      destruct (Logger_warn_run env "Failed to initialize worker:" w) as (w1 & E1 & Hh).
      pose proof (Logger_warn_keeps 0 nowhere env "Failed to initialize worker:" w)
        as (_ & Hm & _).
      rewrite E1 in Hm. cbn [snd] in Hm. destruct Hm as (? & ? & ? & ? & ? & ?).
      rewrite (bind_run _ _ _ _ _ E1). eexists. split; [reflexivity|].
      simpl. split_and!; try done. left. congruence.
    + unfold whenLogger, when, bind, ret. rewrite El.
      eexists. split; [reflexivity|]. simpl. split_and!; auto.
  - eexists. split; [reflexivity|]. simpl. split_and!; auto.
Qed.

(** The two ways an asynchronous call leaves the module: served here (from
    the cache or by the fallback), or posted to the worker. *)
Lemma normalizeDataset_async_effect env raw w o w' :
  normalizeDataset env raw true w = (o, w') ->
  (sameRequests w w' /\ cacheGrew w w' /\ length (heap w) <= length (heap w')) \/
  (worker w' = true /\ heap w' = heap w /\
   normalizationCache w' = normalizationCache w /\
   workerRequestId w' = S (workerRequestId w) /\
   exists key,
     pendingRequests w'
     = pendingRequests w ++ [(S (workerRequestId w), {| pendingCacheKey := key |})] /\
     outbox w' = outbox w ++ [{| postedId := S (workerRequestId w);
                                 postedPayload := raw |}] /\
     timers w' = timers w ++ [(S (workerRequestId w), WORKER_TIMEOUT_MS)]).
Proof.
  intros H. unfold normalizeDataset, normalizeDatasetAsync in H.
  unfold bind at 1 in H.
  destruct (generateCacheKey_run raw w) as (key & Hk).
  rewrite (bind_run _ _ _ _ _ Hk), (bind_run _ _ _ _ _ (cacheLookup_run _ _)) in H.
  destruct (match key with
            | Some key0 =>
                if usableKey key then assoc key0 (normalizationCache w) else None
            | None => None
            end) as [result|] eqn:El.
  - destruct (whenLogger_info_run env "Cache hit for dataset normalization" w)
      as (wh & Hh & Sh).
    rewrite (bind_run _ _ _ _ _ Hh) in H. injection H as _ <-. left.
    split; [by apply sameRequests_trace|]. destruct Sh as (Eh & Ec & _).
    split; [by left|by rewrite Eh].
  - destruct (initWorker_effect env w) as (wi & Hi & Hih & Hic & Hin & Hip & Hio & Hit & Hiw).
    assert ((fun w0 => (if worker w0 then ret tt else initWorker env) w0) w
            = (Ok tt, wi) \/
            worker w = true /\
            (fun w0 => (if worker w0 then ret tt else initWorker env) w0) w
            = (Ok tt, w)) as [Hstep|[Hw Hstep]].
    { cbv beta. destruct (worker w); [by right|by left]. }
    + rewrite (bind_run (fun w0 => (if worker w0 then ret tt else initWorker env) w0)
                 _ w tt wi Hstep) in H.
      destruct (worker wi) eqn:Ewi.
      * injection H as _ <-. right. simpl.
        rewrite Hin, Hip, Hio, Hit. split_and!; try done. by exists key.
      * destruct (whenLogger_info_run env
                    "Worker not available, using synchronous normalization" wi)
          as (w2 & Hf & S2).
        rewrite (bind_run _ _ _ _ _ Hf) in H. left.
        assert (match key with
                | Some key0 =>
                    if usableKey key then assoc key0 (normalizationCache w2) else None
                | None => None
                end = None) as El2.
        { destruct S2 as (_ & <- & _). by rewrite Hic. }
        pose proof (miss_effect env raw key w2 El2) as (R & G & L). cbv zeta in *.
        unfold syncFallback, settle in H.
        assert (sameRequests w w2) as R2.
        { apply sameRequests_trace in S2. destruct S2 as (? & ? & ? & ? & ?).
          destruct Hiw as [Hiw|[Hiw Hiw']]; [|congruence].
          repeat split; congruence. }
        destruct S2 as (Eh2 & Ec2 & _).
        destruct ((result <- normalizeDatasetSync env raw;;
                   cacheStore key result;;; ret result) w2) as [[v|e] w3];
          cbn [snd ret] in *; injection H as _ <-.
        -- split; [by eapply sameRequests_trans|].
           split; [|rewrite <- Hih, Eh2; done].
           unfold cacheGrew in *. rewrite <- Ec2, Hic in G. done.
        -- split; [by eapply sameRequests_trans|].
           split; [|rewrite <- Hih, Eh2; done].
           unfold cacheGrew in *. rewrite <- Ec2, Hic in G. done.
    + rewrite (bind_run (fun w0 => (if worker w0 then ret tt else initWorker env) w0)
                 _ w tt w Hstep) in H.
      rewrite Hw in H.
      injection H as _ <-. right. simpl. split_and!; try done. by exists key.
Qed.

Lemma cacheGrew_keeps w w' k v :
  cacheGrew w w' ->
  assoc k (normalizationCache w) = Some v ->
  assoc k (normalizationCache w') = Some v.
Proof.
  intros [->|(key & res & _ & Hnone & ->)] H; [done|].
  rewrite assoc_assocSet_ne; [done|]. intros ->. congruence.
Qed.

Lemma length_assocSet {A} k (a : A) l : length (assocSet k a l) <= S (length l).
Proof.
  induction l as [|[k' a'] l IH]; simpl; [lia|].
  destruct (String.eqb k k'); simpl; lia.
Qed.

(** X7. A call of [normalize], synchronous or not, never replaces or
    removes an entry of the cache: what was cached under a key before the
    call is cached under it afterwards, and the cache has at most one entry
    more. *)
Theorem normalize_never_replaces_a_cache_entry env raw async w k v :
  assoc k (normalizationCache w) = Some v ->
  let w' := snd (normalizeDataset env raw async w) in
  assoc k (normalizationCache w') = Some v /\
  length (normalizationCache w') <= S (length (normalizationCache w)).
Proof.
  intros H. cbv zeta.
  assert (cacheGrew w (snd (normalizeDataset env raw async w))) as G.
  { destruct async.
    - destruct (normalizeDataset env raw true w) as [o w'] eqn:E.
      destruct (normalizeDataset_async_effect env raw w o w' E)
        as [(_ & G & _)|(_ & _ & G & _)]; [done|by left].
    - apply normalizeDataset_sync_effect. }
  split; [by eapply cacheGrew_keeps|].
  destruct G as [->|(key & res & _ & _ & ->)]; [lia|apply length_assocSet].
Qed.

Lemma normalize_never_replaces_a_cache_entry_witness :
  let raw := fst (build solDataset []) in
  let w0 := initialWorld (snd (build solDataset [])) in
  let first := normalizeDataset pageEnv raw false w0 in
  let w := snd first in
  let k := keyOf (fst (generateCacheKey raw w0)) in
  let v := datasetOf (fst first) in
  let w' := snd (normalizeDataset pageEnv VNull false w) in
  assoc k (normalizationCache w) = Some v /\
  assoc k (normalizationCache w') = Some v /\
  length (normalizationCache w') <= S (length (normalizationCache w)).
Proof.
  cbv zeta.
  set (raw := fst (build solDataset [])).
  set (w0 := initialWorld (snd (build solDataset []))).
  set (w := snd (normalizeDataset pageEnv raw false w0)).
  set (k := keyOf (fst (generateCacheKey raw w0))).
  set (v := datasetOf (fst (normalizeDataset pageEnv raw false w0))).
  assert (assoc k (normalizationCache w) = Some v) as H by (vm_compute; reflexivity).
  split; [exact H|].
  exact (normalize_never_replaces_a_cache_entry pageEnv VNull false w k v H).
Defined.

Lemma normalizeDatasetSync_fresh env raw w res w' :
  wfHeap (heap w) = true -> closedVal (length (heap w)) raw = true ->
  normalizeDatasetSync env raw w = (Ok res, w') ->
  exists t, res = VRef t /\ length (heap w) <= t.
Proof.
  intros Hwf Hc E.
  assert ((forall l, raw <> VRef l) \/ exists r, raw = VRef r) as [Hn|(r & ->)].
  { destruct raw; try (by left); right; by eexists. }
  - destruct (normalizeDatasetSync_invalid env raw w Hn) as (w2 & E2 & _).
    rewrite E in E2. injection E2 as -> _. eexists. split; [done|lia].
  - simpl in Hc. apply Nat.ltb_lt in Hc.
    destruct (normalizeDatasetSync_Ok _ _ _ _ _ Hwf Hc E)
      as (nsl & erl & w1 & props & errs & rawEntries & Hn & _ & _ & _ & _ & _
          & _ & _ & _ & -> & _).
    pose proof (normalizeSystems_keeps (length (heap w)) nowhere env (VRef r) w
                  (Nat.le_refl _)) as K1.
    rewrite Hn in K1. cbn [snd] in K1. eexists. split; [done|apply K1].
Qed.

Lemma clearCache_run env w :
  exists w1,
    clearCache env w = (Ok tt, w1) /\ heap w1 = heap w /\
    normalizationCache w1 = [] /\ sameRequests w w1.
Proof.
  unfold clearCache.
  destruct (whenLogger_info_run env "Normalization cache cleared" (setCache [] w))
    as (w1 & E & S). exists w1. unfold bind. rewrite E.
  destruct S as (Eh & Ec & Ew & Er & Ep & Eo & Et). simpl in *.
  split; [done|]. split; [done|]. split; [done|]. by repeat split.
Qed.

(** X8. [clearCache] empties the cache and touches nothing else on the
    heap: the statistics read size 0 and no key.  The next call computes
    afresh: what it returns is an object allocated by that call, never one
    that was handed out before, and the cache then holds at most that one
    result. *)
Theorem clearCache_makes_the_next_call_compute_afresh env raw w :
  wfHeap (heap w) = true -> closedVal (length (heap w)) raw = true ->
  let w1 := snd (clearCache env w) in
  fst (clearCache env w) = Ok tt /\ heap w1 = heap w /\
  fst (getCacheStats w1) = Ok (0, []) /\
  forall res w2,
    normalizeDataset env raw false w1 = (Ok (Dataset res), w2) ->
    (exists t, res = VRef t /\ length (heap w) <= t) /\
    length (normalizationCache w2) <= 1.
Proof.
  intros Hwf Hc. cbv zeta.
  destruct (clearCache_run env w) as (w1 & E & Hh & Hcache & _).
  rewrite E. cbn [fst snd]. split; [done|]. split; [done|].
  split; [unfold getCacheStats; by rewrite Hcache|].
  intros res w2 H. unfold normalizeDataset in H.
  destruct (generateCacheKey_run raw w1) as (key & Hk).
  rewrite (bind_run _ _ _ _ _ Hk), (bind_run _ _ _ _ _ (cacheLookup_run _ _)) in H.
  rewrite Hcache in H.
  assert (match key with
          | Some key0 => if usableKey key then assoc key0 [] else None
          | None => None
          end = @None JsVal) as El.
  { destruct key; [|done]. by destruct (usableKey _). }
  rewrite El in H.
  apply bind_Ok in H as (v & w3 & Hs & H).
  apply bind_Ok in H as ([] & w4 & Hst & [= <- <-]).
  split.
  - rewrite <- Hh in *. by eapply normalizeDatasetSync_fresh.
  - destruct (cacheStore_run key v w3) as (w4' & E4 & _ & _ & Hc4).
    rewrite Hst in E4. injection E4 as <-.
    pose proof (normalizeDatasetSync_module env raw w1) as (Hcm & _).
    rewrite Hs in Hcm. cbn [snd] in Hcm. rewrite Hcm, Hcache in Hc4.
    rewrite Hc4. destruct key; [|simpl; lia]. destruct (usableKey _); simpl; lia.
Qed.

Lemma clearCache_makes_the_next_call_compute_afresh_witness :
  let raw := fst (build solDataset []) in
  let w0 := initialWorld (snd (build solDataset [])) in
  let first := normalizeDataset pageEnv raw false w0 in
  let w := snd first in
  let w1 := snd (clearCache pageEnv w) in
  let second := normalizeDataset pageEnv raw false w1 in
  (wfHeap (heap w) = true /\ closedVal (length (heap w)) raw = true /\
   second = (Ok (Dataset (datasetOf (fst second))), snd second) /\
   bool_decide (datasetOf (fst second) = datasetOf (fst first)) = false) /\
  fst (clearCache pageEnv w) = Ok tt /\ heap w1 = heap w /\
  fst (getCacheStats w1) = Ok (0, []) /\
  forall res w2,
    normalizeDataset pageEnv raw false w1 = (Ok (Dataset res), w2) ->
    (exists t, res = VRef t /\ length (heap w) <= t) /\
    length (normalizationCache w2) <= 1.
Proof.
  cbv zeta.
  set (raw := fst (build solDataset [])).
  set (w := snd (normalizeDataset pageEnv raw false
                   (initialWorld (snd (build solDataset []))))).
  assert (wfHeap (heap w) = true) as Hwf by (vm_compute; reflexivity).
  assert (closedVal (length (heap w)) raw = true) as Hc by (vm_compute; reflexivity).
  split.
  { split; [exact Hwf|]. split; [exact Hc|]. split; vm_compute; reflexivity. }
  exact (clearCache_makes_the_next_call_compute_afresh pageEnv raw w Hwf Hc).
Defined.

(** ** The module as a state machine *)

Lemma cacheGrew_stored w w' : cacheGrew w w' -> cacheStored w w'.
Proof. intros [H|(k & r & ? & _ & ?)]; [by left|right; eauto]. Qed.

Lemma NoDup_keys_assocSet {A} k (a : A) l :
  NoDup (keys l) -> NoDup (keys (assocSet k a l)).
Proof.
  induction l as [|[k' a'] l IH]; intros H; simpl.
  - apply NoDup_singleton.
  - apply NoDup_cons in H as [Hk Hl].
    destruct (String.eqb_spec k k') as [->|Hne]; simpl.
    + by apply NoDup_cons.
    + apply NoDup_cons. split; [|by apply IH].
      rewrite keys_assocSet. intros [E|E]; [by subst|done].
Qed.

Lemma cacheStored_invariant w w' :
  cacheStored w w' ->
  NoDup (keys (normalizationCache w)) /\
  (forall k, k ∈ keys (normalizationCache w) -> k <> "") ->
  NoDup (keys (normalizationCache w')) /\
  (forall k, k ∈ keys (normalizationCache w') -> k <> "").
Proof.
  intros [->|(key & res & Hk & ->)] [Hnd Hne]; [done|].
  split; [by apply NoDup_keys_assocSet|].
  intros k Hin. apply keys_assocSet in Hin as [->|Hin]; [done|by apply Hne].
Qed.

Lemma cacheStore_stored key v w : cacheStored w (snd (cacheStore key v w)).
Proof.
  destruct (cacheStore_run key v w) as (w' & E & _ & _ & Hc). rewrite E. cbn [snd].
  destruct key as [k|]; [|by left].
  destruct (usableKey (Some k)) eqn:Eu; [|by left].
  right. exists k, v. split; [by apply usableKey_nonempty|done].
Qed.

Lemma cacheStore_requests key v w :
  sameRequests w (snd (cacheStore key v w)) /\
  heap (snd (cacheStore key v w)) = heap w.
Proof.
  unfold cacheStore, when. destruct key as [k|]; [|by repeat split].
  destruct (usableKey (Some k)); by repeat split.
Qed.

Lemma pendingGet_delete id l : pendingGet id (pendingDelete id l) = None.
Proof.
  induction l as [|[i p] l IH]; [done|]. simpl.
  destruct (Nat.eqb_spec i id) as [->|Hne]; simpl; [done|].
  destruct (Nat.eqb_spec id i) as [->|_]; [done|exact IH].
Qed.

Lemma pendingGet_delete_other id id' l :
  pendingGet id l = None -> pendingGet id (pendingDelete id' l) = None.
Proof.
  induction l as [|[i p] l IH]; [done|]. simpl.
  destruct (Nat.eqb_spec id i) as [->|Hne]; [done|]. intros H.
  destruct (negb (Nat.eqb i id')); simpl; [|by apply IH].
  destruct (Nat.eqb_spec id i) as [->|_]; [done|by apply IH].
Qed.

Lemma pendingGet_app id l n p :
  pendingGet id l = None -> id <> n -> pendingGet id (l ++ [(n, p)]) = None.
Proof.
  induction l as [|[i q] l IH]; simpl; intros H Hne.
  - by destruct (Nat.eqb_spec id n).
  - destruct (Nat.eqb id i); [done|by apply IH].
Qed.

Lemma pendingGet_None id l : pendingGet id l = None <-> id ∉ map fst l.
Proof.
  induction l as [|[i p] l IH]; simpl.
  - split; [intros _ H; inversion H|done].
  - rewrite not_elem_of_cons. destruct (Nat.eqb_spec id i) as [->|Hne].
    + split; [done|]. by intros [? _].
    + rewrite IH. split; [by split|by intros [_ ?]].
Qed.

Lemma elem_of_pendingDelete i id l :
  i ∈ map fst (pendingDelete id l) -> i ∈ map fst l.
Proof.
  induction l as [|[j p] l IH]; [done|]. simpl.
  destruct (negb (Nat.eqb j id)); simpl; rewrite ?elem_of_cons; intuition.
Qed.

Lemma NoDup_pendingDelete id l :
  NoDup (map fst l) -> NoDup (map fst (pendingDelete id l)).
Proof.
  induction l as [|[j p] l IH]; [done|]. simpl. intros H.
  apply NoDup_cons in H as [Hj Hl].
  destruct (negb (Nat.eqb j id)); simpl; [|by apply IH].
  apply NoDup_cons. split; [|by apply IH].
  intros Hin. by apply elem_of_pendingDelete in Hin.
Qed.

(** What the listener for the worker's replies changes. *)
Lemma onWorkerMessage_effect id reply w :
  let w' := snd (onWorkerMessage id reply w) in
  heap w' = heap w /\ worker w' = worker w /\
  workerRequestId w' = workerRequestId w /\
  outbox w' = outbox w /\ timers w' = timers w /\
  cacheStored w w' /\
  (pendingRequests w' = pendingRequests w /\ pendingGet id (pendingRequests w) = None \/
   pendingRequests w' = pendingDelete id (pendingRequests w)).
Proof.
  cbv zeta. unfold onWorkerMessage.
  destruct (pendingGet id (pendingRequests w)) as [request|] eqn:Ep.
  - destruct reply as [payload|error]; cbn [snd].
    + set (w1 := setPending (workerRequestId w) (pendingDelete id (pendingRequests w)) w).
      destruct (cacheStore_requests (pendingCacheKey request) payload w1)
        as ((Ew & Er & Epd & Eo & Et) & Eh).
      pose proof (cacheStore_stored (pendingCacheKey request) payload w1) as Hs.
      rewrite Eh, Ew, Er, Epd, Eo, Et. split_and!; try done. by right.
    + simpl. split_and!; try done; [by left|by right].
  - cbn [snd]. split_and!; try done; [by left|by left].
Qed.

Lemma syncFallback_effect env raw key w :
  let w' := snd (syncFallback env raw key w) in
  sameRequests w w' /\ cacheStored w w' /\ length (heap w) <= length (heap w').
Proof.
  cbv zeta. unfold syncFallback, settle.
  pose proof (normalizeDatasetSync_keeps (length (heap w)) nowhere env raw w
                (Nat.le_refl _)) as (L & Hm & _).
  unfold bind.
  destruct (normalizeDatasetSync env raw w) as [[v|e] w1]; cbn [snd] in *.
  - destruct (cacheStore_run key v w1) as (w2 & E2 & Hh & _ & _).
    pose proof (cacheStore_stored key v w1) as Hs.
    pose proof (cacheStore_requests key v w1) as (Hr & _).
    rewrite E2 in *. cbn [snd ret] in *.
    split; [eapply sameRequests_trans; [by apply sameRequests_module|done]|].
    split; [|by rewrite Hh].
    destruct Hm as (Hcm & _). unfold cacheStored in *. by rewrite Hcm in Hs.
  - split; [by apply sameRequests_module|]. split; [|done]. left. apply Hm.
Qed.

Lemma onTimeout_effect env id raw key w :
  let w' := snd (onTimeout env id raw key w) in
  worker w' = worker w /\ workerRequestId w' = workerRequestId w /\
  outbox w' = outbox w /\ timers w' = timers w /\
  cacheStored w w' /\
  (pendingRequests w' = pendingRequests w /\ pendingGet id (pendingRequests w) = None \/
   pendingRequests w' = pendingDelete id (pendingRequests w)).
Proof.
  cbv zeta. unfold onTimeout.
  destruct (pendingGet id (pendingRequests w)) as [request|] eqn:Ep.
  - set (w1 := setPending (workerRequestId w) (pendingDelete id (pendingRequests w)) w).
    assert (exists w2,
               whenLogger env
                 (Logger.warn env "Worker timeout, falling back to sync normalization")
                 w1 = (Ok tt, w2) /\ sameButTrace w1 w2) as (w2 & E2 & S2).
    { unfold whenLogger, when. destruct (hasLogger env).
      - destruct (Logger_warn_run env
                    "Worker timeout, falling back to sync normalization" w1)
          as (w2 & E & Hh).
        exists w2. split; [done|].
        pose proof (Logger_warn_keeps 0 nowhere env
                      "Worker timeout, falling back to sync normalization" w1)
          as (_ & Hm & _).
        rewrite E in Hm. cbn [snd] in Hm. destruct Hm as (? & ? & ? & ? & ? & ?).
        by repeat split.
      - exists w1. split; [done|apply sameButTrace_refl]. }
    rewrite (bind_run _ _ _ _ _ E2).
    pose proof (syncFallback_effect env raw key w2) as (R & G & _). cbv zeta in R, G.
    unfold bind. destruct (syncFallback env raw key w2) as [[p|e] w3]; cbn [snd ret] in *.
    + destruct R as (Rw & Rr & Rp & Ro & Rt).
      destruct S2 as (_ & Sc & Sw & Sr & Sp & So & St).
      rewrite Rw, Rr, Ro, Rt, <- Sw, <- Sr, <- So, <- St.
      split_and!; try done.
      * unfold cacheStored in *. by rewrite <- Sc in G.
      * right. by rewrite Rp, <- Sp.
    + destruct R as (Rw & Rr & Rp & Ro & Rt).
      destruct S2 as (_ & Sc & Sw & Sr & Sp & So & St).
      rewrite Rw, Rr, Ro, Rt, <- Sw, <- Sr, <- So, <- St.
      split_and!; try done.
      * unfold cacheStored in *. by rewrite <- Sc in G.
      * right. by rewrite Rp, <- Sp.
  - cbn [snd]. split_and!; try done; [by left|by left].
Qed.

Lemma onWorkerError_effect env message w :
  let w' := snd (onWorkerError env message w) in
  heap w' = heap w /\ worker w' = false /\
  workerRequestId w' = workerRequestId w /\
  outbox w' = outbox w /\ timers w' = timers w /\
  normalizationCache w' = normalizationCache w /\
  pendingRequests w' = [].
Proof.
  cbv zeta. unfold onWorkerError, whenLogger, when, Logger.error, bind, emit.
  destruct (hasLogger env); simpl; by split_and!.
Qed.

Lemma invariant_same w w' :
  sameRequests w w' -> cacheStored w w' -> moduleInvariant w -> moduleInvariant w'.
Proof.
  intros (Ew & Er & Ep & Eo & Et) G (Hnd & Hne & Hpd & Hp & Hw).
  destruct (cacheStored_invariant w w' G (conj Hnd Hne)) as [Hnd' Hne'].
  unfold moduleInvariant. rewrite Ew, Er, Ep, Eo, Et. by split_and!.
Qed.

Lemma invariant_delete id w w' :
  worker w' = worker w -> workerRequestId w' = workerRequestId w ->
  outbox w' = outbox w -> timers w' = timers w -> cacheStored w w' ->
  (pendingRequests w' = pendingRequests w /\ pendingGet id (pendingRequests w) = None \/
   pendingRequests w' = pendingDelete id (pendingRequests w)) ->
  moduleInvariant w -> moduleInvariant w'.
Proof.
  intros Ew Er Eo Et G Hp' I.
  destruct Hp' as [[Ep _]|Ep].
  { apply (invariant_same w w'); [by repeat split|done|done]. }
  destruct I as (Hnd & Hne & Hpd & Hp & Hw).
  destruct (cacheStored_invariant w w' G (conj Hnd Hne)) as [Hnd' Hne'].
  unfold moduleInvariant. rewrite Ew, Er, Ep, Eo, Et. split_and!; try done.
  - by apply NoDup_pendingDelete.
  - intros i Hi. apply Hp. by eapply elem_of_pendingDelete.
  - intros Hf. by rewrite (Hw Hf).
Qed.

Lemma perform_invariant env a w : moduleInvariant w -> moduleInvariant (perform env a w).
Proof.
  intros I. destruct a as [raw async| | |id reply|message|id raw key]; simpl.
  - destruct async.
    + destruct (normalizeDataset env raw true w) as [o w'] eqn:E. cbn [snd].
      destruct (normalizeDataset_async_effect env raw w o w' E)
        as [(R & G & _)|(Hw' & _ & Hc & Hr & key & Hp' & Ho & Ht)].
      * apply (invariant_same w w'); [done|by apply cacheGrew_stored|done].
      * destruct I as (Hnd & Hne & Hpd & Hp & Hw).
        unfold moduleInvariant. rewrite Hc, Hr, Hp', Ho, Ht, Hw'.
        split; [done|]. split; [done|]. rewrite map_app. cbn [map fst].
        split.
        { apply NoDup_app. split; [done|]. split; [|apply NoDup_singleton].
          intros i Hi Hi'. apply list_elem_of_singleton in Hi'. subst i.
          destruct (Hp _ Hi) as ((_ & Hle) & _). lia. }
        split; [|done].
        intros i Hi. apply elem_of_app in Hi as [Hi|Hi].
        { destruct (Hp _ Hi) as ((H1 & Hle) & Hti & m & Hm & Hid).
          split; [lia|]. split; [apply in_or_app; by left|].
          exists m. split; [apply in_or_app; by left|done]. }
        apply list_elem_of_singleton in Hi. subst i.
        split; [lia|]. split; [apply in_or_app; right; by left|].
        eexists. split; [apply in_or_app; right; by left|done].
    + destruct (normalizeDataset_sync_effect env raw w) as (R & G & _).
      apply (invariant_same w _ R); [by apply cacheGrew_stored|done].
  - destruct (clearCache_run env w) as (w1 & E & _ & Hc & (Ew & Er & Ep & Eo & Et)).
    rewrite E. cbn [snd]. destruct I as (_ & _ & Hpd & Hp & Hw).
    unfold moduleInvariant. rewrite Hc, Ew, Er, Ep, Eo, Et. split_and!; try done.
    + apply NoDup_nil_2.
    + intros k Hk. inversion Hk.
  - done.
  - destruct (onWorkerMessage_effect id reply w) as (_ & Ew & Er & Eo & Et & G & Hp).
    by apply (invariant_delete id w).
  - destruct (onWorkerError_effect env message w) as (_ & Ew & Er & Eo & Et & Ec & Ep).
    destruct I as (Hnd & Hne & _).
    unfold moduleInvariant. rewrite Ec, Er, Ep, Eo, Et. split_and!; try done.
    + apply NoDup_nil_2.
    + intros i Hi. inversion Hi.
  - destruct (onTimeout_effect env id raw key w) as (Ew & Er & Eo & Et & G & Hp).
    by apply (invariant_delete id w).
Qed.

Lemma run_invariant env actions : forall w,
  moduleInvariant w -> moduleInvariant (run env actions w).
Proof.
  induction actions as [|a actions IH]; intros w I; [done|].
  simpl. apply IH. by apply perform_invariant.
Qed.

Lemma initialWorld_invariant h : moduleInvariant (initialWorld h).
Proof.
  unfold moduleInvariant. simpl. split_and!; try done.
  - apply NoDup_nil_2.
  - intros k Hk. inversion Hk.
  - apply NoDup_nil_2.
  - intros i Hi. inversion Hi.
Qed.


Lemma perform_settled env a id w : settled id w -> settled id (perform env a w).
Proof.
  intros [Hle Hn]. unfold settled.
  destruct a as [raw async| | |i reply|message|i raw key]; simpl.
  - destruct async.
    + destruct (normalizeDataset env raw true w) as [o w'] eqn:E. cbn [snd].
      destruct (normalizeDataset_async_effect env raw w o w' E)
        as [((_ & Er & Ep & _) & _)|(_ & _ & _ & Hr & key & Hp' & _)].
      * by rewrite Er, Ep.
      * rewrite Hr, Hp'. split; [lia|]. apply pendingGet_app; [done|lia].
    + destruct (normalizeDataset_sync_effect env raw w) as ((_ & Er & Ep & _) & _).
      by rewrite Er, Ep.
  - destruct (clearCache_run env w) as (w1 & E & _ & _ & (_ & Er & Ep & _)).
    rewrite E. cbn [snd]. by rewrite Er, Ep.
  - done.
  - destruct (onWorkerMessage_effect i reply w) as (_ & _ & Er & _ & _ & _ & Hp).
    rewrite Er. split; [done|].
    destruct Hp as [[-> _]| ->]; [done|by apply pendingGet_delete_other].
  - destruct (onWorkerError_effect env message w) as (_ & _ & Er & _ & _ & _ & Ep).
    by rewrite Er, Ep.
  - destruct (onTimeout_effect env i raw key w) as (_ & Er & _ & _ & _ & Hp).
    rewrite Er. split; [done|].
    destruct Hp as [[-> _]| ->]; [done|by apply pendingGet_delete_other].
Qed.

Lemma run_settled env actions id : forall w, settled id w -> settled id (run env actions w).
Proof.
  induction actions as [|a actions IH]; intros w S; [done|].
  simpl. apply IH. by apply perform_settled.
Qed.

Lemma settles_settled env a id w :
  moduleInvariant w -> id ∈ map fst (pendingRequests w) ->
  settles a id = true -> settled id (perform env a w).
Proof.
  intros (_ & _ & _ & Hp & _) Hin Hs. destruct (Hp _ Hin) as ((_ & Hle) & _).
  unfold settled.
  destruct a as [raw async| | |i reply|message|i raw key]; simpl in *; try done.
  - apply Nat.eqb_eq in Hs. subst i.
    destruct (onWorkerMessage_effect id reply w) as (_ & _ & Er & _ & _ & _ & Hp').
    rewrite Er. split; [done|].
    destruct Hp' as [[_ Hn]| ->]; [|apply pendingGet_delete].
    by apply pendingGet_None in Hn.
  - destruct (onWorkerError_effect env message w) as (_ & _ & Er & _ & _ & _ & Ep).
    by rewrite Er, Ep.
  - apply Nat.eqb_eq in Hs. subst i.
    destruct (onTimeout_effect env id raw key w) as (_ & Er & _ & _ & _ & Hp').
    rewrite Er. split; [done|].
    destruct Hp' as [[_ Hn]| ->]; [|apply pendingGet_delete].
    by apply pendingGet_None in Hn.
Qed.

(** X10. A request is settled once.  Take a request that waits in a
    reachable state, and let a reply for it arrive, or its timer fire, or
    the worker fail.  From then on, whatever else happens, a reply for that
    id and the timer of that id find nothing to do: they settle no promise
    and change nothing, neither the cache nor the heap. *)
Theorem a_request_is_settled_once env h before id first after :
  let w := run env before (initialWorld h) in
  id ∈ map fst (pendingRequests w) ->
  settles first id = true ->
  let w2 := run env after (perform env first w) in
  (forall reply, onWorkerMessage id reply w2 = (Ok None, w2)) /\
  (forall raw cacheKey, onTimeout env id raw cacheKey w2 = (Ok None, w2)).
Proof.
  cbv zeta. intros Hin Hs.
  pose proof (run_invariant env before _ (initialWorld_invariant h)) as I.
  pose proof (run_settled env after id _ (settles_settled env first id _ I Hin Hs))
    as [_ Hn].
  split.
  - intros reply. unfold onWorkerMessage. by rewrite Hn.
  - intros raw key. unfold onTimeout. by rewrite Hn.
Qed.

Lemma a_request_is_settled_once_witness :
  let raw := fst (build solDataset []) in
  let h := snd (build solDataset []) in
  let before := [Normalize raw true] in
  let first := Timeout 1 raw None in
  let after := [Normalize raw true; ClearCache] in
  let w := run workerEnv before (initialWorld h) in
  let w2 := run workerEnv after (perform workerEnv first w) in
  (1 ∈ map fst (pendingRequests w) /\ settles first 1 = true /\
   map fst (pendingRequests w2) = [2]) /\
  (forall reply, onWorkerMessage 1 reply w2 = (Ok None, w2)) /\
  (forall raw' cacheKey, onTimeout workerEnv 1 raw' cacheKey w2 = (Ok None, w2)).
Proof.
  cbv zeta.
  set (raw := fst (build solDataset [])).
  set (h := snd (build solDataset [])).
  assert (1 ∈ map fst (pendingRequests (run workerEnv [Normalize raw true]
                                           (initialWorld h)))) as Hin.
  { vm_compute. apply list_elem_of_here. }
  assert (settles (Timeout 1 raw None) 1 = true) as Hs by reflexivity.
  split.
  { split; [exact Hin|]. split; [exact Hs|]. vm_compute. reflexivity. }
  exact (a_request_is_settled_once workerEnv h [Normalize raw true] 1
           (Timeout 1 raw None) [Normalize raw true; ClearCache] Hin Hs).
Defined.

(** ** A reply of the worker and the cache *)

Lemma async_dispatch env raw w key id w1 :
  generateCacheKey raw w = (Ok key, w) ->
  normalizeDataset env raw true w = (Ok (Promised (PendingOn id)), w1) ->
  id = S (workerRequestId w) /\ heap w1 = heap w /\
  normalizationCache w1 = normalizationCache w /\
  pendingRequests w1 = pendingRequests w ++ [(id, {| pendingCacheKey := key |})].
Proof.
  intros Hk H. unfold normalizeDataset, normalizeDatasetAsync in H.
  unfold bind at 1 in H.
  rewrite (bind_run _ _ _ _ _ Hk), (bind_run _ _ _ _ _ (cacheLookup_run _ _)) in H.
  destruct (match key with
            | Some key0 =>
                if usableKey key then assoc key0 (normalizationCache w) else None
            | None => None
            end) as [result|] eqn:El.
  - destruct (whenLogger_info_run env "Cache hit for dataset normalization" w)
      as (wh & Hh & Sh).
    rewrite (bind_run _ _ _ _ _ Hh) in H. discriminate H.
  - destruct (initWorker_effect env w) as (wi & Hi & Hih & Hic & Hin & Hip & Hio & Hit & Hiw).
    assert ((fun w0 => (if worker w0 then ret tt else initWorker env) w0) w
            = (Ok tt, wi) \/
            worker w = true /\
            (fun w0 => (if worker w0 then ret tt else initWorker env) w0) w
            = (Ok tt, w)) as [Hstep|[Hw Hstep]].
    { cbv beta. destruct (worker w); [by right|by left]. }
    + rewrite (bind_run (fun w0 => (if worker w0 then ret tt else initWorker env) w0)
                 _ w tt wi Hstep) in H.
      destruct (worker wi) eqn:Ewi.
      * injection H as <- <-. simpl. by rewrite Hin, Hip, Hih, Hic.
      * destruct (whenLogger_info_run env
                    "Worker not available, using synchronous normalization" wi)
          as (w2 & Hf & S2).
        rewrite (bind_run _ _ _ _ _ Hf) in H.
        unfold syncFallback, settle in H.
        destruct ((result <- normalizeDatasetSync env raw;;
                   cacheStore key result;;; ret result) w2) as [[v|e] w3];
          cbn [ret] in H; discriminate H.
    + rewrite (bind_run (fun w0 => (if worker w0 then ret tt else initWorker env) w0)
                 _ w tt w Hstep) in H.
      rewrite Hw in H. injection H as <- <-. by simpl.
Qed.

Lemma pendingGet_app_new id l p :
  pendingGet id l = None -> pendingGet id (l ++ [(id, p)]) = Some p.
Proof.
  induction l as [|[i q] l IH]; cbn [pendingGet app].
  - by rewrite Nat.eqb_refl.
  - destruct (Nat.eqb id i); [done|exact IH].
Qed.

Lemma cache_hit env raw key v w :
  generateCacheKey raw w = (Ok (Some key), w) ->
  assoc key (normalizationCache w) = Some v ->
  fst (normalizeDataset env raw false w) = Ok (Dataset v) /\
  fst (normalizeDataset env raw true w) = Ok (Promised (Resolved v)).
Proof.
  intros Hk Ha.
  pose proof (usableKey_JSON _ _ _ (generateCacheKey_Some _ _ _ Hk)) as Hu.
  destruct (whenLogger_info_run env "Cache hit for dataset normalization" w)
    as (wh & Hh & _).
  unfold normalizeDataset, normalizeDatasetAsync, bind.
  by rewrite Hk, cacheLookup_run, Hu, Ha, Hh.
Qed.

(** X11. Take any state the module can reach, and a dataset that has a
    cache key there.  If [normalize(raw, {async: true})] hands the dataset
    to the worker (the promise is left pending on request [id]), and the
    worker then answers that request with [payload], then the promise is
    resolved with [payload], the heap is as it was before the call, and the
    next call on the dataset, synchronous or asynchronous, is served
    [payload] from the cache without normalising anything. *)
Theorem worker_reply_is_cached_for_the_dataset env h before raw key id payload :
  let w := run env before (initialWorld h) in
  fst (generateCacheKey raw w) = Ok (Some key) ->
  fst (normalizeDataset env raw true w) = Ok (Promised (PendingOn id)) ->
  let w1 := snd (normalizeDataset env raw true w) in
  let w2 := snd (onWorkerMessage id (inl payload) w1) in
  fst (onWorkerMessage id (inl payload) w1) = Ok (Some (id, Resolved payload)) /\
  heap w2 = heap w /\
  fst (normalizeDataset env raw false w2) = Ok (Dataset payload) /\
  fst (normalizeDataset env raw true w2) = Ok (Promised (Resolved payload)).
Proof.
  cbv zeta. intros Hk H.
  pose proof (run_invariant env before _ (initialWorld_invariant h)) as I.
  set (w := run env before (initialWorld h)) in *.
  destruct (generateCacheKey_run raw w) as (key0 & Hk0).
  rewrite Hk0 in Hk. cbn [fst] in Hk. injection Hk as ->.
  destruct (normalizeDataset env raw true w) as [o w1] eqn:E.
  cbn [fst snd] in *. subst o.
  destruct (async_dispatch env raw w _ id w1 Hk0 E) as (-> & Eh & Ec & Ep).
  pose proof (generateCacheKey_Some _ _ _ Hk0) as Hj.
  pose proof (usableKey_JSON _ _ _ Hj) as Hu.
  assert (pendingGet (S (workerRequestId w)) (pendingRequests w1)
          = Some {| pendingCacheKey := Some key |}) as Hg.
  { rewrite Ep. destruct I as (_ & _ & _ & Hp & _).
    assert (pendingGet (S (workerRequestId w)) (pendingRequests w) = None) as Hn.
    { apply pendingGet_None. intros Hin. apply Hp in Hin. lia. }
    by apply pendingGet_app_new. }
  unfold onWorkerMessage. rewrite Hg. cbn [fst snd pendingCacheKey].
  destruct (cacheStore_run (Some key) payload
              (setPending (workerRequestId w1)
                 (pendingDelete (S (workerRequestId w)) (pendingRequests w1)) w1))
    as (w3 & H3 & Eh3 & _ & Ec3).
  rewrite H3. cbn [snd]. rewrite Hu in Ec3.
  split; [done|]. split; [by rewrite Eh3|].
  apply cache_hit with (key := key).
  - apply generateCacheKey_JSON. rewrite Eh3. simpl. by rewrite Eh.
  - rewrite Ec3. apply assoc_assocSet_eq.
Qed.

Lemma worker_reply_is_cached_for_the_dataset_witness :
  let raw := fst (build solDataset []) in
  let h := snd (build solDataset []) in
  let w := run workerEnv [ClearCache] (initialWorld h) in
  let w1 := snd (normalizeDataset workerEnv raw true w) in
  let w2 := snd (onWorkerMessage 1 (inl (VStr "normalised by the worker")) w1) in
  (exists key, fst (generateCacheKey raw w) = Ok (Some key)) /\
  fst (normalizeDataset workerEnv raw true w) = Ok (Promised (PendingOn 1)) /\
  fst (onWorkerMessage 1 (inl (VStr "normalised by the worker")) w1)
  = Ok (Some (1, Resolved (VStr "normalised by the worker"))) /\
  heap w2 = heap w /\
  fst (normalizeDataset workerEnv raw false w2)
  = Ok (Dataset (VStr "normalised by the worker")) /\
  fst (normalizeDataset workerEnv raw true w2)
  = Ok (Promised (Resolved (VStr "normalised by the worker"))).
Proof.
  cbv zeta.
  set (raw := fst (build solDataset [])).
  set (h := snd (build solDataset [])).
  destruct (fst (generateCacheKey raw (run workerEnv [ClearCache] (initialWorld h))))
    as [[key|]|e] eqn:Hk; [|vm_compute in Hk; discriminate Hk
                           |vm_compute in Hk; discriminate Hk].
  assert (fst (normalizeDataset workerEnv raw true
                 (run workerEnv [ClearCache] (initialWorld h)))
          = Ok (Promised (PendingOn 1))) as H by (vm_compute; reflexivity).
  split; [by exists key|]. split; [exact H|].
  exact (worker_reply_is_cached_for_the_dataset workerEnv h [ClearCache] raw key 1
           (VStr "normalised by the worker") Hk H).
Defined.

(** ** What the result depends on

    The normaliser reads the heap and nothing else: not the diagnostics
    issued so far, not the cache, not the worker's book-keeping, and not
    the debug flag. *)

Lemma quiet_ret {A} (a : A) : quiet (ret a).
Proof. intros w. split; [done|by exists a]. Qed.

Lemma quiet_emit e : quiet (emit e).
Proof. intros w. split; [done|by exists tt]. Qed.

Lemma quiet_getHeap : quiet getHeap.
Proof. intros w. split; [done|by eexists]. Qed.

Lemma quiet_bind {A B} (m : M A) (f : A -> M B) :
  quiet m -> (forall a, quiet (f a)) -> quiet (bind m f).
Proof.
  intros Hm Hf w. unfold bind. destruct (Hm w) as (Eh & a & Ea).
  destruct (m w) as [[a'|e] w']; simpl in *; [|done].
  destruct (Hf a' w') as (Eh' & b & Eb). split; [congruence|by exists b].
Qed.

Lemma quiet_when b m : quiet m -> quiet (when b m).
Proof. intros H. destruct b; [exact H|apply quiet_ret]. Qed.

Lemma quiet_info env msg : quiet (Logger.info env msg).
Proof.
  unfold Logger.info. apply quiet_bind; [apply quiet_emit|].
  intros _. apply quiet_when, quiet_emit.
Qed.

Lemma quiet_warn env msg : quiet (Logger.warn env msg).
Proof.
  unfold Logger.warn. apply quiet_bind; [apply quiet_emit|].
  intros _. apply quiet_when, quiet_emit.
Qed.

Lemma quiet_validate env c msg : quiet (Logger.validate env c msg).
Proof.
  unfold Logger.validate. apply quiet_bind; [apply quiet_when, quiet_warn|].
  intros _. apply quiet_ret.
Qed.

Lemma agree_quiet (m1 m2 : M unit) : quiet m1 -> quiet m2 -> agree m1 m2.
Proof.
  intros H1 H2 w1 w2 H. destruct (H1 w1) as (E1 & [] & R1), (H2 w2) as (E2 & [] & R2).
  split; congruence.
Qed.

Lemma agree_ret {A} (a : A) : agree (ret a) (ret a).
Proof. by intros w1 w2 H. Qed.

Lemma agree_throw {A} msg : agree (@throw A msg) (throw msg).
Proof. by intros w1 w2 H. Qed.

Lemma agree_bind {A B} (m1 m2 : M A) (f1 f2 : A -> M B) :
  agree m1 m2 -> (forall a, agree (f1 a) (f2 a)) -> agree (bind m1 f1) (bind m2 f2).
Proof.
  intros Hm Hf w1 w2 H. unfold bind. destruct (Hm w1 w2 H) as [E S].
  destruct (m1 w1) as [[a|e] w1'], (m2 w2) as [[a'|e'] w2']; simpl in *; try done.
  - injection E as <-. by apply Hf.
  - by injection E as <-.
Qed.

Lemma agree_tryCatch {A} (m1 m2 : M A) (h1 h2 : string -> M A) :
  agree m1 m2 -> (forall e, agree (h1 e) (h2 e)) ->
  agree (tryCatch m1 h1) (tryCatch m2 h2).
Proof.
  intros Hm Hh w1 w2 H. unfold tryCatch. destruct (Hm w1 w2 H) as [E S].
  destruct (m1 w1) as [[a|e] w1'], (m2 w2) as [[a'|e'] w2']; simpl in *; try done.
  injection E as <-. by apply Hh.
Qed.

Lemma agree_getHeap : agree getHeap getHeap.
Proof. intros w1 w2 H. simpl. by rewrite H. Qed.

Lemma agree_getProp v k : agree (getProp v k) (getProp v k).
Proof. intros w1 w2 H. simpl. by rewrite H. Qed.

Lemma agree_Object_entries v : agree (Object_entries v) (Object_entries v).
Proof. intros w1 w2 H. simpl. by rewrite H. Qed.

Lemma agree_alloc o : agree (alloc o) (alloc o).
Proof. intros w1 w2 H. unfold alloc. simpl. by rewrite H. Qed.

Lemma agree_setProp target k v : agree (setProp target k v) (setProp target k v).
Proof.
  intros w1 w2 H. unfold setProp. rewrite H.
  destruct target as [| | | | |l]; try done.
  destruct (heap w2 !! l) as [[ps|es]|]; try done.
  destruct (assoc k ps) as [[x|msg]|]; done.
Qed.

Lemma agree_push arr v : agree (push arr v) (push arr v).
Proof.
  intros w1 w2 H. unfold push. rewrite H.
  destruct arr as [| | | | |l]; try done.
  destruct (heap w2 !! l) as [[ps|es]|]; done.
Qed.

Lemma agree_forEachM {A} (f1 f2 : A -> M unit) l :
  (forall x, agree (f1 x) (f2 x)) -> agree (forEachM f1 l) (forEachM f2 l).
Proof.
  intros Hf. induction l as [|x l IH]; simpl; [apply agree_ret|].
  apply agree_bind; [apply Hf|]. intros _. apply IH.
Qed.

Lemma agree_assignSlots target ps : agree (assignSlots target ps) (assignSlots target ps).
Proof.
  induction ps as [|[k [v|msg]] ps IH]; simpl.
  - apply agree_ret.
  - apply agree_bind; [apply agree_setProp|]. intros _. apply IH.
  - apply agree_throw.
Qed.

Ltac agree :=
  repeat match goal with
  | |- agree (bind _ _) (bind _ _) => apply agree_bind; [|intros ?]
  | |- agree (tryCatch _ _) (tryCatch _ _) => apply agree_tryCatch; [|intros ?]
  | |- agree (ret _) (ret _) => apply agree_ret
  | |- agree (throw _) (throw _) => apply agree_throw
  | |- agree getHeap getHeap => apply agree_getHeap
  | |- agree (getProp _ _) (getProp _ _) => apply agree_getProp
  | |- agree (Object_entries _) (Object_entries _) => apply agree_Object_entries
  | |- agree (alloc _) (alloc _) => apply agree_alloc
  | |- agree (setProp _ _ _) (setProp _ _ _) => apply agree_setProp
  | |- agree (push _ _) (push _ _) => apply agree_push
  | |- agree (assignSlots _ _) (assignSlots _ _) => apply agree_assignSlots
  | |- agree (if ?b then _ else _) (if ?b then _ else _) => destruct b
  | |- agree (match ?x with _ => _ end) (match ?x with _ => _ end) => destruct x
  | |- agree (let (_, _) := ?x in _) (let (_, _) := ?x in _) => destruct x
  end.

Lemma agree_newObject ps : agree (newObject ps) (newObject ps).
Proof. unfold newObject. agree. Qed.

Lemma agree_newArray es : agree (newArray es) (newArray es).
Proof. unfold newArray. agree. Qed.

Lemma agree_orEmptyObject v : agree (orEmptyObject v) (orEmptyObject v).
Proof. unfold orEmptyObject. agree. apply agree_newObject. Qed.

Lemma agree_orEmptyArray v : agree (orEmptyArray v) (orEmptyArray v).
Proof. unfold orEmptyArray. agree. apply agree_newArray. Qed.

Lemma agree_Object_assign t s1 s2 : agree (Object_assign t s1 s2) (Object_assign t s1 s2).
Proof. unfold Object_assign, assignFrom. agree. Qed.

Lemma agree_fillFrom x table id : agree (fillFrom x table id) (fillFrom x table id).
Proof. unfold fillFrom. agree. Qed.

Lemma agree_arrayForEach list (f1 f2 : JsVal -> M unit) :
  (forall x, agree (f1 x) (f2 x)) -> agree (arrayForEach list f1) (arrayForEach list f2).
Proof.
  intros Hf. unfold arrayForEach. apply agree_bind; [apply agree_getHeap|].
  intros h. agree. by apply agree_forEachM.
Qed.

Lemma agree_buildSectorBySystem sectorsSrc :
  agree (buildSectorBySystem sectorsSrc) (buildSectorBySystem sectorsSrc).
Proof.
  unfold buildSectorBySystem. agree.
  - apply agree_newObject.
  - apply agree_forEachM. intros entry. agree; [apply agree_orEmptyArray|].
    apply agree_arrayForEach. intros sysId. agree.
Qed.

Lemma quiet_coordsCheck env (coords : JsVal) id :
  quiet (if truthy coords && hasLogger env then
           h <- getHeap ;;
           _ <- Logger.validate env (coordsWellFormed h coords)
                  ("System " +:+ id +:+ " has invalid coords format") ;;
           ret tt
         else ret tt).
Proof.
  destruct (truthy coords && hasLogger env); [|apply quiet_ret].
  apply quiet_bind; [apply quiet_getHeap|]. intros h.
  apply quiet_bind; [apply quiet_validate|]. intros _. apply quiet_ret.
Qed.

Lemma agree_mergedSystem env1 env2 px gr sb id sys :
  agree (mergedSystem env1 px gr sb id sys) (mergedSystem env2 px gr sb id sys).
Proof.
  unfold mergedSystem. agree.
  all: try apply agree_fillFrom.
  all: try apply agree_newObject.
  all: try apply agree_Object_assign.
  all: apply agree_quiet; apply quiet_coordsCheck.
Qed.

Lemma agree_normalizeSystem env1 env2 px gr sb ns er entry :
  agree (normalizeSystem env1 px gr sb ns er entry)
        (normalizeSystem env2 px gr sb ns er entry).
Proof.
  unfold normalizeSystem, mergeSystem. agree.
  all: try apply agree_orEmptyObject.
  all: try apply agree_mergedSystem.
  all: try apply agree_newObject.
  all: apply agree_quiet; apply quiet_when, quiet_warn.
Qed.

Lemma agree_normalizeSystems env1 env2 raw :
  agree (normalizeSystems env1 raw) (normalizeSystems env2 raw).
Proof.
  unfold normalizeSystems. agree.
  all: try apply agree_orEmptyObject.
  all: try apply agree_buildSectorBySystem.
  all: try apply agree_newObject.
  all: try apply agree_newArray.
  all: apply agree_forEachM; intros entry; apply agree_normalizeSystem.
Qed.

Lemma quiet_invalidWarning env :
  quiet (if hasLogger env then Logger.warn env invalidInputMessage
         else when (DM4_DEBUG env)
                (emit (Console LWarn ("[DREADMARCH] " +:+ invalidInputMessage)))).
Proof.
  destruct (hasLogger env); [apply quiet_warn|apply quiet_when, quiet_emit].
Qed.

Lemma agree_normalizeDatasetSync env1 env2 raw :
  hasLogger env1 = hasLogger env2 ->
  agree (normalizeDatasetSync env1 raw) (normalizeDatasetSync env2 raw).
Proof.
  intros Hl. unfold normalizeDatasetSync.
  destruct (negb (truthy raw) || negb (typeofObject raw)).
  - apply agree_bind; [apply agree_quiet; apply quiet_invalidWarning|].
    intros _. agree; apply agree_newObject.
  - apply agree_bind; [apply agree_normalizeSystems|]. intros locals.
    apply agree_bind; [apply agree_newObject|]. intros target.
    apply agree_bind; [apply agree_newObject|]. intros fields.
    apply agree_bind; [apply agree_Object_assign|]. intros result.
    apply agree_bind; [apply agree_getHeap|]. intros h.
    apply agree_bind; [|intros _; apply agree_ret].
    rewrite Hl. destruct (truthy (lengthOf h (snd locals)) && hasLogger env2).
    + apply agree_bind; [apply agree_quiet; apply quiet_warn|].
      intros _. apply agree_setProp.
    + apply agree_ret.
Qed.


Lemma whenLogger_warn_run env msg w :
  exists w', whenLogger env (Logger.warn env msg) w = (Ok tt, w') /\
             sameButTrace w w'.
Proof.
  unfold whenLogger, when, Logger.warn, bind, emit, ret, when.
  destruct (hasLogger env), (DM4_DEBUG env); eexists; split; try reflexivity;
    by repeat split.
Qed.



(** X13. When the timer of a waiting request fires, the request is taken
    off the list and its promise is settled as the synchronous normaliser
    settles it on the state at hand: resolved with what
    [normalizeDatasetSync] returns, on the heap that it leaves, or rejected
    with the error it throws.  A result is stored in the cache under the
    key that the request was posted with, if it has one; an error stores
    nothing. *)
Theorem timeout_settles_as_the_synchronous_call env id raw key request w :
  pendingGet id (pendingRequests w) = Some request ->
  fst (onTimeout env id raw key w)
  = Ok (Some (id, settledWith (fst (normalizeDatasetSync env raw w)))) /\
  heap (snd (onTimeout env id raw key w)) = heap (snd (normalizeDatasetSync env raw w)) /\
  pendingRequests (snd (onTimeout env id raw key w))
  = pendingDelete id (pendingRequests w) /\
  normalizationCache (snd (onTimeout env id raw key w))
  = match fst (normalizeDatasetSync env raw w), key with
    | Ok v, Some k =>
        if usableKey key then assocSet k v (normalizationCache w)
        else normalizationCache w
    | _, _ => normalizationCache w
    end.
Proof.
  intros Hp. unfold onTimeout. rewrite Hp.
  set (w1 := setPending (workerRequestId w) (pendingDelete id (pendingRequests w)) w).
  destruct (whenLogger_warn_run env
              "Worker timeout, falling back to sync normalization" w1)
    as (w2 & E2 & (Eh2 & Ec2 & _ & _ & Ep2 & _)).
  rewrite (bind_run _ _ _ _ _ E2).
  assert (heap w2 = heap w) as Hh by (by rewrite <- Eh2).
  destruct (agree_normalizeDatasetSync env env raw eq_refl w2 w Hh) as [Sr Sh].
  pose proof (normalizeDatasetSync_module env raw w2) as (Mc & _ & _ & Mp & _).
  rewrite <- Sr, <- Sh. clear Sr Sh.
  destruct (normalizeDatasetSync env raw w2) as [[v|e] u] eqn:En; cbn [fst snd] in *.
  - destruct (cacheStore_run key v u) as (x & X & Xh & _ & Xc).
    assert (syncFallback env raw key w2 = (Ok (Resolved v), x)) as Hs.
    { unfold syncFallback, settle.
      by rewrite (bind_run _ _ _ _ _ En), (bind_run _ _ _ _ _ X). }
    rewrite (bind_run _ _ _ _ _ Hs). cbn [fst snd ret settledWith].
    split; [done|]. split; [done|].
    assert (pendingRequests x = pendingRequests u) as Xp.
    { pose proof (cacheStore_requests key v u) as R. rewrite X in R. apply R. }
    split; [by rewrite Xp, Mp, <- Ep2|].
    rewrite Xc, Mc, <- Ec2. by destruct key.
  - assert (syncFallback env raw key w2 = (Ok (Rejected e), u)) as Hs.
    { unfold syncFallback, settle. unfold bind at 1. by rewrite En. }
    rewrite (bind_run _ _ _ _ _ Hs). cbn [fst snd ret settledWith].
    split; [done|]. split; [done|].
    split; [by rewrite Mp, <- Ep2|]. by rewrite Mc, <- Ec2.
Qed.

Lemma timeout_settles_as_the_synchronous_call_witness :
  let h := [OObj []] in
  let raw := VRef 0 in
  let key := Some "{}" in
  let w := run workerEnv [Normalize raw true] (initialWorld h) in
  pendingGet 1 (pendingRequests w) = Some {| pendingCacheKey := key |} /\
  fst (onTimeout workerEnv 1 raw key w)
  = Ok (Some (1, settledWith (fst (normalizeDatasetSync workerEnv raw w)))) /\
  heap (snd (onTimeout workerEnv 1 raw key w))
  = heap (snd (normalizeDatasetSync workerEnv raw w)) /\
  pendingRequests (snd (onTimeout workerEnv 1 raw key w))
  = pendingDelete 1 (pendingRequests w) /\
  normalizationCache (snd (onTimeout workerEnv 1 raw key w))
  = match fst (normalizeDatasetSync workerEnv raw w), key with
    | Ok v, Some k =>
        if usableKey key then assocSet k v (normalizationCache w)
        else normalizationCache w
    | _, _ => normalizationCache w
    end.
Proof.
  cbv zeta.
  set (w := run workerEnv [Normalize (VRef 0) true] (initialWorld [OObj []])).
  assert (pendingGet 1 (pendingRequests w)
          = Some {| pendingCacheKey := Some "{}" |}) as Hp
    by (vm_compute; reflexivity).
  split; [exact Hp|].
  exact (timeout_settles_as_the_synchronous_call workerEnv 1 (VRef 0) (Some "{}")
           {| pendingCacheKey := Some "{}" |} w Hp).
Defined.

(** ** The diagnostics of the normaliser *)

Lemma logsOnly_pure env {A} (m : M A) :
  (forall w, trace (snd (m w)) = trace w) -> logsOnly env m.
Proof. intros H w. exists []. by rewrite H, app_nil_r. Qed.

Lemma logsOnly_ret env {A} (a : A) : logsOnly env (ret a).
Proof. by apply logsOnly_pure. Qed.

Lemma logsOnly_throw env {A} msg : logsOnly env (@throw A msg).
Proof. by apply logsOnly_pure. Qed.

Lemma logsOnly_bind env {A B} (m : M A) (f : A -> M B) :
  logsOnly env m -> (forall a, logsOnly env (f a)) -> logsOnly env (bind m f).
Proof.
  intros Hm Hf w. unfold bind. destruct (Hm w) as (evs & E & F).
  destruct (m w) as [[a|e] w']; simpl in *; [|by exists evs].
  destruct (Hf a w') as (evs' & E' & F'). exists (evs ++ evs').
  rewrite E', E, app_assoc, forallb_app, F, F'. done.
Qed.

Lemma logsOnly_tryCatch env {A} (m : M A) (h : string -> M A) :
  logsOnly env m -> (forall e, logsOnly env (h e)) -> logsOnly env (tryCatch m h).
Proof.
  intros Hm Hh w. unfold tryCatch. destruct (Hm w) as (evs & E & F).
  destruct (m w) as [[a|e] w']; simpl in *; [by exists evs|].
  destruct (Hh e w') as (evs' & E' & F'). exists (evs ++ evs').
  rewrite E', E, app_assoc, forallb_app, F, F'. done.
Qed.

Lemma logsOnly_settle env (m : M JsVal) : logsOnly env m -> logsOnly env (settle m).
Proof.
  intros Hm w. unfold settle. destruct (Hm w) as (evs & E & F).
  destruct (m w) as [[a|e] w']; by exists evs.
Qed.

Lemma logsOnly_emit env e : allowed env e = true -> logsOnly env (emit e).
Proof. intros H w. exists [e]. simpl. by rewrite H. Qed.

Lemma logsOnly_getHeap env : logsOnly env getHeap.
Proof. by apply logsOnly_pure. Qed.

Lemma logsOnly_getProp env v k : logsOnly env (getProp v k).
Proof. by apply logsOnly_pure. Qed.

Lemma logsOnly_Object_entries env v : logsOnly env (Object_entries v).
Proof. by apply logsOnly_pure. Qed.

Lemma logsOnly_alloc env o : logsOnly env (alloc o).
Proof. by apply logsOnly_pure. Qed.

Lemma logsOnly_setProp env target k v : logsOnly env (setProp target k v).
Proof.
  apply logsOnly_pure. intros w. unfold setProp.
  destruct target as [| | | | |l]; try done.
  destruct (heap w !! l) as [[ps|es]|]; try done.
  destruct (assoc k ps) as [[x|msg]|]; done.
Qed.

Lemma logsOnly_push env arr v : logsOnly env (push arr v).
Proof.
  apply logsOnly_pure. intros w. unfold push.
  destruct arr as [| | | | |l]; try done.
  destruct (heap w !! l) as [[ps|es]|]; done.
Qed.

Lemma logsOnly_forEachM env {A} (f : A -> M unit) l :
  (forall x, logsOnly env (f x)) -> logsOnly env (forEachM f l).
Proof.
  intros Hf. induction l as [|x l IH]; simpl; [apply logsOnly_ret|].
  apply logsOnly_bind; [apply Hf|]. intros _. apply IH.
Qed.

Lemma logsOnly_assignSlots env target ps : logsOnly env (assignSlots target ps).
Proof.
  induction ps as [|[k [v|msg]] ps IH]; simpl.
  - apply logsOnly_ret.
  - apply logsOnly_bind; [apply logsOnly_setProp|]. intros _. apply IH.
  - apply logsOnly_throw.
Qed.

Ltac logsOnly :=
  repeat match goal with
  | |- logsOnly _ (bind _ _) => apply logsOnly_bind; [|intros ?]
  | |- logsOnly _ (tryCatch _ _) => apply logsOnly_tryCatch; [|intros ?]
  | |- logsOnly _ (ret _) => apply logsOnly_ret
  | |- logsOnly _ (throw _) => apply logsOnly_throw
  | |- logsOnly _ getHeap => apply logsOnly_getHeap
  | |- logsOnly _ (getProp _ _) => apply logsOnly_getProp
  | |- logsOnly _ (Object_entries _) => apply logsOnly_Object_entries
  | |- logsOnly _ (alloc _) => apply logsOnly_alloc
  | |- logsOnly _ (setProp _ _ _) => apply logsOnly_setProp
  | |- logsOnly _ (push _ _) => apply logsOnly_push
  | |- logsOnly _ (assignSlots _ _) => apply logsOnly_assignSlots
  | |- logsOnly _ (if ?b then _ else _) => destruct b eqn:?
  | |- logsOnly _ (match ?x with _ => _ end) => destruct x eqn:?
  | |- logsOnly _ (let (_, _) := ?x in _) => destruct x eqn:?
  end.

Lemma logsOnly_newObject env ps : logsOnly env (newObject ps).
Proof. unfold newObject. logsOnly. Qed.

Lemma logsOnly_newArray env es : logsOnly env (newArray es).
Proof. unfold newArray. logsOnly. Qed.

Lemma logsOnly_orEmptyObject env v : logsOnly env (orEmptyObject v).
Proof. unfold orEmptyObject. logsOnly. apply logsOnly_newObject. Qed.

Lemma logsOnly_orEmptyArray env v : logsOnly env (orEmptyArray v).
Proof. unfold orEmptyArray. logsOnly. apply logsOnly_newArray. Qed.

Lemma logsOnly_Object_assign env t s1 s2 : logsOnly env (Object_assign t s1 s2).
Proof. unfold Object_assign, assignFrom. logsOnly. Qed.

Lemma logsOnly_fillFrom env x table id : logsOnly env (fillFrom x table id).
Proof. unfold fillFrom. logsOnly. Qed.

Lemma logsOnly_arrayForEach env list (f : JsVal -> M unit) :
  (forall x, logsOnly env (f x)) -> logsOnly env (arrayForEach list f).
Proof.
  intros Hf. unfold arrayForEach. apply logsOnly_bind; [apply logsOnly_getHeap|].
  intros h. logsOnly. by apply logsOnly_forEachM.
Qed.

Lemma logsOnly_buildSectorBySystem env sectorsSrc :
  logsOnly env (buildSectorBySystem sectorsSrc).
Proof.
  unfold buildSectorBySystem. logsOnly.
  - apply logsOnly_newObject.
  - apply logsOnly_forEachM. intros entry. logsOnly; [apply logsOnly_orEmptyArray|].
    apply logsOnly_arrayForEach. intros sysId. logsOnly.
Qed.

Lemma logsOnly_debugLine env lv msg :
  logsOnly env (when (DM4_DEBUG env) (emit (Console lv msg))).
Proof.
  unfold when. destruct (DM4_DEBUG env) eqn:Hd; [|apply logsOnly_ret].
  by apply logsOnly_emit.
Qed.

Lemma logsOnly_info env msg : hasLogger env = true -> logsOnly env (Logger.info env msg).
Proof.
  intros Hl. unfold Logger.info.
  apply logsOnly_bind; [by apply logsOnly_emit|]. intros _. apply logsOnly_debugLine.
Qed.

Lemma logsOnly_warn env msg : hasLogger env = true -> logsOnly env (Logger.warn env msg).
Proof.
  intros Hl. unfold Logger.warn.
  apply logsOnly_bind; [by apply logsOnly_emit|]. intros _. apply logsOnly_debugLine.
Qed.

Lemma logsOnly_validate env c msg :
  hasLogger env = true -> logsOnly env (Logger.validate env c msg).
Proof.
  intros Hl. unfold Logger.validate, when.
  apply logsOnly_bind; [|intros _; apply logsOnly_ret].
  destruct (negb c); [by apply logsOnly_warn|apply logsOnly_ret].
Qed.

Lemma logsOnly_whenLogger env m :
  (hasLogger env = true -> logsOnly env m) -> logsOnly env (whenLogger env m).
Proof.
  intros H. unfold whenLogger, when.
  destruct (hasLogger env); [by apply H|apply logsOnly_ret].
Qed.

Lemma logsOnly_mergedSystem env px gr sb id sys :
  logsOnly env (mergedSystem env px gr sb id sys).
Proof.
  unfold mergedSystem. logsOnly.
  all: try apply logsOnly_fillFrom.
  all: try apply logsOnly_newObject.
  all: try apply logsOnly_Object_assign.
  all: apply logsOnly_validate; by destruct (truthy _), (hasLogger env).
Qed.

Lemma logsOnly_normalizeSystem env px gr sb ns er entry :
  logsOnly env (normalizeSystem env px gr sb ns er entry).
Proof.
  unfold normalizeSystem, mergeSystem. logsOnly.
  all: try apply logsOnly_orEmptyObject.
  all: try apply logsOnly_mergedSystem.
  all: try apply logsOnly_newObject.
  all: apply logsOnly_whenLogger; intros Hl; by apply logsOnly_warn.
Qed.

Lemma logsOnly_normalizeSystems env raw : logsOnly env (normalizeSystems env raw).
Proof.
  unfold normalizeSystems. logsOnly.
  all: try apply logsOnly_orEmptyObject.
  all: try apply logsOnly_buildSectorBySystem.
  all: try apply logsOnly_newObject.
  all: try apply logsOnly_newArray.
  all: apply logsOnly_forEachM; intros entry; apply logsOnly_normalizeSystem.
Qed.

Lemma logsOnly_normalizeDatasetSync env raw : logsOnly env (normalizeDatasetSync env raw).
Proof.
  unfold normalizeDatasetSync. logsOnly.
  all: try apply logsOnly_newObject.
  all: try apply logsOnly_normalizeSystems.
  all: try apply logsOnly_Object_assign.
  all: try apply logsOnly_debugLine.
  all: apply logsOnly_warn; try done.
  match goal with
  | H : _ && hasLogger env = true |- _ => apply andb_prop in H; apply H
  end.
Qed.

Lemma logsOnly_generateCacheKey env raw : logsOnly env (generateCacheKey raw).
Proof. unfold generateCacheKey. logsOnly. Qed.

Lemma logsOnly_cacheLookup env key : logsOnly env (cacheLookup key).
Proof. apply logsOnly_pure. intros w. by rewrite cacheLookup_run. Qed.

Lemma logsOnly_cacheStore env key v : logsOnly env (cacheStore key v).
Proof.
  apply logsOnly_pure. intros w.
  destruct (cacheStore_run key v w) as (w' & E & _ & Et & _). by rewrite E.
Qed.

Lemma logsOnly_syncFallback env raw key : logsOnly env (syncFallback env raw key).
Proof.
  unfold syncFallback. apply logsOnly_settle. logsOnly.
  - apply logsOnly_normalizeDatasetSync.
  - apply logsOnly_cacheStore.
Qed.

Lemma logsOnly_initWorker env : logsOnly env (initWorker env).
Proof.
  intros w. unfold initWorker.
  destruct (worker w); [by exists []; rewrite app_nil_r|].
  destruct (workerSupport env) as [|msg|]; try (by exists []; rewrite app_nil_r).
  assert (logsOnly env (whenLogger env (Logger.warn env "Failed to initialize worker:") ;;;
                        (fun w' => (Ok tt, setWorker false w')))) as H.
  { apply logsOnly_bind.
    - apply logsOnly_whenLogger. intros Hl. by apply logsOnly_warn.
    - intros _. by apply logsOnly_pure. }
  apply H.
Qed.

Lemma logsOnly_normalizeDatasetAsync env raw : logsOnly env (normalizeDatasetAsync env raw).
Proof.
  unfold normalizeDatasetAsync.
  apply logsOnly_bind; [apply logsOnly_generateCacheKey|]. intros key.
  apply logsOnly_bind; [apply logsOnly_cacheLookup|]. intros [result|].
  - apply logsOnly_bind; [|intros _; apply logsOnly_ret].
    apply logsOnly_whenLogger. intros Hl. by apply logsOnly_info.
  - apply logsOnly_bind.
    + intros w. destruct (worker w); [by exists []; rewrite app_nil_r|].
      apply logsOnly_initWorker.
    + intros _ w. destruct (worker w); [by exists []; rewrite app_nil_r|].
      assert (logsOnly env
                (whenLogger env
                   (Logger.info env
                      "Worker not available, using synchronous normalization") ;;;
                 syncFallback env raw key)) as H.
      { apply logsOnly_bind; [|intros _; apply logsOnly_syncFallback].
        apply logsOnly_whenLogger. intros Hl. by apply logsOnly_info. }
      apply H.
Qed.

Lemma logsOnly_normalizeDataset env raw async :
  logsOnly env (normalizeDataset env raw async).
Proof.
  unfold normalizeDataset. destruct async.
  - apply logsOnly_bind; [apply logsOnly_normalizeDatasetAsync|].
    intros p. apply logsOnly_ret.
  - apply logsOnly_bind; [apply logsOnly_generateCacheKey|]. intros key.
    apply logsOnly_bind; [apply logsOnly_cacheLookup|]. intros [result|].
    + apply logsOnly_bind; [|intros _; apply logsOnly_ret].
      apply logsOnly_whenLogger. intros Hl. by apply logsOnly_info.
    + logsOnly; [apply logsOnly_normalizeDatasetSync|apply logsOnly_cacheStore].
Qed.

Lemma logsOnly_clearCache env : logsOnly env (clearCache env).
Proof.
  unfold clearCache. apply logsOnly_bind; [by apply logsOnly_pure|].
  intros _. apply logsOnly_whenLogger. intros Hl. by apply logsOnly_info.
Qed.

Lemma logsOnly_onTimeout env id raw key : logsOnly env (onTimeout env id raw key).
Proof.
  intros w. unfold onTimeout.
  destruct (pendingGet id (pendingRequests w)); [|by exists []; rewrite app_nil_r].
  assert (logsOnly env
            (whenLogger env
               (Logger.warn env "Worker timeout, falling back to sync normalization") ;;;
             p <- syncFallback env raw key ;;
             ret (Some (id, p)))) as H.
  { apply logsOnly_bind.
    - apply logsOnly_whenLogger. intros Hl. by apply logsOnly_warn.
    - intros _. apply logsOnly_bind; [apply logsOnly_syncFallback|].
      intros p0. apply logsOnly_ret. }
  apply (H (setPending (workerRequestId w) (pendingDelete id (pendingRequests w)) w)).
Qed.

(** X14. The diagnostics of the dataset module are only ever appended, and
    apart from the report of a fault of the worker they respect the page:
    whatever [normalize] (synchronous or not), [clearCache], a timer or a
    reply of the worker do, every diagnostic they issue is a call of the
    logger on a page that has one, or a line on the console on a page whose
    debug flag is set.  So with the flag off they print nothing, and
    without logger and flag they are silent. *)
Theorem diagnostics_respect_logger_and_debug_flag env w :
  (forall raw async, exists evs,
      trace (snd (normalizeDataset env raw async w)) = trace w ++ evs /\
      forallb (allowed env) evs = true) /\
  (exists evs,
      trace (snd (clearCache env w)) = trace w ++ evs /\
      forallb (allowed env) evs = true) /\
  (forall id raw key, exists evs,
      trace (snd (onTimeout env id raw key w)) = trace w ++ evs /\
      forallb (allowed env) evs = true) /\
  (forall id reply, trace (snd (onWorkerMessage id reply w)) = trace w).
Proof.
  split; [intros raw async; apply logsOnly_normalizeDataset|].
  split; [apply logsOnly_clearCache|].
  split; [intros id raw key; apply logsOnly_onTimeout|].
  intros id reply. unfold onWorkerMessage.
  destruct (pendingGet id (pendingRequests w)) as [request|]; [|done].
  destruct reply as [payload|error]; [|done]. cbn [snd].
  destruct (cacheStore_run (pendingCacheKey request) payload
              (setPending (workerRequestId w)
                 (pendingDelete id (pendingRequests w)) w))
    as (w' & E & _ & Et & _).
  by rewrite E.
Qed.

(** ** The numbering of the requests *)




